(** * libactors: a shallow embedding of the actor runtime

  The development follows the layout of the Python package:

  - [PyStr], [Pathlib]  strings, and the part of [pathlib.PurePosixPath]
                        used by [Core._generate_actor_id];
  - [Py]                values, exceptions, truthiness, [copy.deepcopy];
  - [Envelope], [Messages], [Context]
                        [libactors/message.py], [libactors/actor/messages.py],
                        [libactors/context.py];
  - [Router], [ActorClass]
                        [libactors/actor/router.py] and the metaclass of
                        [libactors/actor/actor.py];
  - [Asyncio], [Runtime]
                        events and futures, then the store of shared
                        objects with [libactors/aio/service/service.py],
                        [libactors/actor/actor.py], [libactors/actor/proxy.py]
                        and [libactors/core.py] over it;
  - [Timer]             [Actor._generic_timer];
  - [Actlets], [ProxyAuto]
                        [libactors/actor/actlet.py] with the actlets and
                        timers of an actor, and [ActorProxy.__getattr__];
  - [Spec], [Terms]     the vocabulary of the statements.

  The facts follow, one module per subject.

  Python values that the runtime only moves around are kept abstract;
  everything the runtime inspects (truthiness, identity strings, the
  registry, the mailbox, futures) is modelled as the code has it.
  Calls to the logger have no effect on the store and are left out,
  except where reaching the logger can itself raise. *)

From Stdlib Require Import ZArith QArith Lia Bool List Ascii String.
From stdpp Require Import base option list strings pretty gmap.

Set Warnings "-register-all".

Local Open Scope string_scope.
Local Open Scope list_scope.

(** ** Strings as Python uses them *)

Module PyStr.

Definition sep : ascii := "/"%char.

(** [s.split('/')]: never returns the empty list. *)
Fixpoint split (s : string) : list string :=
  match s with
  | EmptyString => [EmptyString]
  | String c s' =>
      if Ascii.eqb c sep then EmptyString :: split s'
      else match split s' with
           | [] => [String c EmptyString]
           | x :: xs => String c x :: xs
           end
  end.

(** ['/'.join(parts)] *)
Fixpoint join (parts : list string) : string :=
  match parts with
  | [] => EmptyString
  | [x] => x
  | x :: rest => x +:+ String sep (join rest)
  end.

(** [s.lstrip('/')] *)
Fixpoint lstrip (s : string) : string :=
  match s with
  | String c s' => if Ascii.eqb c sep then lstrip s' else s
  | EmptyString => EmptyString
  end.

(** ['/' in s] *)
Fixpoint contains_sep (s : string) : bool :=
  match s with
  | EmptyString => false
  | String c s' => Ascii.eqb c sep || contains_sep s'
  end.

(** Truthiness of a [str]: non-empty. *)
Definition truthy (s : string) : bool :=
  match s with EmptyString => false | String _ _ => true end.

End PyStr.

(** ** pathlib.PurePosixPath

  [Core._generate_actor_id] is [str(pathlib.Path(base) / actor_id)].
  The functions below are the POSIX flavour of CPython's pathlib
  ([splitroot], [parse_parts], [join_parsed_parts],
  [_format_parsed_parts]); on POSIX the drive is always the empty
  string and is left out. *)

Module Pathlib.
Import PyStr.

Record PurePath := mkPath {
  _root : string;
  _parts : list string;
}.

(** [_PosixFlavour.splitroot]: two leading slashes are kept as a
    root of their own, any other number collapses to one. *)
Definition splitroot (part : string) : string * string :=
  match part with
  | String c _ =>
      if Ascii.eqb c sep then
        let stripped_part := lstrip part in
        if Nat.eqb (String.length part - String.length stripped_part) 2
        then ("//", stripped_part)
        else ("/", stripped_part)
      else ("", part)
  | EmptyString => ("", part)
  end.

(** [x and x != '.'] *)
Definition keep_name (x : string) : bool :=
  truthy x && negb (String.eqb x ".").

(** The names one part contributes to [parsed], in append order
    (the source walks [reversed(rel.split(sep))]). *)
Definition part_names (rel : string) : list string :=
  if contains_sep rel then filter (fun x => Is_true (keep_name x)) (rev (split rel))
  else if keep_name rel then [rel] else [].

(** The loop of [parse_parts] over [reversed(parts)]: returns the root
    that ended the loop (empty when it ran to the end) and [parsed]
    before the root is appended. *)
Fixpoint parse_loop (it : list string) : string * list string :=
  match it with
  | [] => ("", [])
  | part :: it' =>
      if negb (truthy part) then parse_loop it'
      else
        let '(root, rel) := splitroot part in
        let names := part_names rel in
        if truthy root then (root, names)
        else let '(root', parsed) := parse_loop it' in (root', names ++ parsed)
  end.

Definition parse_parts (parts : list string) : string * list string :=
  let '(root, parsed) := parse_loop (rev parts) in
  let parsed := if truthy root then parsed ++ [root] else parsed in
  (root, rev parsed).

(** [PurePath(arg)] *)
Definition Path (arg : string) : PurePath :=
  let '(root, parts) := parse_parts [arg] in mkPath root parts.

(** [join_parsed_parts] with both drives empty. *)
Definition join_parsed_parts (root : string) (parts : list string)
    (root2 : string) (parts2 : list string) : string * list string :=
  if truthy root2 then (root2, parts2) else (root, parts ++ parts2).

(** [self / key] *)
Definition truediv (self : PurePath) (key : string) : PurePath :=
  let '(root2, parts2) := parse_parts [key] in
  let '(root, parts) := join_parsed_parts (_root self) (_parts self) root2 parts2 in
  mkPath root parts.

Definition _format_parsed_parts (root : string) (parts : list string) : string :=
  if truthy root then root +:+ join (tail parts) else join parts.

(** [str(path)] *)
Definition str (p : PurePath) : string :=
  let s := _format_parsed_parts (_root p) (_parts p) in
  if truthy s then s else ".".

End Pathlib.


(** ** Python values, exceptions and the object store *)

Module Py.
Import PyStr.

(** The exception classes the runtime raises or catches.  The last
    two stand for user classes; [CancelledError] and
    [UserBaseException] derive from [BaseException] only, so that
    [except Exception] does not catch them. *)
Inductive ExcClass :=
| RuntimeError | ValueError | KeyError | TypeError | AttributeError
| RecursionError | InvalidStateError | CancelledError
| UserError (name : string)
| UserBaseException (name : string).

#[export] Instance ExcClass_eq_dec : EqDecision ExcClass.
Proof. solve_decision. Defined.

(** [isinstance(e, Exception)] *)
Definition is_Exception (c : ExcClass) : bool :=
  match c with
  | CancelledError | UserBaseException _ => false
  | _ => true
  end.

Record exc := mkExc { exc_class : ExcClass; exc_msg : string }.

#[export] Instance exc_eq_dec : EqDecision exc.
Proof. solve_decision. Defined.

(** A call either returns or raises. *)
Inductive pyresult (A : Type) :=
| Return (a : A)
| Raise (e : exc).
Arguments Return {A} a.
Arguments Raise {A} e.

Definition bind {A B} (r : pyresult A) (k : A -> pyresult B) : pyresult B :=
  match r with
  | Return a => k a
  | Raise e => Raise e
  end.

(** The truth value of an object, [bool(x)]. *)
Class Truthy (A : Type) := truthy : A -> bool.

#[export] Instance string_truthy : Truthy string := PyStr.truthy.
(** [None] is false; any other object answers for itself. *)
#[export] Instance option_truthy {A} `{Truthy A} : Truthy (option A) :=
  fun o => match o with Some x => truthy x | None => false end.

(** [x or y] *)
Definition py_or {A} `{Truthy A} (x y : A) : A :=
  if truthy x then x else y.

(** [x or y] where [x] is [kwargs.get(key)]: [None] when the key is
    missing or was passed as [None]. *)
Definition get_or {A} `{Truthy A} (x : option A) (y : A) : A :=
  match x with
  | Some v => if truthy v then v else y
  | None => y
  end.

(** A message class: the class object (told apart by [cls_id]), its
    [__name__] and whether it derives from [Message]. *)
Record MsgCls := mkMsgCls {
  cls_id : nat;
  cls_name : string;
  cls_is_message : bool;
}.

#[export] Instance MsgCls_eq_dec : EqDecision MsgCls.
Proof. solve_decision. Defined.

Abbreviation loc := nat (only parsing).

(** Values carried by messages.  A frozen dataclass instance is an
    immutable node; [VRef] points to a mutable container (a Python
    list) in the object store. *)
Inductive value :=
| VNone
| VBool (b : bool)
| VInt (z : Z)
| VStr (s : string)
| VSentinel (name : string)
| VRef (l : loc)
| VMsg (cls : MsgCls) (args : list value).

(** A message is a dataclass instance: its exact type and its field
    values in declaration order. *)
Record Message := mkMessage {
  msg_cls : MsgCls;
  msg_args : list value;
}.

Definition to_value (m : Message) : value := VMsg (msg_cls m) (msg_args m).

(** [isinstance(v, Message)] *)
Definition as_message (v : value) : option Message :=
  match v with
  | VMsg cls args => if cls_is_message cls then Some (mkMessage cls args) else None
  | _ => None
  end.

(** The object store: location [l] holds the items of a list object. *)
Abbreviation heap := (list (list value)) (only parsing).

(** ** copy.deepcopy

    [deepcopy(x, memo)] of the standard library, for the values above:
    atoms are returned as they are, a dataclass instance is rebuilt
    from deep copies of its fields, and a list is copied the way
    [_deepcopy_list] does it: the new list is allocated and recorded in
    [memo] first, then filled item by item.  [fuel] is the interpreter's
    recursion limit. *)
Abbreviation copy_state := (gmap nat nat * list (list value))%type (only parsing).

Definition copy_items (copy : value -> copy_state -> pyresult (value * copy_state))
    (emit : value -> heap -> heap) :
    list value -> copy_state -> pyresult (list value * copy_state) :=
  fix go (xs : list value) (st : copy_state) :=
    match xs with
    | [] => Return ([], st)
    | a :: xs' =>
        match copy a st with
        | Raise e => Raise e
        | Return (a', (memo, h)) =>
            match go xs' (memo, emit a' h) with
            | Raise e => Raise e
            | Return (ys, st') => Return (a' :: ys, st')
            end
        end
    end.

(** [y.append(a)] on the list at [y]. *)
Definition list_append (y : loc) (a : value) (h : heap) : heap :=
  alter (fun items => items ++ [a]) y h.

Fixpoint deepcopy (fuel : nat) (x : value) (st : copy_state)
    : pyresult (value * copy_state) :=
  match fuel with
  | O => Raise (mkExc RecursionError "maximum recursion depth exceeded")
  | S fuel' =>
      match x with
      | VRef l =>
          let '(memo, h) := st in
          match memo !! l with
          | Some y => Return (VRef y, st)
          | None =>
              match h !! l with
              | None => Raise (mkExc RuntimeError "dangling reference")
              | Some items =>
                  let y := length h in
                  match copy_items (deepcopy fuel') (list_append y) items
                          (<[l := y]> memo, h ++ [[]]) with
                  | Raise e => Raise e
                  | Return (_, st') => Return (VRef y, st')
                  end
              end
          end
      | VMsg cls args =>
          match copy_items (deepcopy fuel') (fun _ h => h) args st with
          | Raise e => Raise e
          | Return (args', st') => Return (VMsg cls args', st')
          end
      | _ => Return (x, st)
      end
  end.

(** What a reader holding [v] can see of the store, to depth [n]. *)
Inductive view :=
| Atom (v : value)
| Items (l : loc) (xs : list view)
| Fields (cls : MsgCls) (xs : list view)
| Dangling
| Deeper.

Fixpoint observe (n : nat) (h : heap) (v : value) : view :=
  match n with
  | O => Deeper
  | S n' =>
      match v with
      | VRef l =>
          match h !! l with
          | Some items => Items l (map (observe n' h) items)
          | None => Dangling
          end
      | VMsg cls args => Fields cls (map (observe n' h) args)
      | _ => Atom v
      end
  end.

End Py.

(** ** A Python dict: insertion-ordered, one entry per key *)

Module Dict.
Section dict.
Context {K V : Type} `{EqDecision K}.

Definition t : Type := list (K * V).

(** [d.get(k)] *)
Fixpoint get (k : K) (d : t) : option V :=
  match d with
  | [] => None
  | (k', v) :: d' => if decide (k = k') then Some v else get k d'
  end.

(** [k in d] *)
Definition contains (k : K) (d : t) : bool :=
  match get k d with Some _ => true | None => false end.

(** [d[k] = v]: an existing key keeps its position. *)
Fixpoint set (k : K) (v : V) (d : t) : t :=
  match d with
  | [] => [(k, v)]
  | (k', v') :: d' =>
      if decide (k = k') then (k, v) :: d' else (k', v') :: set k v d'
  end.

(** [d.items()] is the list itself. *)
Definition items (d : t) : list (K * V) := d.
Definition values (d : t) : list V := map snd d.
End dict.
Arguments t : clear implicits.
End Dict.

(** ** libactors/message.py and libactors/actor/messages.py *)

Module Envelope.
Import Py.

Record t := mk {
  id : string;
  sender : string;
  receiver : string;
  message : Message;
  reply_to : option string;
}.

(** A dataclass instance defines neither [__bool__] nor [__len__]. *)
#[global] Instance Envelope_truthy : Truthy t := fun _ => true.

End Envelope.

Module Messages.
Import Py.

Definition Message_cls : MsgCls := mkMsgCls 0 "Message" true.
Definition ActletDoneMessage_cls : MsgCls := mkMsgCls 1 "ActletDoneMessage" true.
Definition TimerConfiguration_cls : MsgCls := mkMsgCls 2 "TimerConfiguration" true.
Definition TimerDoneMessage_cls : MsgCls := mkMsgCls 3 "TimerDoneMessage" true.
Definition ShutdownMessage_cls : MsgCls := mkMsgCls 4 "ShutdownMessage" true.

Definition ActletDoneMessage (result : value) : Message :=
  mkMessage ActletDoneMessage_cls [result].
Definition TimerDoneMessage : Message := mkMessage TimerDoneMessage_cls [].
Definition ShutdownMessage : Message := mkMessage ShutdownMessage_cls [].

(** [UNHANDLED = sentinels.Sentinel('unhandled')] *)
Definition UNHANDLED : value := VSentinel "unhandled".


End Messages.

(** ** libactors/context.py *)

Module Context.
Import Py Messages.

(** A reference to a [Core] object. *)
Inductive CoreRef := core_at (n : nat).

#[export] Instance CoreRef_eq_dec : EqDecision CoreRef.
Proof. solve_decision. Defined.

(** [Core] defines neither [__bool__] nor [__len__]. *)
#[export] Instance CoreRef_truthy : Truthy CoreRef := fun _ => true.

(** The logger interface the runtime uses: a bound logger is its
    key/value bindings; [bind] returns a child with more of them. *)
Record Logger := mkLogger { bindings : gmap string value }.

#[export] Instance Logger_truthy : Truthy Logger := fun _ => true.

Definition Logger_bind (log : Logger) (kw : gmap string value) : Logger :=
  mkLogger (kw ∪ bindings log).

Record Context := mkContext {
  ctx_class : string;              (* [type(self).__name__] *)
  _core : option CoreRef;
  _log : option Logger;
  _identity : string;
  _envelope : option Envelope.t;
}.

(** [cls(core, log, identity, envelope, **kwargs)] *)
Definition __init__ (cls : string) (core : option CoreRef) (log : option Logger)
    (identity : string) (envelope : option Envelope.t)
    (kwargs : gmap string value) : Context :=
  let log' :=
    if truthy log
    then (fun l => Logger_bind l (<["identity" := VStr identity]> kwargs)) <$> log
    else log in
  mkContext cls core log' identity envelope.

(** The keyword arguments of a call: what [kwargs.get] returns for
    the four keys [__call__] reads, and every other key. *)
Record Kwargs := mkKwargs {
  kw_core : option CoreRef;
  kw_log : option Logger;
  kw_identity : option string;
  kw_envelope : option Envelope.t;
  kw_rest : gmap string value;
}.

Definition no_kwargs : Kwargs := mkKwargs None None None None ∅.

(** [Context.__call__]: the other keys are dropped (the source marks
    this with a TODO), and the class is [Context] itself. *)
Definition __call__ (self : Context) (kwargs : Kwargs) : Context :=
  __init__ "Context"
    (py_or (kw_core kwargs) (_core self))
    (py_or (kw_log kwargs) (_log self))
    (get_or (kw_identity kwargs) (_identity self))
    (py_or (kw_envelope kwargs) (_envelope self))
    ∅.

(** [context.sender] *)
Definition sender (self : Context) : pyresult string :=
  match _envelope self with
  | Some e => Return (Envelope.sender e)
  | None => Raise (mkExc AttributeError "'NoneType' object has no attribute 'sender'")
  end.

Definition identity (self : Context) : string := _identity self.

(** [context.debug], [context.info], [context.warning] and
    [context.exception] are properties that read [self._log.<level>];
    the call of the logger's method returns [None].  A context made
    with [log=None] has no logger to read the method from. *)
Definition logger_call (self : Context) (level : string) : pyresult unit :=
  match _log self with
  | Some _ => Return tt
  | None =>
      Raise (mkExc AttributeError
               ("'NoneType' object has no attribute '" +:+ level +:+ "'"))
  end.

End Context.

(** ** User code

  A handler (or [initialize]) is user code.  Between two dispatches
  of the serve loop it runs a sequence of statements against its own
  actor and then returns a value; a statement may raise, which ends
  the call with that exception and keeps the effects made so far. *)

Module Behaviour.
Import Py Messages Context.

(** What the body reads of [self]. *)
Record Self := mkSelf {
  self_actor_id : string;
  self_attrs : gmap string value;
  self_actlets : gset string;
}.

Inductive stmt :=
| SetAttr (name : string) (v : value)   (* [self.name = v] *)
| TellMe (m : Message)                  (* [self.tell_me(m)] *)
| Log (context : Context) (level : string)   (* [context.<level>(...)] *)
| Stop                                  (* [aio.service.Service.stop(self)] *)
| CancelActlets                         (* every [actlet.cancel()], gathered *)
| DelActlet (name : string)             (* [del self._actlets[name]] *)
| ThrowExc (e : exc).                   (* [raise e] *)

(** The statements, then [return v]. *)
Definition program : Type := list stmt * value.

Definition Body : Type := Self -> heap -> Context -> Message -> program.
Definition InitBody : Type := Self -> heap -> Context -> program.

(** [Actor.initialize]: [pass]. *)
Definition default_initialize : InitBody := fun _ _ _ => ([], VNone).

End Behaviour.

(** ** libactors/actor/router.py *)

Module Router.
Import Py Messages Context Behaviour.

(** A function object as [Router.add] and the metaclass inspect it. *)
Record Handler := mkHandler {
  h_qualname : string;
  h_parameters : list string;     (* [inspect.signature(func)._parameters.keys()] *)
  h_coroutine : bool;             (* [inspect.iscoroutinefunction(func)] *)
  _handle : option MsgCls;        (* set by [@register_handler], else missing *)
  h_body : Body;
}.

Definition MESSAGE_HANDLER_SIGNATURE : list string := ["self"; "context"; "message"].

(** Equality of two [dict.keys()] views is equality of sets. *)
Definition keys_eq (a b : list string) : bool :=
  forallb (fun x => bool_decide (x ∈ b)) a && forallb (fun x => bool_decide (x ∈ a)) b.

Record t := mkRouter {
  _handlers : Dict.t MsgCls Handler;
  _handled_messages_names : Dict.t string MsgCls;
}.

(** [Router()] *)
Definition new : t := mkRouter [] [].

(** [self._handlers.get(type(message))] *)
Definition match_ (self : t) (message : Message) : option Handler :=
  Dict.get (msg_cls message) (_handlers self).

Definition get_message_cls (self : t) (message_name : string) : pyresult MsgCls :=
  match Dict.get message_name (_handled_messages_names self) with
  | None => Raise (mkExc KeyError ("no handler for message: `" +:+ message_name +:+ "`"))
  | Some cls => Return cls
  end.

Definition add (self : t) (message_cls : MsgCls) (func : Handler) : pyresult t :=
  if negb (cls_is_message message_cls) then
    Raise (mkExc RuntimeError "message class must inherit from Message")
  else if negb (keys_eq (h_parameters func) MESSAGE_HANDLER_SIGNATURE) then
    Raise (mkExc RuntimeError "signature for func must be: (self, context, message)")
  else if negb (h_coroutine func) then
    Raise (mkExc RuntimeError "function must be async")
  else if Dict.contains (cls_name message_cls) (_handled_messages_names self) then
    Raise (mkExc RuntimeError "handler already exists")
  else
    Return (mkRouter
              (Dict.set message_cls func (_handlers self))
              (Dict.set (cls_name message_cls) message_cls (_handled_messages_names self))).

End Router.

(** ** The class side of libactors/actor/actor.py *)

Module ActorClass.
Import Py Messages Context Behaviour.

(** An entry of a class body. *)
Inductive attr :=
| AFunc (f : Router.Handler)
| AOther.

(** A class as the metaclass sees it in [bases]: [class_router] is
    [None] when [hasattr(base, '_router')] is false. *)
Record PyClass := mkClass {
  class_name : string;
  class_router : option Router.t;
  class_initialize : InitBody;
}.

(** The first loop of [ActorMetaclass.__new__], over [dct.values()]. *)
Fixpoint add_declared (methods : list attr) (router : Router.t) : pyresult Router.t :=
  match methods with
  | [] => Return router
  | AFunc f :: rest =>
      match Router._handle f with
      | Some message_cls =>
          bind (Router.add router message_cls f) (add_declared rest)
      | None => add_declared rest router
      end
  | AOther :: rest => add_declared rest router
  end.

(** The inner loop over [base._router._handlers.items()]. *)
Fixpoint add_inherited (items : list (MsgCls * Router.Handler)) (router : Router.t)
    : pyresult Router.t :=
  match items with
  | [] => Return router
  | (message_cls, handler) :: rest =>
      if negb (Dict.contains message_cls (Router._handlers router)) then
        bind (Router.add router message_cls handler) (add_inherited rest)
      else add_inherited rest router
  end.

(** The outer loop over [bases]. *)
Fixpoint add_bases (bases : list PyClass) (router : Router.t) : pyresult Router.t :=
  match bases with
  | [] => Return router
  | base :: rest =>
      match class_router base with
      | Some base_router =>
          bind (add_inherited (Dict.items (Router._handlers base_router)) router)
               (add_bases rest)
      | None => add_bases rest router
      end
  end.

(** [ActorMetaclass.__new__(cls, name, bases, dct)]: the router of
    the new class. *)
Definition ActorMetaclass_new (name : string) (bases : list PyClass)
    (dct : Dict.t string attr) : pyresult Router.t :=
  bind (add_declared (Dict.values dct) Router.new) (add_bases bases).

(** The class statement with these bases and this body, together
    with the [initialize] the class resolves to. *)
Definition define (name : string) (bases : list PyClass) (dct : Dict.t string attr)
    (initialize : InitBody) : pyresult PyClass :=
  bind (ActorMetaclass_new name bases dct)
       (fun router => Return (mkClass name (Some router) initialize)).

(** [Actor.stop(self, context)]: [context.info(...)], then
    [super().stop()]. *)
Definition Actor_stop (context : Context) : list stmt :=
  [Log context "info"; Stop].

(** The built-in handlers of [Actor]. *)
Definition handle_shutdown : Router.Handler :=
  Router.mkHandler "Actor.handle_shutdown" ["self"; "context"; "message"] true
    (Some ShutdownMessage_cls)
    (fun _ _ context _ => (CancelActlets :: Actor_stop context, VNone)).

Definition handle_actlet_done : Router.Handler :=
  Router.mkHandler "Actor.handle_actlet_done" ["self"; "context"; "message"] true
    (Some ActletDoneMessage_cls)
    (fun _ _ context message =>
       let forward :=
         match msg_args message with
         | result :: _ =>
             match as_message result with
             | Some m => [TellMe m]
             | None => []
             end
         | [] => []
         end in
       match Context.sender context with
       | Return sender => (Log context "debug" :: forward ++ [DelActlet sender], VNone)
       | Raise e => ([Log context "debug"; ThrowExc e], VNone)
       end).

(** [context.debug] is read before the text of the record, and with
    it [context.sender], is evaluated. *)
Definition handle_timer_done : Router.Handler :=
  Router.mkHandler "Actor.handle_timer_done" ["self"; "context"; "message"] true
    (Some TimerDoneMessage_cls)
    (fun _ _ context _ =>
       match Context.sender context with
       | Return _ => ([Log context "debug"], VNone)
       | Raise e => ([Log context "debug"; ThrowExc e], VNone)
       end).

(** [aio.service.Service]: a plain class, no router. *)
Definition Service : PyClass := mkClass "Service" None default_initialize.

Definition Actor_dct : Dict.t string attr :=
  [("__init_subclass__", AOther); ("__init__", AOther); ("initialize", AOther);
   ("post", AOther); ("tell_me", AOther); ("stop", AOther);
   ("handle_shutdown", AFunc handle_shutdown);
   ("handle_actlet_done", AFunc handle_actlet_done);
   ("handle_timer_done", AFunc handle_timer_done);
   ("serve", AOther)].

(** [class Actor(aio.service.Service, metaclass=ActorMetaclass)] *)
Definition Actor_router : Router.t :=
  match ActorMetaclass_new "Actor" [Service] Actor_dct with
  | Return r => r
  | Raise _ => Router.new
  end.

Definition Actor : PyClass := mkClass "Actor" (Some Actor_router) default_initialize.

End ActorClass.

(** ** asyncio objects *)

Module Asyncio.
Import Py.

(** [asyncio.Event].  [set_calls] counts the calls of [set()]; the
    flag itself only ever goes from false to true. *)
Record Event := mkEvent { _value : bool; set_calls : nat }.

Definition Event_new : Event := mkEvent false 0.
Definition Event_set (e : Event) : Event := mkEvent true (S (set_calls e)).
Definition is_set (e : Event) : bool := _value e.

(** [asyncio.Future]: its state, and the number of calls of
    [set_result] or [set_exception] made on it so far. *)
Inductive fut_state :=
| PENDING
| CANCELLED
| FINISHED (r : pyresult value).

Record Future := mkFuture { _state : fut_state; resolve_calls : nat }.

Definition Future_new : Future := mkFuture PENDING 0.

(** [set_result] and [set_exception] share their guard: anything but
    a pending future raises [InvalidStateError]. *)
Definition Future_resolve (f : Future) (r : pyresult value) : Future * pyresult unit :=
  match _state f with
  | PENDING => (mkFuture (FINISHED r) (S (resolve_calls f)), Return tt)
  | _ => (mkFuture (_state f) (S (resolve_calls f)),
          Raise (mkExc InvalidStateError "invalid state"))
  end.

Definition set_result (f : Future) (v : value) := Future_resolve f (Return v).
Definition set_exception (f : Future) (e : exc) := Future_resolve f (Raise e).

(** [Future.cancel()]: a future that is done stays as it is. *)
Definition Future_cancel (f : Future) : Future :=
  match _state f with
  | PENDING => mkFuture CANCELLED (resolve_calls f)
  | _ => f
  end.

End Asyncio.

(** ** The running system

  One store holds every object that is shared and mutated: list
  objects, futures, actors and cores.  A reference is an index into
  its store; a method takes the store and the reference of [self]. *)

Module Runtime.
Import Py Messages Context Behaviour ActorClass Asyncio.

(** [EnvelopeTracker]: the envelope it was made for and its future. *)
Record EnvelopeTracker := mkTracker {
  tracker_envelope : Envelope.t;
  _fut : nat;
}.

(** An actlet as its owner sees it: whether [cancel()] was called. *)
Record Actlet := mkActlet { cancel_requested : bool }.

(** [Service._task] and where the worker coroutine stands. *)
Inductive task :=
| NoTask                       (* [_task is None] *)
| Scheduled                    (* [start()] was called, the worker has not run yet *)
| Serving                      (* suspended in [waiter.wait_first()] *)
| Done (r : pyresult unit).    (* the task has finished *)

Record Actor := mkActor {
  _class : PyClass;                          (* [type(self)] *)
  _actor_id : string;
  _context : Context;
  _queue : list (Envelope.t * EnvelopeTracker);
  _initialize_event : Event;
  _initialize_exception : option exc;
  _shutdown_event : Event;
  _actlets : gmap string Actlet;
  attrs : gmap string value;                 (* attributes set by user code *)
  (* aio.service.Service *)
  _task : task;
  _stop_event : Event;
  _done_event : Event;
  _ready_event : Event;
}.

Record Core := mkCore {
  _actors : gmap string nat;
  _running : bool;
  core_context : option Context;
}.

Record World := mkWorld {
  heap_of : heap;
  futures : list Future;
  actors : list Actor;
  cores : list Core;
  uuids : nat;                (* how many uuids were drawn *)
  recursion_limit : nat;      (* [sys.getrecursionlimit()] *)
}.

Definition with_heap (h : heap) (w : World) : World :=
  mkWorld h (futures w) (actors w) (cores w) (uuids w) (recursion_limit w).
Definition with_futures (fs : list Future) (w : World) : World :=
  mkWorld (heap_of w) fs (actors w) (cores w) (uuids w) (recursion_limit w).
Definition with_actors (acts : list Actor) (w : World) : World :=
  mkWorld (heap_of w) (futures w) acts (cores w) (uuids w) (recursion_limit w).
Definition with_cores (cs : list Core) (w : World) : World :=
  mkWorld (heap_of w) (futures w) (actors w) cs (uuids w) (recursion_limit w).
Definition with_uuids (n : nat) (w : World) : World :=
  mkWorld (heap_of w) (futures w) (actors w) (cores w) n (recursion_limit w).

Definition with_queue (q : list (Envelope.t * EnvelopeTracker)) (a : Actor) : Actor :=
  mkActor (_class a) (_actor_id a) (_context a) q (_initialize_event a)
    (_initialize_exception a) (_shutdown_event a) (_actlets a) (attrs a)
    (_task a) (_stop_event a) (_done_event a) (_ready_event a).
Definition with_initialize_event (e : Event) (a : Actor) : Actor :=
  mkActor (_class a) (_actor_id a) (_context a) (_queue a) e
    (_initialize_exception a) (_shutdown_event a) (_actlets a) (attrs a)
    (_task a) (_stop_event a) (_done_event a) (_ready_event a).
Definition with_initialize_exception (x : option exc) (a : Actor) : Actor :=
  mkActor (_class a) (_actor_id a) (_context a) (_queue a) (_initialize_event a)
    x (_shutdown_event a) (_actlets a) (attrs a)
    (_task a) (_stop_event a) (_done_event a) (_ready_event a).
Definition with_shutdown_event (e : Event) (a : Actor) : Actor :=
  mkActor (_class a) (_actor_id a) (_context a) (_queue a) (_initialize_event a)
    (_initialize_exception a) e (_actlets a) (attrs a)
    (_task a) (_stop_event a) (_done_event a) (_ready_event a).
Definition with_actlets (m : gmap string Actlet) (a : Actor) : Actor :=
  mkActor (_class a) (_actor_id a) (_context a) (_queue a) (_initialize_event a)
    (_initialize_exception a) (_shutdown_event a) m (attrs a)
    (_task a) (_stop_event a) (_done_event a) (_ready_event a).
Definition with_attrs (m : gmap string value) (a : Actor) : Actor :=
  mkActor (_class a) (_actor_id a) (_context a) (_queue a) (_initialize_event a)
    (_initialize_exception a) (_shutdown_event a) (_actlets a) m
    (_task a) (_stop_event a) (_done_event a) (_ready_event a).
Definition with_task (t : task) (a : Actor) : Actor :=
  mkActor (_class a) (_actor_id a) (_context a) (_queue a) (_initialize_event a)
    (_initialize_exception a) (_shutdown_event a) (_actlets a) (attrs a)
    t (_stop_event a) (_done_event a) (_ready_event a).
Definition with_stop_event (e : Event) (a : Actor) : Actor :=
  mkActor (_class a) (_actor_id a) (_context a) (_queue a) (_initialize_event a)
    (_initialize_exception a) (_shutdown_event a) (_actlets a) (attrs a)
    (_task a) e (_done_event a) (_ready_event a).
Definition with_done_event (e : Event) (a : Actor) : Actor :=
  mkActor (_class a) (_actor_id a) (_context a) (_queue a) (_initialize_event a)
    (_initialize_exception a) (_shutdown_event a) (_actlets a) (attrs a)
    (_task a) (_stop_event a) e (_ready_event a).
Definition with_ready_event (e : Event) (a : Actor) : Actor :=
  mkActor (_class a) (_actor_id a) (_context a) (_queue a) (_initialize_event a)
    (_initialize_exception a) (_shutdown_event a) (_actlets a) (attrs a)
    (_task a) (_stop_event a) (_done_event a) e.

(** *** State and exceptions

    A method is a function of the store that leaves a store behind
    whether it returns or raises. *)
Definition M (A : Type) : Type := World -> World * pyresult A.

Definition ret {A} (a : A) : M A := fun w => (w, Return a).
Definition raise {A} (e : exc) : M A := fun w => (w, Raise e).
Definition mbind {A B} (c : M A) (k : A -> M B) : M B :=
  fun w => match c w with
           | (w', Return a) => k a w'
           | (w', Raise e) => (w', Raise e)
           end.
Definition update (f : World -> World) : M unit := fun w => (f w, Return tt).
Definition read {A} (f : World -> A) : M A := fun w => (w, Return (f w)).

(** [try: c except BaseException as e: ...]: hands the outcome of [c]
    to what follows. *)
Definition attempt {A} (c : M A) : M (pyresult A) :=
  fun w => let '(w', r) := c w in (w', Return r).

Notation "'let!' x ':=' c 'in' k" := (mbind c (fun x => k))
  (at level 10, x name, c at level 100, k at level 200, only parsing).
Notation "c ;;; k" := (mbind c (fun _ => k))
  (at level 100, k at level 200, only parsing).

(** A call that touches no object of the store. *)
Definition lift {A} (r : pyresult A) : M A := fun w => (w, r).

(** [context.<level>(...)] *)
Definition log_call (context : Context) (level : string) : M unit :=
  lift (logger_call context level).

(** A reference that points nowhere cannot be built in Python; the
    model answers it with an exception and leaves the store alone. *)
Definition dangling {A} : M A := raise (mkExc RuntimeError "no such object").

Definition the_actor (self : nat) : M Actor :=
  fun w => match actors w !! self with
           | Some a => (w, Return a)
           | None => dangling w
           end.

Definition the_core (self : CoreRef) : M Core :=
  fun w => let 'core_at n := self in
           match cores w !! n with
           | Some c => (w, Return c)
           | None => dangling w
           end.

Definition update_actor (self : nat) (f : Actor -> Actor) : M unit :=
  update (fun w => with_actors (alter f self (actors w)) w).

Definition update_core (self : CoreRef) (f : Core -> Core) : M unit :=
  let 'core_at n := self in
  update (fun w => with_cores (alter f n (cores w)) w).

(** [str(uuid.uuid4())]: a string no earlier call returned. *)
Definition uuid4 : M string :=
  fun w => (with_uuids (S (uuids w)) w, Return (pretty (uuids w))).

(** [asyncio.get_event_loop().create_future()] *)
Definition create_future : M nat :=
  fun w => (with_futures (futures w ++ [Future_new]) w, Return (length (futures w))).

Definition resolve (fut : nat) (r : pyresult value) : M unit :=
  fun w => match futures w !! fut with
           | Some f =>
               let '(f', res) := Future_resolve f r in
               (with_futures (<[fut := f']> (futures w)) w, res)
           | None => dangling w
           end.

(** [copy.deepcopy(envelope)]: the strings are atoms, the message is
    copied with a memo of its own. *)
Definition deepcopy_envelope (envelope : Envelope.t) : M Envelope.t :=
  fun w =>
    match deepcopy (recursion_limit w) (to_value (Envelope.message envelope))
            (∅, heap_of w) with
    | Return (VMsg cls args, (_, h)) =>
        (with_heap h w,
         Return (Envelope.mk (Envelope.id envelope) (Envelope.sender envelope)
                   (Envelope.receiver envelope) (mkMessage cls args)
                   (Envelope.reply_to envelope)))
    | Return (_, _) => (w, Raise (mkExc TypeError "not a message"))
    | Raise e => (w, Raise e)
    end.

(** *** libactors/actor/actor.py: the instance side *)

(** [Actor.__init__(self, context, actor_id)] for an instance of [cls]. *)
Definition Actor_init (cls : PyClass) (context : Context) (actor_id : string) : Actor :=
  mkActor cls actor_id context [] Event_new None Event_new ∅ ∅
    NoTask Event_new Event_new Event_new.

(** [self._router]: the router of the instance's class. *)
Definition _router (a : Actor) : Router.t :=
  match class_router (_class a) with
  | Some r => r
  | None => Router.new
  end.

Definition self_view (a : Actor) : Self :=
  mkSelf (_actor_id a) (attrs a) (dom (_actlets a)).

(** [Actor.post] *)
Definition post (self : nat) (envelope : Envelope.t) : M EnvelopeTracker :=
  let! _ := the_actor self in
  let! envelope := deepcopy_envelope envelope in
  let! fut := create_future in
  let tracker := mkTracker envelope fut in
  update_actor self (fun a => with_queue (_queue a ++ [(envelope, tracker)]) a) ;;;
  ret tracker.

(** [Actor.tell_me] *)
Definition tell_me (self : nat) (message : Message) : M EnvelopeTracker :=
  let! a := the_actor self in
  let! uid := uuid4 in
  let envelope :=
    Envelope.mk uid (identity (_context a)) (identity (_context a)) message None in
  post self envelope.

(** [Service.stop]: no stop callback is ever registered by the runtime. *)
Definition Service_stop (self : nat) : M unit :=
  update_actor self (fun a => with_stop_event (Event_set (_stop_event a)) a).


Definition is_shutdown (a : Actor) : bool := is_set (_shutdown_event a).

(** One statement of user code run on behalf of actor [self]. *)
Definition exec_stmt (self : nat) (s : stmt) : M unit :=
  match s with
  | SetAttr name v =>
      update_actor self (fun a => with_attrs (<[name := v]> (attrs a)) a)
  | TellMe m => tell_me self m ;;; ret tt
  | Log context level => log_call context level
  | Stop => Service_stop self
  | CancelActlets =>
      update_actor self
        (fun a => with_actlets ((fun _ => mkActlet true) <$> _actlets a) a)
  | DelActlet name =>
      let! a := the_actor self in
      match _actlets a !! name with
      | Some _ => update_actor self (fun a => with_actlets (delete name (_actlets a)) a)
      | None => raise (mkExc KeyError name)
      end
  | ThrowExc e => raise e
  end.

Fixpoint exec (self : nat) (body : list stmt) : M unit :=
  match body with
  | [] => ret tt
  | s :: rest => exec_stmt self s ;;; exec self rest
  end.

Definition call (self : nat) (p : program) : M value :=
  exec self (fst p) ;;; ret (snd p).

(** *** libactors/core.py *)

(** [str(pathlib.Path(base) / actor_id)] *)
Definition _generate_actor_id (base actor_id : string) : string :=
  Pathlib.str (Pathlib.truediv (Pathlib.Path base) actor_id).

Definition _assert_running (self : CoreRef) (msg : string) : M unit :=
  let! c := the_core self in
  if negb (_running c) then raise (mkExc RuntimeError msg) else ret tt.

(** [self.context.<level>(...)]: the core needs its context to be
    installed, and that context a logger. *)
Definition core_log (self : CoreRef) (level : string) : M unit :=
  let! c := the_core self in
  match core_context c with
  | Some context => log_call context level
  | None =>
      raise (mkExc AttributeError
               ("'NoneType' object has no attribute '" +:+ level +:+ "'"))
  end.

(** [ActorProxy]: the actor it wraps, its id and its cache. *)
Record ActorProxy := mkProxy {
  proxy_actor : nat;
  proxy_actor_id : string;
  _cache : gmap string value;
}.

(** [Service.start] *)
Definition Service_start (self : nat) : M unit :=
  let! a := the_actor self in
  match _task a with
  | NoTask => update_actor self (with_task Scheduled)
  | _ => raise (mkExc (UserError "ServiceException") "already started")
  end.

Definition new_actor (a : Actor) : M nat :=
  fun w => (with_actors (actors w ++ [a]) w, Return (length (actors w))).

(** What [log_bindings] holds under the key ['log']: a logger, or an
    object of another type, which has no [bind]; of the latter its
    truth value and the name of its type. *)
Inductive LogArg :=
| a_logger (l : Logger)
| not_a_logger (truth : bool) (type_name : string).

(** The [log_bindings] of [create_actor], which become keyword
    arguments of [Context.__call__] next to [identity]: what the
    dictionary holds under the four keys the call reads ([None] for a
    key that is missing or bound to [None]; of the value under
    ['identity'] only its presence matters), and its other entries. *)
Record LogBindings := mkLogBindings {
  lb_core : option CoreRef;
  lb_log : option LogArg;
  lb_identity : bool;                       (* ['identity' in log_bindings] *)
  lb_envelope : option Envelope.t;
  lb_rest : gmap string value;
}.

(** [{}], the default. *)
#[export] Instance LogBindings_empty : Empty LogBindings :=
  mkLogBindings None None false None ∅.

(** [callee_context(identity=actor_id, **log_bindings)]: a second
    [identity] makes the call itself fail; a true object under ['log']
    is taken by [kwargs.get('log') or self._log] and [Context.__init__]
    calls its [bind]. *)
Definition derive_context (callee_context : Context) (actor_id : string)
    (log_bindings : LogBindings) : pyresult Context :=
  if lb_identity log_bindings then
    Raise (mkExc TypeError "got multiple values for keyword argument 'identity'")
  else
    match lb_log log_bindings with
    | Some (not_a_logger true type_name) =>
        Raise (mkExc AttributeError
                 ("'" +:+ type_name +:+ "' object has no attribute 'bind'"))
    | Some (not_a_logger false _) | None =>
        Return (__call__ callee_context
                  (mkKwargs (lb_core log_bindings) None (Some actor_id)
                     (lb_envelope log_bindings) (lb_rest log_bindings)))
    | Some (a_logger l) =>
        Return (__call__ callee_context
                  (mkKwargs (lb_core log_bindings) (Some l) (Some actor_id)
                     (lb_envelope log_bindings) (lb_rest log_bindings)))
    end.

(** [Core.create_actor]; the lock is never contended, since no
    holder suspends while holding it. *)
Definition create_actor (self : CoreRef) (callee_context : Context) (actor_id : string)
    (actor_cls : PyClass) (log_bindings : LogBindings) : M ActorProxy :=
  _assert_running self "Core is not running" ;;;
  let actor_id := _generate_actor_id (identity callee_context) actor_id in
  core_log self "info" ;;;
  _assert_running self "core is no longer running" ;;;
  let! c := the_core self in
  match _actors c !! actor_id with
  | Some _ => raise (mkExc RuntimeError ("actor " +:+ actor_id +:+ " already exists"))
  | None =>
      let! context := lift (derive_context callee_context actor_id log_bindings) in
      let! actor := new_actor (Actor_init actor_cls context actor_id) in
      update_core self
        (fun c => mkCore (<[actor_id := actor]> (_actors c)) (_running c) (core_context c)) ;;;
      Service_start actor ;;;
      ret (mkProxy actor actor_id ∅)
  end.

(** [Core.remove_actor] *)
Definition remove_actor (self : CoreRef) (actor_id : string) : M unit :=
  _assert_running self "Core is not running" ;;;
  let! c := the_core self in
  match _actors c !! actor_id with
  | None => core_log self "warning"       (* then [return] *)
  | Some actor =>
      let! a := the_actor actor in
      if negb (is_shutdown a) then
        raise (mkExc ValueError "Actor {actor_id} is not shut down")
      else
        update_core self
          (fun c => mkCore (delete actor_id (_actors c)) (_running c) (core_context c))
  end.

(** [Core.get_proxy] *)
Definition get_proxy (self : CoreRef) (callee_context : Context) (actor_id : string)
    : M ActorProxy :=
  let actor_id := _generate_actor_id (identity callee_context) actor_id in
  let! c := the_core self in
  match _actors c !! actor_id with
  | None => raise (mkExc RuntimeError ("actor: `" +:+ actor_id +:+ "` doesnt exist"))
  | Some actor => ret (mkProxy actor actor_id ∅)
  end.

(** *** libactors/actor/proxy.py *)

(** [ActorProxy.tell] *)
Definition tell (self : ActorProxy) (context : Context) (message : Message)
    (reply_to : option string) : M EnvelopeTracker :=
  let! uid := uuid4 in
  let envelope :=
    Envelope.mk uid (identity context) (proxy_actor_id self) message reply_to in
  post (proxy_actor self) envelope.




(** [ActorProxy.ask] up to [await tracker]. *)
Definition ask (self : ActorProxy) (context : Context) (message : Message)
    : M EnvelopeTracker :=
  log_call context "debug" ;;;
  let! tracker := tell self context message None in
  log_call context "debug" ;;;
  ret tracker.

(** [Core.shutdown] up to the final [gather], where it suspends. *)
Fixpoint tell_all (context : Context) (proxies : list ActorProxy) : M unit :=
  match proxies with
  | [] => ret tt
  | proxy :: rest =>
      tell proxy context ShutdownMessage None ;;; tell_all context rest
  end.

Fixpoint get_proxies (self : CoreRef) (context : Context) (ids : list string)
    : M (list ActorProxy) :=
  match ids with
  | [] => ret []
  | actor_id :: rest =>
      let! p := get_proxy self context actor_id in
      let! ps := get_proxies self context rest in
      ret (p :: ps)
  end.

Definition shutdown (self : CoreRef) : M unit :=
  core_log self "info" ;;;
  update_core self (fun c => mkCore (_actors c) false (core_context c)) ;;;
  let! c := the_core self in
  match core_context c with
  | None => raise (mkExc AttributeError "'NoneType' object has no attribute 'identity'")
  | Some context =>
      let! proxies := get_proxies self context (map fst (map_to_list (_actors c))) in
      tell_all context proxies
  end.

(** *** Actor.serve *)

(** The worker ends: [Service._service_worker]'s [finally] and
    [_on_worker_done] set the three service events. *)
Definition worker_done (self : nat) (r : pyresult unit) : M unit :=
  update_actor self
    (fun a =>
       with_task (Done r)
         (with_stop_event (Event_set (_stop_event a))
            (with_ready_event (Event_set (_ready_event a))
               (with_done_event (Event_set (_done_event a)) a)))).

(** The [finally] of [serve]; [pending] is how the [try] block ended.
    An exception raised here replaces it.  The outcome is what the
    worker's task ends with. *)
Definition serve_finally (self : nat) (pending : pyresult unit) : M unit :=
  update_actor self (fun a => with_shutdown_event (Event_set (_shutdown_event a)) a) ;;;
  let! r :=
    attempt
      (let! a := the_actor self in
       match _core (_context a) with
       | Some core => remove_actor core (_actor_id a)
       | None =>
           raise (mkExc AttributeError "'NoneType' object has no attribute 'remove_actor'")
       end) in
  worker_done self (match r with Raise e => Raise e | Return _ => pending end).

(** The statements that follow [await self.initialize(self.context)],
    in program order, up to the [raise]. *)
Inductive init_stmt :=
| InitLog (level : string)           (* [self.context.<level>(...)] *)
| InitEventSet                       (* [self._initialize_event.set()] *)
| InitExceptionStore (e : exc).      (* [self._initialize_exception = e] *)

Definition after_initialize (r : pyresult value) : list init_stmt :=
  match r with
  | Return _ => [InitEventSet]
  | Raise e =>
      if is_Exception (exc_class e)
      then [InitLog "exception"; InitEventSet; InitExceptionStore e]
      else []
  end.

Definition do_init_stmt (self : nat) (s : init_stmt) : M unit :=
  match s with
  | InitLog level =>
      let! a := the_actor self in
      log_call (_context a) level
  | InitEventSet =>
      update_actor self
        (fun a => with_initialize_event (Event_set (_initialize_event a)) a)
  | InitExceptionStore e =>
      update_actor self (with_initialize_exception (Some e))
  end.

(** They run in order; one that raises ends the run. *)
Fixpoint do_init (self : nat) (l : list init_stmt) : M unit :=
  match l with
  | [] => ret tt
  | s :: rest => do_init_stmt self s ;;; do_init self rest
  end.

(** The top of the loop: [self.context.debug('waiting for work')],
    then the task suspends in [wait_first]; an exception ends the
    worker through the [finally]. *)
Definition wait_for_work (self : nat) : M unit :=
  let! a := the_actor self in
  let! l := attempt (log_call (_context a) "debug") in
  match l with
  | Return _ => update_actor self (with_task Serving)
  | Raise e => serve_finally self (Raise e)
  end.

(** The worker's first run: [setup], [_mark_ready], then [serve] up
    to its first suspension in [wait_first], or to its end.  What is
    raised inside the [except] block takes the place of the exception
    of [initialize]. *)
Definition serve_start (self : nat) : M unit :=
  let! a := the_actor self in
  update_actor self (fun a => with_ready_event (Event_set (_ready_event a)) a) ;;;
  let! h := read heap_of in
  let! r := attempt (call self (class_initialize (_class a) (self_view a) h (_context a))) in
  let! r' := attempt (do_init self (after_initialize r)) in
  match r' with
  | Raise e' => serve_finally self (Raise e')
  | Return _ =>
      match r with
      | Return _ => wait_for_work self
      | Raise e => serve_finally self (Raise e)
      end
  end.

(** The body of the loop for one envelope: look the handler up, call
    it and resolve the tracker.  It raises what leaves the loop. *)
Definition dispatch (self : nat) (a : Actor) (envelope : Envelope.t)
    (tracker : EnvelopeTracker) : M unit :=
  log_call (_context a) "debug" ;;;
  match Router.match_ (_router a) (Envelope.message envelope) with
  | None =>
      log_call (_context a) "warning" ;;;
      resolve (_fut tracker) (Return UNHANDLED)
  | Some handler =>
      let context := __call__ (_context a) (mkKwargs None None None (Some envelope) ∅) in
      let! h := read heap_of in
      let! r :=
        attempt
          (log_call (_context a) "debug" ;;;
           let! result :=
             call self (Router.h_body handler (self_view a) h context
                          (Envelope.message envelope)) in
           resolve (_fut tracker) (Return result)) in
      match r with
      | Return _ => ret tt
      | Raise e =>
          if is_Exception (exc_class e)
          then
            log_call (_context a) "exception" ;;;
            resolve (_fut tracker) (Raise e)
          else raise e
      end
  end.

(** The loop is left because the service was stopped:
    [self.context.info('service was stopped')], [break], [finally]. *)
Definition stop_exit (self : nat) (a : Actor) : M unit :=
  let! l := attempt (log_call (_context a) "info") in
  serve_finally self l.

(** One wake-up of the loop.  Before the task suspended, [wait_first]
    armed a waiter on the stop event and a waiter on the queue, a task
    that runs [queue.get()]: it has taken the head of the mailbox when
    there was one.  The loop tests the waiter on the stop event first;
    when that one is done too the loop is left and the envelope the
    other waiter took is dropped with it.  [late_stop] says that the
    waiter on the stop event has not completed yet although the event
    is set, so that the envelope is still dispatched.  (An envelope put
    after the waiters ran stays in the queue; that is this step
    followed by the post.) *)
Definition serve_step (self : nat) (late_stop : bool) : M unit :=
  let! a := the_actor self in
  match _queue a with
  | [] =>
      if is_set (_stop_event a) then stop_exit self a else ret tt
  | (envelope, tracker) :: rest =>
      update_actor self (with_queue rest) ;;;
      if is_set (_stop_event a) && negb late_stop
      then stop_exit self a
      else
        let! r := attempt (dispatch self a envelope tracker) in
        match r with
        | Return _ => wait_for_work self
        | Raise e => serve_finally self (Raise e)
        end
  end.

(** The actor's task is given the processor. *)
Definition run_task (self : nat) (late_stop : bool) : M unit :=
  let! a := the_actor self in
  match _task a with
  | Scheduled => serve_start self
  | Serving => serve_step self late_stop
  | NoTask | Done _ => ret tt
  end.

(** *** Schedules

    What can happen to the store, one atomic piece at a time: calls
    of the public interface from outside, the cancellation of a
    tracker's future (by [cancel()], or because a task that awaits the
    tracker is cancelled), and runs of an actor's task between two
    suspension points. *)
Inductive event :=
| EvCreateActor (core : CoreRef) (callee : Context) (actor_id : string)
    (cls : PyClass) (log_bindings : LogBindings)
| EvPost (actor : nat) (envelope : Envelope.t)
| EvTellMe (actor : nat) (m : Message)
| EvTell (proxy : ActorProxy) (context : Context) (m : Message) (reply_to : option string)
| EvStop (actor : nat)
| EvCancel (fut : nat)
| EvRun (actor : nat) (late_stop : bool)
| EvRemoveActor (core : CoreRef) (actor_id : string)
| EvShutdown (core : CoreRef)
| EvStore (l : loc) (items : list value).

Definition step (w : World) (e : event) : World :=
  match e with
  | EvCreateActor core callee actor_id cls log_bindings =>
      fst (create_actor core callee actor_id cls log_bindings w)
  | EvPost actor envelope => fst (post actor envelope w)
  | EvTellMe actor m => fst (tell_me actor m w)
  | EvTell proxy context m reply_to => fst (tell proxy context m reply_to w)
  | EvStop actor => fst (Service_stop actor w)
  | EvCancel fut => with_futures (alter Future_cancel fut (futures w)) w
  | EvRun actor late_stop => fst (run_task actor late_stop w)
  | EvRemoveActor core actor_id => fst (remove_actor core actor_id w)
  | EvShutdown core => fst (shutdown core w)
  | EvStore l items => with_heap (<[l := items]> (heap_of w)) w
  end.

Definition run (w : World) (schedule : list event) : World := foldl step w schedule.

(** A fresh system: one core with its root context installed, as
    the test fixtures build it. *)
Definition root_context : Context :=
  __init__ "Context" (Some (core_at 0)) (Some (mkLogger ∅)) "/" None ∅.

Definition boot (limit : nat) : World :=
  mkWorld [] [] [] [mkCore ∅ true (Some root_context)] 0 limit.

End Runtime.

(** ** Actlets and the generic timer *)

Module Timer.
Import Py Messages.

(** [TimerConfiguration].  The two durations are only tested for
    truth and handed to [asyncio.sleep]. *)
Record TimerConfiguration := mkTimerConfiguration {
  message : Message;
  interval : Q;
  delay : Q;
  now : bool;
  repetitions : Z;
}.

(** The local variable [repetitions]: an [int], or [float('inf')]. *)
Inductive count :=
| Finite (n : Z)
| Infinity.

(** [repetitions -= 1] *)
Definition decrement (c : count) : count :=
  match c with
  | Finite n => Finite (n - 1)
  | Infinity => Infinity
  end.

(** [repetitions > 0] *)
Definition positive (c : count) : bool :=
  match c with
  | Finite n => (0 <? n)%Z
  | Infinity => true
  end.

(** What the coroutine awaits. *)
Inductive action :=
| Sleep (seconds : Q)        (* [asyncio.sleep(seconds)] *)
| Tell (m : Message).        (* [proxy.tell(context=context, message=m)] *)

(** The [await] at which the coroutine stands. *)
Inductive point :=
| AtDelay                    (* the sleep of [configuration.delay] *)
| AtNow (r : count)          (* the tell of the [now] branch *)
| AtSleep (r : count)        (* the sleep in the loop *)
| AtTell (r : count).        (* the tell in the loop *)

Inductive status :=
| Suspended (p : point) (a : action)
| Finished (r : pyresult Message).

(** The loop test and what follows it. *)
Definition loop (cfg : TimerConfiguration) (r : count) : status :=
  if positive r then Suspended (AtSleep r) (Sleep (interval cfg))
  else Finished (Return TimerDoneMessage).

Definition after_delay (cfg : TimerConfiguration) : status :=
  let r := if (repetitions cfg =? 0)%Z then Infinity else Finite (repetitions cfg) in
  if now cfg then Suspended (AtNow r) (Tell (message cfg))
  else loop cfg r.

(** The call of [_generic_timer], run to its first [await]. *)
Definition start (cfg : TimerConfiguration) : status :=
  if negb (Qeq_bool (delay cfg) 0) then Suspended AtDelay (Sleep (delay cfg))
  else after_delay cfg.

(** The coroutine is resumed with the outcome of what it awaited:
    [CancelledError] is re-raised, any other [Exception] is logged
    and the function falls through to its [return]. *)
Definition resume (cfg : TimerConfiguration) (p : point) (x : pyresult unit) : status :=
  match x with
  | Raise e =>
      if decide (exc_class e = CancelledError) then Finished (Raise e)
      else if is_Exception (exc_class e) then Finished (Return TimerDoneMessage)
      else Finished (Raise e)
  | Return _ =>
      match p with
      | AtDelay => after_delay cfg
      | AtNow r => loop cfg (decrement r)
      | AtSleep r => Suspended (AtTell r) (Tell (message cfg))
      | AtTell r => loop cfg (decrement r)
      end
  end.

(** Runs the coroutine against the outcomes of its successive
    awaits; returns the actions it issued and where it stands when
    the outcomes are used up. *)
Fixpoint run_from (cfg : TimerConfiguration) (s : status) (outcomes : list (pyresult unit))
    {struct outcomes} : list action * status :=
  match s with
  | Finished _ => ([], s)
  | Suspended p a =>
      match outcomes with
      | [] => ([a], s)
      | x :: rest =>
          let '(issued, s') := run_from cfg (resume cfg p x) rest in
          (a :: issued, s')
      end
  end.

(** [Actor._generic_timer(context, proxy, configuration)] *)
Definition _generic_timer (cfg : TimerConfiguration) (outcomes : list (pyresult unit))
    : list action * status :=
  run_from cfg (start cfg) outcomes.


(** [Actlet._run]: what is told to the owner when the entry point
    ends; nothing when it raised. *)
Definition Actlet_run (r : pyresult Message) : option Message :=
  match r with
  | Return result => Some (ActletDoneMessage (to_value result))
  | Raise _ => None
  end.

End Timer.
(** ** Actlets: libactors/actor/actlet.py and their side of actor.py *)

Module Actlets.
Import Py PyStr Messages Context Behaviour ActorClass Asyncio Runtime.

(** A function object as [create_actlet] and [Actlet.__init__]
    inspect it. *)
Record EntryPoint := mkEntryPoint {
  ep_name : string;               (* [__name__] *)
  ep_bound : bool;                (* [hasattr(function, '__self__')] *)
  ep_parameters : list string;    (* [inspect.signature(f)._parameters.keys()] *)
  ep_coroutine : bool;            (* [asyncio.iscoroutinefunction(f)] *)
}.

Definition ENTRY_POINT_SIGNATURE : list string := ["context"; "proxy"; "configuration"].

(** An [Actlet] object; its task is created with it. *)
Record ActletObject := mkActletObject {
  actlet_name : string;
  actlet_context : Context;
  actlet_entry_point : EntryPoint;
  actlet_proxy : ActorProxy;
  actlet_configuration : Message;
}.

(** [Actlet.__init__]; the texts of the two errors are shortened. *)
Definition Actlet_init (context : Context) (entry_point : EntryPoint) (proxy : ActorProxy)
    (configuration : Message) (name : option string) : pyresult ActletObject :=
  if negb (Router.keys_eq (ep_parameters entry_point) ENTRY_POINT_SIGNATURE) then
    Raise (mkExc RuntimeError
             "signature for entry_point must be: (context, proxy, configuration)")
  else if negb (ep_coroutine entry_point) then
    Raise (mkExc RuntimeError "entry_point must be a coroutine function")
  else
    Return (mkActletObject (default (ep_name entry_point) name) context entry_point
              proxy configuration).

(** [Actlet._run], from the point where the entry point has ended
    with [outcome]: an [Exception] is logged and swallowed, a result
    is sent back to the owner as an [ActletDoneMessage]. *)
Definition Actlet_run (actlet : ActletObject) (outcome : pyresult value) : M unit :=
  match outcome with
  | Raise e =>
      if is_Exception (exc_class e) then
        match _log (actlet_context actlet) with
        | Some _ => ret tt
        | None =>
            raise (mkExc AttributeError "'NoneType' object has no attribute 'exception'")
        end
      else raise e
  | Return result =>
      tell (actlet_proxy actlet) (actlet_context actlet) (ActletDoneMessage result) None ;;;
      ret tt
  end.

(** [Actor._generate_actlet_name], [Actor._generate_timer_name] *)
Definition _generate_actlet_name (a : Actor) (name : string) : string :=
  identity (_context a) +:+ "/actlet/" +:+ name.

Definition _generate_timer_name (name : string) : string := "timer/" +:+ name.

(** [Actor.is_actlet_exists], [Actor.is_timer_exists] *)
Definition is_actlet_exists (a : Actor) (name : string) : bool :=
  bool_decide (is_Some (_actlets a !! _generate_actlet_name a name)).

Definition is_timer_exists (a : Actor) (name : string) : bool :=
  is_actlet_exists a (_generate_timer_name name).

(** [Context.get_proxy] *)
Definition Context_get_proxy (self : Context) (actor_id : string) : M ActorProxy :=
  match _core self with
  | Some core => get_proxy core self actor_id
  | None => raise (mkExc AttributeError "'NoneType' object has no attribute 'get_proxy'")
  end.

(** [copy.deepcopy(configuration)] *)
Definition deepcopy_message (m : Message) : M Message :=
  fun w =>
    match deepcopy (recursion_limit w) (to_value m) (∅, heap_of w) with
    | Return (VMsg cls args, (_, h)) => (with_heap h w, Return (mkMessage cls args))
    | Return (_, _) => (w, Raise (mkExc TypeError "not a message"))
    | Raise e => (w, Raise e)
    end.

(** [Actor.create_actlet]: the arguments of [Actlet(...)] are
    evaluated in the order they are written, then [__init__] runs.
    The text of the second error leaves out the function's [repr]. *)
Definition create_actlet (self : nat) (context : Context) (name : string)
    (function : EntryPoint) (configuration : Message) : M ActletObject :=
  let! a := the_actor self in
  if is_actlet_exists a name then
    raise (mkExc RuntimeError ("actlet: " +:+ name +:+ " already exists"))
  else if ep_bound function then
    raise (mkExc RuntimeError "actlet function must not be bound")
  else
    let name := _generate_actlet_name a name in
    let actlet_context := __call__ context (mkKwargs None None (Some name) None ∅) in
    let! proxy := Context_get_proxy context (_actor_id a) in
    let! configuration := deepcopy_message configuration in
    match Actlet_init actlet_context function proxy configuration (Some name) with
    | Raise e => raise e
    | Return actlet =>
        update_actor self
          (fun a => with_actlets (<[name := mkActlet false]> (_actlets a)) a) ;;;
        ret actlet
    end.

(** [Actor.cancel_actlet]: [await self._actlets[actlet_name].cancel()],
    then [del self._actlets[actlet_name]]. *)
Definition cancel_actlet (self : nat) (context : Context) (name : string) : M unit :=
  let! a := the_actor self in
  let actlet_name := _generate_actlet_name a name in
  match _actlets a !! actlet_name with
  | None => raise (mkExc KeyError actlet_name)
  | Some _ =>
      update_actor self
        (fun a => with_actlets (<[actlet_name := mkActlet true]> (_actlets a)) a) ;;;
      update_actor self (fun a => with_actlets (delete actlet_name (_actlets a)) a)
  end.

(** [Actor._generic_timer] as a function object: a static method
    reached through the class, hence not bound. *)
Definition _generic_timer_function : EntryPoint :=
  mkEntryPoint "_generic_timer" false ["context"; "proxy"; "configuration"] true.

(** [TimerConfiguration(message=.., interval=.., delay=.., now=..,
    repetitions=..)] *)
Definition TimerConfiguration_message (message : Message)
    (interval delay now repetitions : value) : Message :=
  mkMessage TimerConfiguration_cls [to_value message; interval; delay; now; repetitions].

(** [Actor.create_timer], [Actor.cancel_timer] *)
Definition create_timer (self : nat) (context : Context) (name : string) (message : Message)
    (interval delay now repetitions : value) : M ActletObject :=
  create_actlet self context (_generate_timer_name name) _generic_timer_function
    (TimerConfiguration_message message interval delay now repetitions).

Definition cancel_timer (self : nat) (context : Context) (name : string) : M unit :=
  cancel_actlet self context (_generate_timer_name name).

End Actlets.

(** ** Messages sent as method calls: [ActorProxy.__getattr__] *)

Module ProxyAuto.
Import Py PyStr Messages Context Behaviour ActorClass Asyncio Runtime.

Definition underscore : ascii := "_"%char.

(** [s.split('_')]: never returns the empty list. *)
Fixpoint split_underscore (s : string) : list string :=
  match s with
  | EmptyString => [EmptyString]
  | String c s' =>
      if Ascii.eqb c underscore then EmptyString :: split_underscore s'
      else match split_underscore s' with
           | [] => [String c EmptyString]
           | x :: xs => String c x :: xs
           end
  end.

(** [c.upper()] and [c.lower()] of a character: the ASCII letters
    change case, every other character of an ASCII string is left as
    it is. *)
Definition upper (c : ascii) : ascii :=
  let n := nat_of_ascii c in
  if Nat.leb 97 n && Nat.leb n 122 then ascii_of_nat (n - 32) else c.

Definition lower (c : ascii) : ascii :=
  let n := nat_of_ascii c in
  if Nat.leb 65 n && Nat.leb n 90 then ascii_of_nat (n + 32) else c.

(** [s.lower()] *)
Fixpoint lower_all (s : string) : string :=
  match s with
  | EmptyString => EmptyString
  | String c s' => String (lower c) (lower_all s')
  end.

(** [s.capitalize()]: the first character in upper case, the rest in
    lower case. *)
Definition capitalize (s : string) : string :=
  match s with
  | EmptyString => EmptyString
  | String c s' => String (upper c) (lower_all s')
  end.

(** [''.join(parts)] *)
Definition join_empty (parts : list string) : string := foldr append EmptyString parts.

(** [''.join(s.capitalize() for s in func.split('_'))] *)
Definition message_name (func : string) : string :=
  join_empty (map capitalize (split_underscore func)).

End ProxyAuto.


(** ** Vocabulary of the statements *)

Module Spec.
Import Py PyStr Pathlib Asyncio Runtime.

(** A path segment pathlib keeps as it is: not empty, not [.], no
    separator inside. *)
Definition is_segment (x : string) : bool :=
  keep_name x && negb (contains_sep x).

(** The composition rule as the specification words it: [B/rel],
    and [rel] alone when it begins with the separator. *)
Definition join_as_specified (B rel : string) : string :=
  match rel with
  | String c _ => if Ascii.eqb c sep then rel else B +:+ "/" +:+ rel
  | EmptyString => B +:+ "/" +:+ rel
  end.

(** The handler a class body declares for message type [T], if any. *)
Fixpoint declared_handler (T : MsgCls) (methods : list ActorClass.attr)
    : option Router.Handler :=
  match methods with
  | [] => None
  | ActorClass.AFunc f :: rest =>
      if decide (Router._handle f = Some T) then Some f else declared_handler T rest
  | ActorClass.AOther :: rest => declared_handler T rest
  end.

(** The handler the first base that registered [T] has for it. *)
Fixpoint inherited_handler (T : MsgCls) (bases : list ActorClass.PyClass)
    : option Router.Handler :=
  match bases with
  | [] => None
  | base :: rest =>
      match ActorClass.class_router base with
      | Some r =>
          match Dict.get T (Router._handlers r) with
          | Some h => Some h
          | None => inherited_handler T rest
          end
      | None => inherited_handler T rest
      end
  end.

(** Every class the router handles has its name recorded. *)
Definition names_cover (r : Router.t) : Prop :=
  forall cls, is_Some (Dict.get cls (Router._handlers r)) ->
              is_Some (Dict.get (cls_name cls) (Router._handled_messages_names r)).

(** The class of [test_register_handler_overrides_parent_handler]:
    a subclass of [Actor] with a handler of its own for
    [ShutdownMessage]. *)
Definition new_shutdown_handler : Router.Handler :=
  Router.mkHandler "Actor.new_shutdown_handler" ["self"; "context"; "message"] true
    (Some Messages.ShutdownMessage_cls)
    (fun _ _ _ _ => ([], VNone)).

Definition overriding_dct : Dict.t string ActorClass.attr :=
  [("new_shutdown_handler", ActorClass.AFunc new_shutdown_handler)].

Definition overriding_router : Router.t :=
  match ActorClass.ActorMetaclass_new "Actor" [ActorClass.Actor] overriding_dct with
  | Return r => r
  | Raise _ => Router.new
  end.

(** The classes of the test suite ([tests/conftest.py]). *)
Definition DummyMessage_cls : MsgCls := mkMsgCls 10 "DummyMessage" true.
Definition ErringMessage_cls : MsgCls := mkMsgCls 11 "ErringMessage" true.
Definition DataMessage_cls : MsgCls := mkMsgCls 12 "DataMessage" true.

Definition dummy_message_handler : Router.Handler :=
  Router.mkHandler "DummyActor.dummy_message_handler" ["self"; "context"; "message"] true
    (Some DummyMessage_cls)
    (fun _ _ _ _ => ([Behaviour.SetAttr "_message_called" (VBool true)], VNone)).

Definition erring_message_handler : Router.Handler :=
  Router.mkHandler "DummyActor.erring_message_handler" ["self"; "context"; "message"] true
    (Some ErringMessage_cls)
    (fun _ _ _ _ => ([Behaviour.ThrowExc (mkExc RuntimeError "exception")], VNone)).

Definition data_message_handler : Router.Handler :=
  Router.mkHandler "EchoActor.data_message_handler" ["self"; "context"; "message"] true
    (Some DataMessage_cls)
    (fun _ _ _ message => ([], default VNone (head (msg_args message)))).

Definition class_of (name : string) (dct : Dict.t string ActorClass.attr)
    (initialize : Behaviour.InitBody) : ActorClass.PyClass :=
  match ActorClass.define name [ActorClass.Actor] dct initialize with
  | Return cls => cls
  | Raise _ => ActorClass.Actor
  end.

Definition DummyActor : ActorClass.PyClass :=
  class_of "DummyActor"
    [("dummy_message_handler", ActorClass.AFunc dummy_message_handler);
     ("erring_message_handler", ActorClass.AFunc erring_message_handler)]
    Behaviour.default_initialize.


Definition EchoActor : ActorClass.PyClass :=
  class_of "EchoActor" [("data_message_handler", ActorClass.AFunc data_message_handler)]
    Behaviour.default_initialize.





(** A handler that does read the store: it answers with the number
    of items of the list the message carries. *)
Definition items_of (h : list (list value)) (v : value) : list value :=
  match v with
  | VRef l => default [] (h !! l)
  | _ => []
  end.

Definition count_handler : Router.Handler :=
  Router.mkHandler "CountActor.count_handler" ["self"; "context"; "message"] true
    (Some DataMessage_cls)
    (fun _ h _ message =>
       ([], VInt (Z.of_nat (length (items_of h (default VNone (head (msg_args message)))))))).

Definition CountActor : ActorClass.PyClass :=
  class_of "CountActor" [("count_handler", ActorClass.AFunc count_handler)]
    Behaviour.default_initialize.

(** The world of the counterexamples to the guards of the registry:
    an actor is created, then the core is shut down before the
    actor's worker has run. *)
Definition stopped_core : World :=
  run (boot 100)
    [EvCreateActor (Context.core_at 0) root_context "dummy" DummyActor ∅;
     EvShutdown (Context.core_at 0)].


(** The initial sleep, when a delay is configured. *)
Definition delayed (cfg : Timer.TimerConfiguration) : list Timer.action :=
  if negb (Qeq_bool (Timer.delay cfg) 0) then [Timer.Sleep (Timer.delay cfg)] else [].


(** Every await completes normally: no cancellation, no error. *)
Definition undisturbed (n : nat) : list (pyresult unit) := replicate n (Return tt).


(** *** Copies *)

(** Every reference inside [v] points into the region [lo, hi). *)
Inductive within (lo hi : loc) : value -> Prop :=
| within_ref l : lo <= l < hi -> within lo hi (VRef l)
| within_msg cls args : Forall (within lo hi) args -> within lo hi (VMsg cls args)
| within_none : within lo hi VNone
| within_bool b : within lo hi (VBool b)
| within_int z : within lo hi (VInt z)
| within_str s : within lo hi (VStr s)
| within_sentinel s : within lo hi (VSentinel s).

(** A copy in progress over the store [h0]: the old objects are
    untouched, the new ones and the memo refer to new objects only. *)
Definition copying (h0 : heap) (st : copy_state) : Prop :=
  exists ext,
    st.2 = h0 ++ ext
    /\ Forall (Forall (within (length h0) (length st.2))) ext
    /\ (forall l y, st.1 !! l = Some y -> length h0 <= y < length st.2).

(** Two stores hold the same objects in the region [lo, hi). *)
Definition same_region (lo hi : loc) (h h' : heap) : Prop :=
  forall l, lo <= l < hi -> h' !! l = h !! l.

(** A handler that reads the store only through the message it is
    given. *)
Definition reads_only_message (body : Behaviour.Body) : Prop :=
  forall self context message h h',
    (forall n, observe n h (to_value message) = observe n h' (to_value message)) ->
    body self h context message = body self h' context message.

(** What the sender of a message may do once [tell] has returned:
    anything, as long as its stores go to objects other than those of
    the copy, which sit in the region [lo, hi) and of which it holds
    no reference. *)
Definition spares (lo hi : loc) (e : event) : Prop :=
  match e with
  | EvStore l _ => ~ (lo <= l < hi)
  | _ => True
  end.

(** *** Reasoning about methods *)

(** [c], started in a store that satisfies [P], leaves a store that
    satisfies [Q a] when it returns [a] and [E e] when it raises [e]. *)
Definition triple {A} (P : World -> Prop) (c : M A)
    (Q : A -> World -> Prop) (E : exc -> World -> Prop) : Prop :=
  forall w, P w ->
    match c w with
    | (w', Return a) => Q a w'
    | (w', Raise e) => E e w'
    end.

(** [c] keeps [P], however it ends. *)
Definition keeps {A} (P : World -> Prop) (c : M A) : Prop :=
  triple P c (fun _ => P) (fun _ => P).

(** The worker has run at least once. *)
Definition started (a : Actor) : bool :=
  match _task a with
  | Serving | Done _ => true
  | NoTask | Scheduled => false
  end.

(** What user code and posts may change of an actor: its mailbox,
    its attributes, its actlets and its stop event. *)
Definition quiet_actor (a a' : Actor) : Prop :=
  _class a' = _class a /\ _actor_id a' = _actor_id a /\ _context a' = _context a
  /\ _initialize_event a' = _initialize_event a
  /\ _initialize_exception a' = _initialize_exception a
  /\ _shutdown_event a' = _shutdown_event a
  /\ _task a' = _task a.

(** The store of list objects has only grown. *)
Definition grows (w w' : World) : Prop :=
  exists ext, heap_of w' = heap_of w ++ ext.

Definition quiet (w w' : World) : Prop :=
  grows w w'
  /\ cores w' = cores w
  /\ recursion_limit w' = recursion_limit w
  /\ length (actors w') = length (actors w)
  /\ (forall i a, actors w !! i = Some a ->
        exists a', actors w' !! i = Some a' /\ quiet_actor a a').

(** What any step of the runtime may change of an actor: once its
    worker has run, the initialisation event and the stashed exception
    stay as they are. *)
Definition actor_evolves (a a' : Actor) : Prop :=
  _class a' = _class a /\ _actor_id a' = _actor_id a /\ _context a' = _context a
  /\ (started a = true ->
      started a' = true
      /\ _initialize_event a' = _initialize_event a
      /\ _initialize_exception a' = _initialize_exception a).

(** ... and of the cores: one that is not running stays exactly as
    it is. *)
Definition settled (w w' : World) : Prop :=
  recursion_limit w' = recursion_limit w
  /\ (forall n c, cores w !! n = Some c ->
        exists c', cores w' !! n = Some c' /\ (_running c = false -> c' = c))
  /\ (forall i a, actors w !! i = Some a ->
        exists a', actors w' !! i = Some a' /\ actor_evolves a a').

Definition evolves (w w' : World) : Prop := grows w w' /\ settled w w'.

(** The core at [self] is running. *)
Definition running (self : Context.CoreRef) (w : World) : Prop :=
  let 'Context.core_at n := self in
  exists c, cores w !! n = Some c /\ _running c = true.

(** The store has evolved from [w0] and the core at [self] is running. *)
Definition evolved_running (w0 : World) (self : Context.CoreRef) (w : World) : Prop :=
  evolves w0 w /\ running self w.

(** The worker of actor [self] has not run yet. *)
Definition unstarted (self : nat) (w : World) : Prop :=
  exists a, actors w !! self = Some a /\ started a = false.


(** Methods that are quiet, and methods that let the store evolve. *)
Definition calm {A} (c : M A) : Prop := forall w, quiet w (c w).1.
Definition sound {A} (c : M A) : Prop := forall w, evolves w (c w).1.

(** *** Trackers *)

(** The futures of the trackers that wait in the mailbox of [a], and
    in any mailbox. *)
Definition pending_of (a : Actor) : list nat := (fun x => _fut x.2) <$> _queue a.
Definition queued (acts : list Actor) : list nat := acts ≫= pending_of.

(** A future is pending and was never resolved, or is finished and
    was resolved once, or was cancelled. *)
Definition fut_ok (f : Future) : Prop :=
  f = Future_new \/ (exists r, f = mkFuture (FINISHED r) 1) \/ _state f = CANCELLED.

(** Neither [set_result] nor [set_exception] was called on the
    future: it is pending, or was cancelled while it was. *)
Definition untouched (f : Future) : Prop :=
  f = Future_new \/ f = mkFuture CANCELLED 0.

(** A future that is done in [w0] is in the same state in [w]. *)
Definition lasting (w0 w : World) : Prop :=
  forall t f, futures w0 !! t = Some f -> _state f <> PENDING ->
    exists f', futures w !! t = Some f' /\ _state f' = _state f.

(** The invariant of the store since [w0], with the trackers in
    [held] taken out of a mailbox (or not put into one yet) and not
    passed to [set_result] or [set_exception] so far. *)
Definition tracked (w0 : World) (held : list nat) (w : World) : Prop :=
  Forall fut_ok (futures w)
  /\ NoDup (held ++ queued (actors w))
  /\ (forall t, t ∈ held ++ queued (actors w) ->
        exists f, futures w !! t = Some f /\ untouched f)
  /\ lasting w0 w.






End Spec.

(** ** Vocabulary of the further facts *)

Module Terms.
Import Py PyStr Asyncio Runtime.

(** The mailbox of actor [i] begins with [q]. *)
Definition mailbox_begins (i : nat) (q : list (Envelope.t * EnvelopeTracker))
    (w : World) : Prop :=
  exists a, actors w !! i = Some a /\ q `prefix_of` _queue a.

(** What one piece of the runtime does to an actor object: the
    mailbox, the attributes and the actlets are replaced; an event is
    set; the outcome of [initialize] is recorded; the task is
    scheduled, starts serving, or ends -- and where it ends the
    shutdown event and the three events of the service are set with
    it. *)
Inductive touches : Actor -> Actor -> Prop :=
| touch_queue a q : touches a (with_queue q a)
| touch_attrs a m : touches a (with_attrs m a)
| touch_actlets a m : touches a (with_actlets m a)
| touch_stop a : touches a (with_stop_event (Event_set (_stop_event a)) a)
| touch_ready a : touches a (with_ready_event (Event_set (_ready_event a)) a)
| touch_initialized a :
    touches a (with_initialize_event (Event_set (_initialize_event a)) a)
| touch_failed a e : touches a (with_initialize_exception (Some e) a)
| touch_start a : touches a (with_task Scheduled a)
| touch_serving a : touches a (with_task Serving a)
| touch_end a r :
    touches a
      (with_task (Done r)
         (with_stop_event (Event_set (_stop_event a))
            (with_ready_event (Event_set (_ready_event a))
               (with_done_event (Event_set (_done_event a))
                  (with_shutdown_event (Event_set (_shutdown_event a)) a))))).

(** From [w] to [w'] every actor object has only been touched, and
    every new one was made by [Actor.__init__]. *)
Definition advances (w w' : World) : Prop :=
  length (actors w) <= length (actors w')
  /\ forall i a', actors w' !! i = Some a' ->
       match actors w !! i with
       | Some a => rtc touches a a'
       | None =>
           exists cls context actor_id, rtc touches (Actor_init cls context actor_id) a'
       end.

Definition orderly {A} (c : M A) : Prop := forall w, advances w (c w).1.

(** The events of an actor that are set in [a] are set in [a']. *)
Definition events_kept (a a' : Actor) : Prop :=
  (is_set (_initialize_event a) = true -> is_set (_initialize_event a') = true)
  /\ (is_set (_shutdown_event a) = true -> is_set (_shutdown_event a') = true)
  /\ (is_set (_stop_event a) = true -> is_set (_stop_event a') = true)
  /\ (is_set (_ready_event a) = true -> is_set (_ready_event a') = true)
  /\ (is_set (_done_event a) = true -> is_set (_done_event a') = true).

(** An actor whose worker has ended reports [is_shutdown], and the
    stop and ready events of its service are set: [serve] sets the
    first in its [finally], [_service_worker] the second in its own,
    and the third before [serve] is entered. *)
Definition ended_marked (a : Actor) : Prop :=
  forall r, _task a = Done r ->
    is_shutdown a = true /\ is_set (_stop_event a) = true
    /\ is_set (_ready_event a) = true.

(** Every entry of a registry names an actor object that exists,
    whose id and whose context identity are the key, the key being a
    path [_generate_actor_id] printed. *)
Definition registered_ok (w : World) : Prop :=
  forall n c id i, cores w !! n = Some c -> _actors c !! id = Some i ->
    exists a, actors w !! i = Some a /\ _actor_id a = id
              /\ Context.identity (_context a) = id
              /\ exists base name, id = _generate_actor_id base name.

(** [s.startswith('/')] *)
Definition startswith_sep (s : string) : bool :=
  match s with
  | String c _ => Ascii.eqb c PyStr.sep
  | EmptyString => false
  end.

(** ['_' in s] and ['_'.join(parts)] *)
Fixpoint has_underscore (s : string) : bool :=
  match s with
  | EmptyString => false
  | String c s' => Ascii.eqb c ProxyAuto.underscore || has_underscore s'
  end.

Fixpoint join_underscore (parts : list string) : string :=
  match parts with
  | [] => EmptyString
  | [x] => x
  | x :: rest => x +:+ String ProxyAuto.underscore (join_underscore rest)
  end.

End Terms.

(** * Facts *)

(** ** Identity join *)

Module PathFacts.
Import PyStr Pathlib Runtime Spec.

Lemma split_nosep x : contains_sep x = false -> split x = [x].
Proof.
  induction x as [|c x IH]; simpl; [done|].
  intros [Hc Hx]%orb_false_elim. rewrite Hc, (IH Hx). done.
Qed.

Lemma split_app_sep x s :
  contains_sep x = false -> split (x +:+ String sep s) = x :: split s.
Proof.
  induction x as [|c x IH]; simpl.
  - intros _. done.
  - intros [Hc Hx]%orb_false_elim. rewrite Hc, (IH Hx). done.
Qed.

Lemma contains_sep_app_sep x s : contains_sep (x +:+ String sep s) = true.
Proof.
  induction x as [|c x IH]; simpl; [done|].
  rewrite IH. apply orb_true_r.
Qed.

Lemma is_segment_spec x :
  is_segment x = true -> keep_name x = true /\ contains_sep x = false.
Proof.
  unfold is_segment. intros [? ?%negb_true_iff]%andb_true_iff. done.
Qed.

Lemma Forall_segment_nosep segs :
  Forall (fun x => is_segment x = true) segs ->
  Forall (fun x => contains_sep x = false) segs.
Proof.
  intros H. eapply Forall_impl; [exact H|].
  intros x Hx. apply is_segment_spec in Hx. tauto.
Qed.

Lemma split_join segs :
  segs <> [] -> Forall (fun x => contains_sep x = false) segs ->
  split (join segs) = segs.
Proof.
  induction segs as [|x [|y rest] IH]; intros Hne Hall; [done| |].
  - simpl. apply split_nosep. by inversion Hall.
  - change (join (x :: y :: rest)) with (x +:+ String sep (join (y :: rest))).
    inversion Hall as [|? ? Hx Hrest]; subst.
    rewrite split_app_sep by done. f_equal. apply IH; done.
Qed.

Lemma filter_keep_all segs :
  Forall (fun x => is_segment x = true) segs ->
  filter (fun x => Is_true (keep_name x)) segs = segs.
Proof.
  induction 1 as [|x segs Hx _ IH]; [done|].
  apply is_segment_spec in Hx as [Hk _].
  rewrite filter_cons_True by (rewrite Hk; done). by rewrite IH.
Qed.

(** The names a normalised relative path contributes are its segments. *)
Lemma part_names_join segs :
  segs <> [] -> Forall (fun x => is_segment x = true) segs ->
  part_names (join segs) = rev segs.
Proof.
  intros Hne Hall. unfold part_names.
  destruct segs as [|x [|y rest]]; [done| |].
  - simpl. inversion Hall as [|? ? Hx _]; subst.
    apply is_segment_spec in Hx as [Hk Hs]. by rewrite Hs, Hk.
  - change (join (x :: y :: rest)) with (x +:+ String sep (join (y :: rest))).
    rewrite contains_sep_app_sep.
    change (x +:+ String sep (join (y :: rest))) with (join (x :: y :: rest)).
    rewrite split_join by (done || by apply Forall_segment_nosep).
    apply filter_keep_all. by apply Forall_rev.
Qed.

(** A normalised relative path starts with a character that is not
    the separator. *)
Lemma join_head segs :
  segs <> [] -> Forall (fun x => is_segment x = true) segs ->
  exists c s, join segs = String c s /\ Ascii.eqb c sep = false.
Proof.
  intros Hne Hall. destruct segs as [|x rest]; [done|].
  inversion Hall as [|? ? Hx _]; subst.
  apply is_segment_spec in Hx as [Hk Hs].
  destruct x as [|c x]; [done|].
  simpl in Hs. apply orb_false_elim in Hs as [Hc _].
  destruct rest; simpl; eauto.
Qed.

Lemma parse_parts_single_relative c s :
  Ascii.eqb c sep = false ->
  parse_parts [String c s] = ("", rev (part_names (String c s))).
Proof.
  intros Hc. unfold parse_parts. simpl rev at 1. simpl parse_loop.
  unfold splitroot. rewrite Hc. simpl. by rewrite app_nil_r.
Qed.

Lemma parse_parts_single_absolute c s :
  Ascii.eqb c sep = false ->
  parse_parts [String sep (String c s)] = ("/", "/" :: rev (part_names (String c s))).
Proof.
  intros Hc. unfold parse_parts. simpl rev at 1. simpl parse_loop.
  unfold splitroot. simpl. rewrite Hc.
  change (String.length (String c s)) with (S (String.length s)).
  replace (S (S (String.length s)) - S (String.length s)) with 1 by lia.
  simpl. by rewrite rev_app_distr.
Qed.

Lemma parse_parts_relative segs :
  segs <> [] -> Forall (fun x => is_segment x = true) segs ->
  parse_parts [join segs] = ("", segs).
Proof.
  intros Hne Hall.
  destruct (join_head segs Hne Hall) as (c & s & Hj & Hc).
  pose proof (part_names_join segs Hne Hall) as Hn.
  rewrite Hj in *. rewrite parse_parts_single_relative by done.
  by rewrite Hn, rev_involutive.
Qed.

Lemma parse_parts_absolute segs :
  segs <> [] -> Forall (fun x => is_segment x = true) segs ->
  parse_parts ["/" +:+ join segs] = ("/", "/" :: segs).
Proof.
  intros Hne Hall.
  destruct (join_head segs Hne Hall) as (c & s & Hj & Hc).
  pose proof (part_names_join segs Hne Hall) as Hn.
  rewrite Hj in *. change ("/" +:+ String c s) with (String sep (String c s)).
  rewrite parse_parts_single_absolute by done.
  by rewrite Hn, rev_involutive.
Qed.

Lemma append_cons x (a b : string) : String x a +:+ b = String x (a +:+ b).
Proof. reflexivity. Qed.

Lemma append_assoc (a b c : string) : (a +:+ b) +:+ c = a +:+ (b +:+ c).
Proof.
  induction a as [|x a IH]; [reflexivity|].
  rewrite !append_cons. f_equal. exact IH.
Qed.

Lemma join_app xs ys :
  xs <> [] -> ys <> [] -> join (xs ++ ys) = join xs +:+ "/" +:+ join ys.
Proof.
  intros Hx Hy. induction xs as [|x [|x' xs] IH]; [done| |].
  - destruct ys; [done|]. done.
  - change (join ((x :: x' :: xs) ++ ys)) with (x +:+ String sep (join ((x' :: xs) ++ ys))).
    rewrite IH by done.
    change (join (x :: x' :: xs)) with (x +:+ String sep (join (x' :: xs))).
    rewrite append_assoc. done.
Qed.

Lemma truthy_cons c s : truthy (String c s) = true.
Proof. done. Qed.

(** The examples of the specification and of the test suite. *)
Example join_examples :
  _generate_actor_id "/a" "b" = "/a/b"
  /\ _generate_actor_id "/a" "/b" = "/b"
  /\ _generate_actor_id "/" "actor" = "/actor"
  /\ _generate_actor_id "/actor" "actor" = "/actor/actor"
  /\ _generate_actor_id "/actor" "/abs/actor" = "/abs/actor".
Proof. repeat split; reflexivity. Qed.

(** C8, as the claim states it, fails: from the root identity [/]
    the join of [b] is [/b], where the stated rule gives [//b]; and
    an absolute [rel] is normalised, so [/b/] does not come back as
    it is. *)
Lemma generate_actor_id_differs_from_rule :
  _generate_actor_id "/" "b" = "/b"
  /\ join_as_specified "/" "b" = "//b"
  /\ _generate_actor_id "/" "b" <> join_as_specified "/" "b"
  /\ _generate_actor_id "/a" "/b/" <> join_as_specified "/a" "/b/".
Proof. repeat split; try reflexivity; vm_compute; discriminate. Qed.

(** C8, amended: for a base [/b1/../bn] (n > 0) and a relative path
    [r1/../rm] (m > 0) whose segments pathlib keeps as they are, the
    join is the base, a separator and the relative path; from the
    root [/] it is [/] followed by the relative path; and an
    absolute [/r1/../rm] replaces any base whatever. *)
Theorem generate_actor_id_join (B : string) (bs rs : list string) :
  Forall (fun x => is_segment x = true) bs ->
  Forall (fun x => is_segment x = true) rs ->
  bs <> [] -> rs <> [] ->
  _generate_actor_id ("/" +:+ join bs) (join rs) = ("/" +:+ join bs) +:+ "/" +:+ join rs
  /\ _generate_actor_id "/" (join rs) = "/" +:+ join rs
  /\ _generate_actor_id B ("/" +:+ join rs) = "/" +:+ join rs.
Proof.
  intros Hbs Hrs Hb Hr. unfold _generate_actor_id, Path, truediv.
  rewrite (parse_parts_absolute bs), (parse_parts_relative rs),
    (parse_parts_absolute rs) by done.
  split; [|split].
  - unfold join_parsed_parts, str, _format_parsed_parts. cbn.
    rewrite join_app by done. by rewrite append_assoc.
  - reflexivity.
  - destruct (parse_parts [B]) as [root parts]. reflexivity.
Qed.

Lemma generate_actor_id_join_witness :
  _generate_actor_id "/a/b" "c/d" = "/a/b/c/d"
  /\ _generate_actor_id "/" "c/d" = "/c/d"
  /\ _generate_actor_id "/x" "/c/d" = "/c/d".
Proof.
  apply (generate_actor_id_join "/x" ["a"; "b"] ["c"; "d"]);
    repeat constructor; discriminate.
Defined.

End PathFacts.

(** ** Deriving a context *)

Module ContextFacts.
Import Py Context.

Lemma py_or_falsy {A} `{Truthy A} (x y : A) : truthy x = false -> py_or x y = y.
Proof. unfold py_or. by intros ->. Qed.

Lemma py_or_truthy {A} `{Truthy A} (x y : A) : truthy x = true -> py_or x y = x.
Proof. unfold py_or. by intros ->. Qed.

Lemma get_or_falsy {A} `{Truthy A} (x : option A) (y : A) :
  truthy x = false -> get_or x y = y.
Proof.
  destruct x as [v|]; [|done].
  change (truthy (Some v)) with (truthy v). unfold get_or. by intros ->.
Qed.

(** A result of [x or y] that is false is [y]. *)
Lemma py_or_result_falsy {A} `{Truthy A} (x y : A) :
  truthy (py_or x y) = false -> py_or x y = y.
Proof. unfold py_or. destruct (truthy x) eqn:Hx; [congruence|done]. Qed.

Lemma get_or_result_falsy {A} `{Truthy A} (x : option A) (y : A) :
  truthy (get_or x y) = false -> get_or x y = y.
Proof.
  destruct x as [v|]; [|done]. unfold get_or.
  destruct (truthy v) eqn:Hv; [congruence|done].
Qed.

(** The tests [test_empty_context_call] and [test_overriding_context_call]. *)
Example empty_call_keeps_fields :
  let context := __init__ "Context" (Some (core_at 0)) (Some (mkLogger ∅)) "identity" None ∅ in
  __call__ context no_kwargs = context.
Proof. reflexivity. Qed.

(** C10: [context(core=.., log=.., identity=.., envelope=..)] builds a
    plain [Context], whatever the class of the original; a supplied
    value that is false ([None], the empty string) yields the current
    value of that field (for the logger: the current logger, bound
    again to the identity); and a derived field that is false can only
    be the current one, so no field is overridden to a false value. *)
Theorem call_falls_back_on_falsy (self : Context) (kwargs : Kwargs) :
  let derived := __call__ self kwargs in
  ctx_class derived = "Context"
  /\ (truthy (kw_core kwargs) = false -> _core derived = _core self)
  /\ (truthy (kw_identity kwargs) = false -> _identity derived = _identity self)
  /\ (truthy (kw_envelope kwargs) = false -> _envelope derived = _envelope self)
  /\ (truthy (kw_log kwargs) = false ->
      _log derived =
      (fun l => Logger_bind l {["identity" := VStr (_identity derived)]}) <$> _log self)
  /\ (truthy (_core derived) = false -> _core derived = _core self)
  /\ (truthy (_identity derived) = false -> _identity derived = _identity self)
  /\ (truthy (_envelope derived) = false -> _envelope derived = _envelope self)
  /\ (truthy (_log derived) = false -> _log derived = _log self).
Proof.
  cbn zeta. unfold __call__, __init__. cbn [ctx_class _core _identity _envelope _log].
  repeat split.
  - apply py_or_falsy.
  - apply get_or_falsy.
  - apply py_or_falsy.
  - intros Hlog. rewrite (py_or_falsy _ _ Hlog).
    destruct (_log self) as [l|]; [|done]. cbn. by rewrite insert_empty.
  - apply py_or_result_falsy.
  - apply get_or_result_falsy.
  - apply py_or_result_falsy.
  - destruct (py_or (kw_log kwargs) (_log self)) as [l|] eqn:Hor; [done|].
    cbn. intros _. unfold py_or in Hor.
    destruct (kw_log kwargs); cbn in Hor; congruence.
Qed.

(** A subclass instance called with [None] and the empty string. *)
Lemma call_falls_back_on_falsy_witness :
  let self := mkContext "MyContext" (Some (core_at 0)) (Some (mkLogger ∅)) "/a" None in
  let derived := __call__ self (mkKwargs None None (Some "") None ∅) in
  ctx_class derived = "Context"
  /\ _core derived = Some (core_at 0)
  /\ _identity derived = "/a"
  /\ _envelope derived = None.
Proof.
  pose proof (call_falls_back_on_falsy
    (mkContext "MyContext" (Some (core_at 0)) (Some (mkLogger ∅)) "/a" None)
    (mkKwargs None None (Some "") None ∅)) as (Hc & Hcore & Hid & Henv & _).
  cbn zeta. split; [exact Hc|]. split; [exact (Hcore eq_refl)|].
  split; [exact (Hid eq_refl)|exact (Henv eq_refl)].
Defined.

End ContextFacts.

(** ** The generic timer *)

Module TimerFacts.
Import Py Messages Timer Spec.






Lemma undisturbed_S n : undisturbed (S n) = Return tt :: undisturbed n.
Proof. reflexivity. Qed.

Lemma run_from_finished cfg r outcomes :
  run_from cfg (Finished r) outcomes = ([], Finished r).
Proof. by destruct outcomes. Qed.











End TimerFacts.

(** ** Routers and their inheritance *)

Module DictFacts.
Section dict.
Context {K V : Type} `{EqDecision K}.
Implicit Types (d : Dict.t K V) (k : K) (v : V).

Lemma get_set_eq d k v : Dict.get k (Dict.set k v d) = Some v.
Proof.
  induction d as [|[k' v'] d IH]; simpl.
  - by rewrite decide_True.
  - destruct (decide (k = k')) as [->|Hne]; simpl.
    + by rewrite decide_True.
    + by rewrite decide_False.
Qed.

Lemma get_set_ne d k k' v : k' <> k -> Dict.get k' (Dict.set k v d) = Dict.get k' d.
Proof.
  intros Hne. induction d as [|[k0 v0] d IH]; simpl.
  - by rewrite decide_False.
  - destruct (decide (k = k0)) as [->|Hk]; simpl.
    + by rewrite !decide_False.
    + destruct (decide (k' = k0)); [done|]. exact IH.
Qed.

Lemma contains_true d k : Dict.contains k d = true <-> is_Some (Dict.get k d).
Proof.
  unfold Dict.contains. destruct (Dict.get k d); split; intros H0; done.
Qed.

Lemma contains_false d k : Dict.contains k d = false <-> Dict.get k d = None.
Proof. unfold Dict.contains. destruct (Dict.get k d); split; congruence. Qed.

End dict.
End DictFacts.

Module RouterFacts.
Import Py Messages Behaviour ActorClass Spec DictFacts.

Lemma names_cover_new : names_cover Router.new.
Proof. intros cls [h Hh]. done. Qed.

Lemma add_inv r cls f r' :
  Router.add r cls f = Return r' ->
  Dict.contains (cls_name cls) (Router._handled_messages_names r) = false
  /\ r' = Router.mkRouter
            (Dict.set cls f (Router._handlers r))
            (Dict.set (cls_name cls) cls (Router._handled_messages_names r)).
Proof.
  unfold Router.add. repeat case_match; try done. by intros [= <-].
Qed.

(** A successful [add] binds the class and nothing else. *)
Lemma add_lookup r cls f r' T :
  Router.add r cls f = Return r' ->
  Dict.get T (Router._handlers r') =
  if decide (T = cls) then Some f else Dict.get T (Router._handlers r).
Proof.
  intros [_ ->]%add_inv. simpl.
  destruct (decide (T = cls)) as [->|Hne].
  - apply get_set_eq.
  - by apply get_set_ne.
Qed.

Lemma add_names_cover r cls f r' :
  names_cover r -> Router.add r cls f = Return r' -> names_cover r'.
Proof.
  intros Hr [_ ->]%add_inv T. simpl. destruct (decide (T = cls)) as [->|Hne].
  - intros _. rewrite get_set_eq. by eexists.
  - rewrite get_set_ne by done. intros HT%Hr.
    destruct (decide (cls_name T = cls_name cls)) as [->|Hn].
    + rewrite get_set_eq. by eexists.
    + by rewrite get_set_ne.
Qed.

(** [add] refuses a class the router already handles. *)
Lemma add_fresh r cls f r' :
  names_cover r -> Router.add r cls f = Return r' ->
  Dict.get cls (Router._handlers r) = None.
Proof.
  intros Hr [Hc _]%add_inv.
  destruct (Dict.get cls (Router._handlers r)) as [h|] eqn:Hget; [|done].
  assert (is_Some (Dict.get (cls_name cls) (Router._handled_messages_names r))) as Hn
    by (apply Hr; by eexists).
  apply contains_true in Hn. congruence.
Qed.

Lemma bind_Return {A B} (r : pyresult A) (k : A -> pyresult B) b :
  bind r k = Return b -> exists a, r = Return a /\ k a = Return b.
Proof. destruct r as [a|e]; simpl; [eauto|done]. Qed.

(** The first loop binds what the class body declares. *)
Lemma add_declared_lookup methods : forall r r' T,
  names_cover r -> add_declared methods r = Return r' ->
  names_cover r'
  /\ Dict.get T (Router._handlers r') =
     match Dict.get T (Router._handlers r) with
     | Some h => Some h
     | None => declared_handler T methods
     end.
Proof.
  induction methods as [|[f|] rest IH]; intros r r' T Hr; simpl.
  - intros [= <-]. split; [done|]. by destruct (Dict.get T _).
  - destruct (Router._handle f) as [cls|] eqn:Hf.
    + intros (r1 & Hadd & Hrest)%bind_Return.
      pose proof (add_names_cover _ _ _ _ Hr Hadd) as Hr1.
      destruct (IH r1 r' T Hr1 Hrest) as [Hr' ->]. split; [done|].
      rewrite (add_lookup _ _ _ _ T Hadd).
      destruct (decide (T = cls)) as [->|Hne].
      * rewrite (add_fresh _ _ _ _ Hr Hadd). by rewrite decide_True.
      * rewrite decide_False by congruence. done.
    + intros Hrest. destruct (IH r r' T Hr Hrest) as [Hr' ->]. split; [done|].
      by rewrite decide_False.
  - apply IH, Hr.
Qed.

(** The inner loop binds the first entry of each class that is not
    bound yet. *)
Lemma add_inherited_lookup items : forall r r' T,
  names_cover r -> add_inherited items r = Return r' ->
  names_cover r'
  /\ Dict.get T (Router._handlers r') =
     match Dict.get T (Router._handlers r) with
     | Some h => Some h
     | None => Dict.get T items
     end.
Proof.
  induction items as [|[cls h] rest IH]; intros r r' T Hr; simpl.
  - intros [= <-]. split; [done|]. by destruct (Dict.get T _).
  - destruct (Dict.contains cls (Router._handlers r)) eqn:Hc; simpl.
    + intros Hrest. destruct (IH r r' T Hr Hrest) as [Hr' ->]. split; [done|].
      destruct (Dict.get T (Router._handlers r)) as [h0|] eqn:HT; [done|].
      destruct (decide (T = cls)) as [->|Hne]; [|done].
      apply contains_true in Hc as [? ?]. congruence.
    + intros (r1 & Hadd & Hrest)%bind_Return.
      pose proof (add_names_cover _ _ _ _ Hr Hadd) as Hr1.
      destruct (IH r1 r' T Hr1 Hrest) as [Hr' ->]. split; [done|].
      rewrite (add_lookup _ _ _ _ T Hadd).
      destruct (decide (T = cls)) as [->|Hne]; [|done].
      apply contains_false in Hc. by rewrite Hc.
Qed.

Lemma add_bases_lookup bases : forall r r' T,
  names_cover r -> add_bases bases r = Return r' ->
  names_cover r'
  /\ Dict.get T (Router._handlers r') =
     match Dict.get T (Router._handlers r) with
     | Some h => Some h
     | None => inherited_handler T bases
     end.
Proof.
  induction bases as [|base rest IH]; intros r r' T Hr; simpl.
  - intros [= <-]. split; [done|]. by destruct (Dict.get T _).
  - destruct (class_router base) as [rb|].
    + intros (r1 & Hinh & Hrest)%bind_Return.
      destruct (add_inherited_lookup _ _ _ T Hr Hinh) as [Hr1 H1].
      destruct (IH r1 r' T Hr1 Hrest) as [Hr' ->]. split; [done|].
      rewrite H1. unfold Dict.items.
      destruct (Dict.get T (Router._handlers r)); [done|].
      by destruct (Dict.get T (Router._handlers rb)).
    + apply IH, Hr.
Qed.

(** The router of [Actor] itself has the three built-in handlers. *)
Example Actor_router_handlers :
  map fst (Router._handlers Actor_router)
  = [ShutdownMessage_cls; ActletDoneMessage_cls; TimerDoneMessage_cls].
Proof. reflexivity. Qed.

(** Two message classes of one name cannot meet in a router: the
    class statement fails, as in [test_same_message_name]. *)
Example same_name_refused :
  let DummyMessage := mkMsgCls 10 "DummyMessage" true in
  let DummyMessage' := mkMsgCls 11 "DummyMessage" true in
  exists e r, Router.add Router.new DummyMessage handle_timer_done = Return r
              /\ Router.add r DummyMessage' handle_timer_done = Raise e.
Proof. do 2 eexists. split; reflexivity. Qed.

(** C4: when the class statement succeeds, the router of the new class
    maps a message to the handler the class body declares for its
    exact type, and, when the body declares none, to the handler of
    the first base whose router has one. *)
Theorem metaclass_router_override name bases dct router (message : Message) :
  ActorMetaclass_new name bases dct = Return router ->
  Router.match_ router message =
  match declared_handler (msg_cls message) (Dict.values dct) with
  | Some h => Some h
  | None => inherited_handler (msg_cls message) bases
  end.
Proof.
  unfold ActorMetaclass_new. intros (r1 & Hdecl & Hbases)%bind_Return.
  destruct (add_declared_lookup _ _ _ (msg_cls message) names_cover_new Hdecl) as [Hr1 H1].
  destruct (add_bases_lookup _ _ _ (msg_cls message) Hr1 Hbases) as [_ H2].
  unfold Router.match_. rewrite H2, H1. simpl.
  by destruct (declared_handler _ _).
Qed.

Lemma metaclass_router_override_witness :
  Router.match_ overriding_router ShutdownMessage = Some new_shutdown_handler
  /\ Router.match_ overriding_router TimerDoneMessage = Some handle_timer_done
  /\ length (Router._handlers overriding_router) = 3.
Proof.
  split; [|split].
  - exact (metaclass_router_override "Actor" [Actor] overriding_dct overriding_router
             ShutdownMessage eq_refl).
  - exact (metaclass_router_override "Actor" [Actor] overriding_dct overriding_router
             TimerDoneMessage eq_refl).
  - reflexivity.
Defined.

End RouterFacts.

(** ** A small program logic for methods *)

Module Logic.
Import Py Messages Context Behaviour ActorClass Asyncio Runtime Spec.

Lemma triple_ret {A} (P : World -> Prop) (a : A) Q E :
  (forall w, P w -> Q a w) -> triple P (ret a) Q E.
Proof. intros H w Hw. by apply H. Qed.

Lemma triple_raise {A} (P : World -> Prop) e (Q : A -> World -> Prop) E :
  (forall w, P w -> E e w) -> triple P (raise e) Q E.
Proof. intros H w Hw. by apply H. Qed.

Lemma triple_bind {A B} P (c : M A) (k : A -> M B) Q R E :
  triple P c Q E -> (forall a, triple (Q a) (k a) R E) -> triple P (mbind c k) R E.
Proof.
  intros Hc Hk w Hw. unfold mbind. specialize (Hc w Hw).
  destruct (c w) as [w' [a|e]]; [|done]. by apply Hk.
Qed.

Lemma triple_attempt {A} P (c : M A) Q E (R : pyresult A -> World -> Prop) (E' : exc -> World -> Prop) :
  triple P c Q E ->
  (forall a w, Q a w -> R (Return a) w) -> (forall e w, E e w -> R (Raise e) w) ->
  triple P (attempt c) R E'.
Proof.
  intros Hc HQ HE w Hw. unfold attempt. specialize (Hc w Hw).
  destruct (c w) as [w' [a|e]]; eauto.
Qed.

Lemma triple_update P (f : World -> World) (Q : unit -> World -> Prop) E :
  (forall w, P w -> Q tt (f w)) -> triple P (update f) Q E.
Proof. intros H w Hw. by apply H. Qed.

Lemma triple_read {A} P (f : World -> A) (Q : A -> World -> Prop) E :
  (forall w, P w -> Q (f w) w) -> triple P (read f) Q E.
Proof. intros H w Hw. by apply H. Qed.

Lemma triple_weaken {A} (P P' : World -> Prop) (c : M A) (Q Q' : A -> World -> Prop) (E E' : exc -> World -> Prop) :
  triple P' c Q' E' ->
  (forall w, P w -> P' w) -> (forall a w, Q' a w -> Q a w) -> (forall e w, E' e w -> E e w) ->
  triple P c Q E.
Proof.
  intros Hc HP HQ HE w Hw. specialize (Hc w (HP w Hw)).
  destruct (c w) as [w' [a|e]]; eauto.
Qed.

Lemma triple_the_actor P self (Q : Actor -> World -> Prop) E :
  (forall w a, P w -> actors w !! self = Some a -> Q a w) ->
  (forall w e, P w -> E e w) ->
  triple P (the_actor self) Q E.
Proof.
  intros HQ HE w Hw. unfold the_actor.
  destruct (actors w !! self) as [a|] eqn:Ha; [by apply HQ|by apply HE].
Qed.

Lemma triple_the_core P self (Q : Core -> World -> Prop) E :
  (forall w c n, P w -> self = core_at n -> cores w !! n = Some c -> Q c w) ->
  (forall w e, P w -> E e w) ->
  triple P (the_core self) Q E.
Proof.
  intros HQ HE w Hw. unfold the_core. destruct self as [n].
  destruct (cores w !! n) as [c|] eqn:Hc; [by eapply HQ|by apply HE].
Qed.

Lemma keeps_ret {A} P (a : A) : keeps P (ret a).
Proof. by apply triple_ret. Qed.

Lemma keeps_raise {A} P e : keeps P (@raise A e).
Proof. by apply triple_raise. Qed.

Lemma keeps_bind {A B} P (c : M A) (k : A -> M B) :
  keeps P c -> (forall a, keeps P (k a)) -> keeps P (mbind c k).
Proof. intros Hc Hk. eapply triple_bind; [exact Hc|]. intros a. apply Hk. Qed.

Lemma keeps_attempt {A} P (c : M A) : keeps P c -> keeps P (attempt c).
Proof. intros Hc. eapply triple_attempt; [exact Hc|..]; auto. Qed.

Lemma keeps_update P f : (forall w, P w -> P (f w)) -> keeps P (update f).
Proof. intros H w Hw. by apply H. Qed.

Lemma keeps_read {A} P (f : World -> A) : keeps P (read f).
Proof. intros w Hw. exact Hw. Qed.

Lemma keeps_the_actor P self : keeps P (the_actor self).
Proof. apply triple_the_actor; auto. Qed.

Lemma keeps_the_core P self : keeps P (the_core self).
Proof. apply triple_the_core; auto. Qed.

Lemma keeps_dangling {A} P : keeps P (@dangling A).
Proof. apply keeps_raise. Qed.

Lemma keeps_lift {A} P (r : pyresult A) : keeps P (lift r).
Proof. intros w Hw. unfold lift. by destruct r. Qed.

Lemma keeps_log_call P context level : keeps P (log_call context level).
Proof. apply keeps_lift. Qed.

(** A prefix that keeps [P], followed by the rest. *)
Lemma triple_seq {A B} (P : World -> Prop) (c : M A) (k : A -> M B) R E :
  keeps P c -> (forall e w, P w -> E e w) -> (forall a, triple P (k a) R E) ->
  triple P (mbind c k) R E.
Proof.
  intros Hc HE Hk. eapply triple_bind; [|exact Hk].
  eapply triple_weaken; [exact Hc|..]; auto.
Qed.

Lemma keeps_fst {A} P (c : M A) w : keeps P c -> P w -> P (fst (c w)).
Proof. intros Hc Hw. specialize (Hc w Hw). by destruct (c w) as [w' [a|e]]. Qed.

End Logic.

(** ** Deep copies *)

Module CopyFacts.
Import Py Spec.

Lemma within_mono lo hi hi' v : hi <= hi' -> within lo hi v -> within lo hi' v.
Proof.
  intros Hle. revert v. fix IH 2. intros v Hv. destruct Hv as [l Hl|cls args Hargs| | | | | ].
  - constructor. lia.
  - constructor. induction Hargs as [|a args Ha _ IHargs]; constructor; [by apply IH|done].
  - constructor.
  - constructor.
  - constructor.
  - constructor.
  - constructor.
Qed.

Lemma Forall_within_mono lo hi hi' (xs : list value) :
  hi <= hi' -> Forall (within lo hi) xs -> Forall (within lo hi') xs.
Proof.
  intros Hle H. eapply Forall_impl; [exact H|]. intros v Hv. by eapply within_mono.
Qed.

Lemma copying_start h0 : copying h0 (∅, h0).
Proof.
  exists []. simpl. split; [by rewrite app_nil_r|]. split; [constructor|].
  intros l y Hl. by rewrite lookup_empty in Hl.
Qed.

Lemma copying_length h0 st : copying h0 st -> length h0 <= length st.2.
Proof. intros (ext & -> & _). rewrite length_app. lia. Qed.

(** Allocating the new, empty list and recording it in the memo. *)
Lemma copying_alloc h0 memo h l :
  copying h0 (memo, h) -> copying h0 (<[l := length h]> memo, h ++ [[]]).
Proof.
  intros Hc. pose proof (copying_length _ _ Hc) as Hlen.
  destruct Hc as (ext & Hh & Hext & Hmemo). simpl in *.
  exists (ext ++ [[]]). simpl. rewrite length_app. simpl.
  split; [by rewrite Hh, app_assoc|]. split.
  - apply Forall_app. split; [|by repeat constructor].
    eapply Forall_impl; [exact Hext|]. intros xs Hxs.
    eapply Forall_within_mono; [|exact Hxs]. lia.
  - intros l' y. destruct (decide (l = l')) as [->|Hne].
    + rewrite lookup_insert_eq. intros [= <-]. lia.
    + rewrite lookup_insert_ne by done. intros Hy%Hmemo. lia.
Qed.

(** Appending an item that refers to new objects only to a new list. *)
Lemma copying_append h0 memo h y a :
  length h0 <= y -> within (length h0) (length h) a ->
  copying h0 (memo, h) -> copying h0 (memo, list_append y a h).
Proof.
  intros Hy Ha (ext & Hh & Hext & Hmemo). simpl in *. unfold list_append.
  exists (alter (fun items => items ++ [a]) (y - length h0) ext). simpl.
  rewrite length_alter. split; [|split; [|done]].
  - rewrite Hh. replace y with (length h0 + (y - length h0)) at 1 by lia.
    by rewrite alter_app_r.
  - apply Forall_alter; [done|]. intros xs _ Hxs.
    apply Forall_app. split; [done|]. by repeat constructor.
Qed.

Section items.
Variable h0 : list (list value).
Variable copy : value -> copy_state -> pyresult (value * copy_state).
Variable emit : value -> heap -> heap.

Hypothesis copy_ok : forall x st v st',
  copying h0 st -> copy x st = Return (v, st') ->
  copying h0 st' /\ length st.2 <= length st'.2
  /\ within (length h0) (length st'.2) v.

Hypothesis emit_ok : forall a memo h,
  within (length h0) (length h) a -> copying h0 (memo, h) ->
  copying h0 (memo, emit a h) /\ length (emit a h) = length h.

Lemma copy_items_ok xs : forall st ys st',
  copying h0 st -> copy_items copy emit xs st = Return (ys, st') ->
  copying h0 st' /\ length st.2 <= length st'.2
  /\ Forall (within (length h0) (length st'.2)) ys.
Proof.
  induction xs as [|a xs IH]; intros st ys st' Hst; simpl.
  - intros [= <- <-]. split; [done|]. split; [done|constructor].
  - destruct (copy a st) as [[a' [memo h]]|e] eqn:Ha; [|done].
    destruct (copy_ok _ _ _ _ Hst Ha) as (Hst1 & Hle1 & Ha').
    destruct (emit_ok a' memo h Ha' Hst1) as [Hst2 Hlen].
    destruct (copy_items copy emit xs (memo, emit a' h)) as [[ys' st'']|e] eqn:Hrest; [|done].
    intros [= <- <-].
    destruct (IH _ _ _ Hst2 Hrest) as (Hst' & Hle & Hys). simpl in *.
    split; [done|]. split; [lia|].
    constructor; [|done]. eapply within_mono; [|exact Ha']. lia.
Qed.

End items.

Lemma deepcopy_ok h0 fuel : forall x st v st',
  copying h0 st -> deepcopy fuel x st = Return (v, st') ->
  copying h0 st' /\ length st.2 <= length st'.2
  /\ within (length h0) (length st'.2) v.
Proof.
  induction fuel as [|fuel IH]; intros x st v st' Hst; simpl; [done|].
  destruct x as [| | | | |l|cls args];
    try (intros [= <- <-]; split; [done|]; split; [done|constructor]).
  - destruct st as [memo h]. destruct (memo !! l) as [y|] eqn:Hmemo.
    + intros [= <- <-]. split; [done|]. split; [done|].
      constructor. destruct Hst as (ext & _ & _ & Hm). by apply (Hm l).
    + destruct (h !! l) as [items|] eqn:Hl; [|done].
      destruct (copy_items _ _ _ _) as [[ys st1]|e] eqn:Hitems; [|done].
      intros [= <- <-].
      pose proof (copying_length _ _ Hst) as Hbase. simpl in Hbase.
      eapply (copy_items_ok h0) in Hitems as (Hst1 & Hle & _);
        [| exact IH | | by apply copying_alloc].
      * simpl in Hle. rewrite length_app in Hle. simpl in Hle.
        split; [done|]. split; [simpl; lia|]. constructor. lia.
      * intros a memo' h' Ha Hc. split; [by apply copying_append|].
        unfold list_append. by rewrite length_alter.
  - destruct (copy_items _ _ _ _) as [[ys st1]|e] eqn:Hitems; [|done].
    intros [= <- <-].
    eapply (copy_items_ok h0) in Hitems as (Hst1 & Hle & Hys);
      [| exact IH | | exact Hst].
    + split; [done|]. split; [done|]. by constructor.
    + intros a memo' h' Ha Hc. done.
Qed.

(** A message comes back from [deepcopy] as a message, over a store
    that has only grown, and refers to the new objects only. *)
Lemma deepcopy_message fuel (m : Message) h v memo' h' :
  deepcopy fuel (to_value m) (∅, h) = Return (v, (memo', h')) ->
  exists args ext,
    v = VMsg (msg_cls m) args /\ h' = h ++ ext
    /\ Forall (Forall (within (length h) (length h'))) ext
    /\ within (length h) (length h') v.
Proof.
  intros Hcopy.
  destruct (deepcopy_ok h fuel _ _ _ _ (copying_start h) Hcopy)
    as ((ext & Hh' & Hext & _) & _ & Hv). simpl in *.
  destruct fuel as [|fuel]; [done|]. simpl in Hcopy.
  destruct (copy_items _ _ _ _) as [[ys st1]|e]; [|done].
  injection Hcopy as <- _. eauto 10.
Qed.

(** A reader of a value that refers to a region sees the same thing in
    every store that holds the same objects there. *)
Lemma observe_same_region lo hi h h' n : forall v,
  same_region lo hi h h' ->
  (forall l items, lo <= l < hi -> h !! l = Some items -> Forall (within lo hi) items) ->
  within lo hi v ->
  observe n h' v = observe n h v.
Proof.
  intros v Hsame Hclosed. revert v.
  induction n as [|n IH]; intros v Hv; [done|]. simpl.
  destruct Hv as [l Hl|cls args Hargs| | | | | ]; try done.
  - rewrite (Hsame l Hl). destruct (h !! l) as [items|] eqn:Hitems; [|done].
    f_equal. apply map_ext_Forall.
    eapply Forall_impl; [exact (Hclosed l items Hl Hitems)|]. intros a Ha. by apply IH.
  - f_equal. apply map_ext_Forall.
    eapply Forall_impl; [exact Hargs|]. intros a Ha. by apply IH.
Qed.

End CopyFacts.

(** ** The store under the methods of the runtime *)

Module RuntimeFacts.
Import Py Messages Context Behaviour ActorClass Asyncio Runtime Spec Logic CopyFacts.

(** *** Quiet and evolving stores *)

Lemma quiet_actor_refl a : quiet_actor a a.
Proof. by repeat split. Qed.

Lemma quiet_actor_trans a b c : quiet_actor a b -> quiet_actor b c -> quiet_actor a c.
Proof. unfold quiet_actor. intros H1 H2. intuition congruence. Qed.

Lemma grows_refl w : grows w w.
Proof. exists []. by rewrite app_nil_r. Qed.

Lemma grows_same w w' : heap_of w' = heap_of w -> grows w w'.
Proof. intros H. exists []. by rewrite app_nil_r. Qed.

Lemma grows_trans w1 w2 w3 : grows w1 w2 -> grows w2 w3 -> grows w1 w3.
Proof. intros [e1 H1] [e2 H2]. exists (e1 ++ e2). by rewrite H2, H1, app_assoc. Qed.

Lemma quiet_refl w : quiet w w.
Proof.
  split; [apply grows_refl|]. repeat split; try done.
  intros i a Ha. exists a. split; [done|apply quiet_actor_refl].
Qed.

Lemma quiet_trans w1 w2 w3 : quiet w1 w2 -> quiet w2 w3 -> quiet w1 w3.
Proof.
  intros (Hg1 & Hc1 & Hl1 & Hn1 & Ha1) (Hg2 & Hc2 & Hl2 & Hn2 & Ha2).
  split; [by eapply grows_trans|]. repeat split; try congruence.
  intros i a Ha. destruct (Ha1 i a Ha) as (a' & Ha' & Hq1).
  destruct (Ha2 i a' Ha') as (a'' & Ha'' & Hq2).
  exists a''. split; [done|by eapply quiet_actor_trans].
Qed.

Lemma actor_evolves_refl a : actor_evolves a a.
Proof. by repeat split. Qed.

Lemma actor_evolves_trans a b c : actor_evolves a b -> actor_evolves b c -> actor_evolves a c.
Proof.
  intros (? & ? & ? & Hab) (? & ? & ? & Hbc).
  split; [congruence|]. split; [congruence|]. split; [congruence|].
  intros Hs. destruct (Hab Hs) as (Hs' & ? & ?). destruct (Hbc Hs') as (? & ? & ?).
  split; [done|]. split; congruence.
Qed.

Lemma quiet_actor_evolves a a' : quiet_actor a a' -> actor_evolves a a'.
Proof.
  intros (? & ? & ? & ? & ? & ? & Ht). repeat split; try done.
  unfold started. by rewrite Ht.
Qed.

Lemma settled_refl w : settled w w.
Proof.
  repeat split.
  - intros n c Hc. by exists c.
  - intros i a Ha. exists a. split; [done|apply actor_evolves_refl].
Qed.

Lemma settled_trans w1 w2 w3 : settled w1 w2 -> settled w2 w3 -> settled w1 w3.
Proof.
  intros (Hl1 & Hc1 & Ha1) (Hl2 & Hc2 & Ha2). repeat split; [congruence|..].
  - intros n c Hc. destruct (Hc1 n c Hc) as (c' & Hc' & Hf1).
    destruct (Hc2 n c' Hc') as (c'' & Hc'' & Hf2). exists c''. split; [done|].
    intros Hr. specialize (Hf1 Hr). subst c'. by apply Hf2.
  - intros i a Ha. destruct (Ha1 i a Ha) as (a' & Ha' & He1).
    destruct (Ha2 i a' Ha') as (a'' & Ha'' & He2).
    exists a''. split; [done|by eapply actor_evolves_trans].
Qed.

Lemma evolves_refl w : evolves w w.
Proof. split; [apply grows_refl|apply settled_refl]. Qed.

Lemma evolves_trans w1 w2 w3 : evolves w1 w2 -> evolves w2 w3 -> evolves w1 w3.
Proof.
  intros [? ?] [? ?]. split; [by eapply grows_trans|by eapply settled_trans].
Qed.

Lemma quiet_evolves w w' : quiet w w' -> evolves w w'.
Proof.
  intros (Hg & Hc & Hl & Hn & Ha). split; [done|]. repeat split; [done|..].
  - intros n c Hn'. exists c. by rewrite Hc.
  - intros i a Hi. destruct (Ha i a Hi) as (a' & Ha' & Hq).
    exists a'. split; [done|by apply quiet_actor_evolves].
Qed.

(** *** Rules *)

Lemma calm_ret {A} (a : A) : calm (ret a).
Proof. intros w. apply quiet_refl. Qed.

Lemma calm_raise {A} e : calm (@raise A e).
Proof. intros w. apply quiet_refl. Qed.

Lemma calm_read {A} (f : World -> A) : calm (read f).
Proof. intros w. apply quiet_refl. Qed.

Lemma calm_bind {A B} (c : M A) (k : A -> M B) :
  calm c -> (forall a, calm (k a)) -> calm (mbind c k).
Proof.
  intros Hc Hk w. unfold mbind. specialize (Hc w).
  destruct (c w) as [w' [a|e]]; [|done].
  eapply quiet_trans; [exact Hc|apply Hk].
Qed.

Lemma calm_attempt {A} (c : M A) : calm c -> calm (attempt c).
Proof. intros Hc w. unfold attempt. specialize (Hc w). by destruct (c w). Qed.

Lemma calm_lift {A} (r : pyresult A) : calm (lift r).
Proof. intros w. apply quiet_refl. Qed.

Lemma calm_log_call context level : calm (log_call context level).
Proof. apply calm_lift. Qed.

Lemma calm_the_actor self : calm (the_actor self).
Proof. intros w. unfold the_actor. destruct (_ !! _); apply quiet_refl. Qed.

Lemma calm_the_core self : calm (the_core self).
Proof. intros w. unfold the_core. destruct self. destruct (_ !! _); apply quiet_refl. Qed.

Lemma sound_ret {A} (a : A) : sound (ret a).
Proof. intros w. apply evolves_refl. Qed.

Lemma sound_raise {A} e : sound (@raise A e).
Proof. intros w. apply evolves_refl. Qed.

Lemma sound_bind {A B} (c : M A) (k : A -> M B) :
  sound c -> (forall a, sound (k a)) -> sound (mbind c k).
Proof.
  intros Hc Hk w. unfold mbind. specialize (Hc w).
  destruct (c w) as [w' [a|e]]; [|done].
  eapply evolves_trans; [exact Hc|apply Hk].
Qed.

Lemma sound_attempt {A} (c : M A) : sound c -> sound (attempt c).
Proof. intros Hc w. unfold attempt. specialize (Hc w). by destruct (c w). Qed.

Lemma calm_sound {A} (c : M A) : calm c -> sound c.
Proof. intros Hc w. apply quiet_evolves, Hc. Qed.

(** *** The primitives *)

Lemma quiet_update_actor self f w :
  (forall a, quiet_actor a (f a)) ->
  quiet w (with_actors (alter f self (actors w)) w).
Proof.
  intros Hf. split; [by apply grows_same|]. repeat split; simpl; try done.
  - by rewrite length_alter.
  - intros i a Ha. destruct (decide (self = i)) as [->|Hne].
    + exists (f a). by rewrite list_lookup_alter_eq, Ha.
    + exists a. rewrite list_lookup_alter_ne by done. split; [done|apply quiet_actor_refl].
Qed.

Lemma calm_update_actor self f :
  (forall a, quiet_actor a (f a)) -> calm (update_actor self f).
Proof. intros Hf w. by apply quiet_update_actor. Qed.

Lemma calm_uuid4 : calm uuid4.
Proof.
  intros w. split; [by apply grows_same|]. repeat split; try done.
  intros i a Ha. exists a. split; [done|apply quiet_actor_refl].
Qed.

Lemma calm_create_future : calm create_future.
Proof.
  intros w. split; [by apply grows_same|]. repeat split; try done.
  intros i a Ha. exists a. split; [done|apply quiet_actor_refl].
Qed.

Lemma calm_resolve fut r : calm (resolve fut r).
Proof.
  intros w. unfold resolve. destruct (futures w !! fut) as [f|]; [|apply quiet_refl].
  destruct (Future_resolve f r) as [f' res]. simpl.
  split; [by apply grows_same|]. repeat split; try done.
  intros i a Ha. exists a. split; [done|apply quiet_actor_refl].
Qed.

Lemma calm_deepcopy_envelope envelope : calm (deepcopy_envelope envelope).
Proof.
  intros w. unfold deepcopy_envelope.
  destruct (deepcopy _ _ _) as [[v [memo h]]|e] eqn:Hcopy; [|apply quiet_refl].
  destruct (deepcopy_message _ _ _ _ _ _ Hcopy) as (args & ext & -> & -> & _). simpl.
  split; [by exists ext|]. repeat split; try done.
  intros i a Ha. exists a. split; [done|apply quiet_actor_refl].
Qed.

Ltac calm_step :=
  first
    [ apply calm_ret | apply calm_raise | apply calm_read
    | apply calm_lift | apply calm_log_call
    | apply calm_the_actor | apply calm_the_core | apply calm_uuid4
    | apply calm_create_future | apply calm_resolve | apply calm_deepcopy_envelope
    | apply calm_update_actor; intros ?; by repeat split
    | apply calm_attempt
    | apply calm_bind; [|intros ?] ].

(** *** Posting and user code are quiet *)

Lemma calm_post self envelope : calm (post self envelope).
Proof. unfold post. repeat calm_step. Qed.

Lemma calm_tell_me self m : calm (tell_me self m).
Proof. unfold tell_me. repeat calm_step. Qed.

Lemma calm_tell proxy context m reply_to : calm (tell proxy context m reply_to).
Proof. unfold tell. repeat calm_step. Qed.

Lemma calm_Service_stop self : calm (Service_stop self).
Proof. unfold Service_stop. repeat calm_step. Qed.

Lemma calm_exec_stmt self s : calm (exec_stmt self s).
Proof.
  destruct s; simpl; repeat calm_step.
  destruct (_ !! _); repeat calm_step.
Qed.

Lemma calm_exec self body : calm (exec self body).
Proof.
  induction body as [|s body IH]; simpl; [apply calm_ret|].
  apply calm_bind; [apply calm_exec_stmt|intros _; exact IH].
Qed.

Lemma calm_call self p : calm (call self p).
Proof. unfold call. apply calm_bind; [apply calm_exec|intros _; apply calm_ret]. Qed.

Lemma calm_tell_all context proxies : calm (tell_all context proxies).
Proof.
  induction proxies as [|p proxies IH]; simpl; [apply calm_ret|].
  apply calm_bind; [apply calm_tell|intros _; exact IH].
Qed.

Lemma calm_get_proxy self context actor_id : calm (get_proxy self context actor_id).
Proof. unfold get_proxy. repeat calm_step. destruct (_ !! _); repeat calm_step. Qed.

Lemma calm_get_proxies self context ids : calm (get_proxies self context ids).
Proof.
  induction ids as [|i ids IH]; simpl; [apply calm_ret|].
  apply calm_bind; [apply calm_get_proxy|intros p].
  apply calm_bind; [exact IH|intros ps; apply calm_ret].
Qed.

Lemma calm_core_log self level : calm (core_log self level).
Proof. unfold core_log. repeat calm_step. destruct (core_context _); repeat calm_step. Qed.

Lemma calm_assert_running self msg : calm (_assert_running self msg).
Proof. unfold _assert_running. repeat calm_step. destruct (negb _); repeat calm_step. Qed.

(** *** The cores and the workers let the store evolve *)

Lemma evolves_update_actor_at w self a f :
  actors w !! self = Some a -> actor_evolves a (f a) ->
  evolves w (with_actors (alter f self (actors w)) w).
Proof.
  intros Ha Hf. split; [by apply grows_same|]. repeat split; simpl; [|].
  - intros n c Hc. by exists c.
  - intros i b Hb. destruct (decide (self = i)) as [->|Hne].
    + exists (f b). rewrite list_lookup_alter_eq, Hb. split; [done|]. congruence.
    + exists b. rewrite list_lookup_alter_ne by done. split; [done|apply actor_evolves_refl].
Qed.

Lemma sound_update_actor self f :
  (forall a, actor_evolves a (f a)) -> sound (update_actor self f).
Proof.
  intros Hf w. split; [by apply grows_same|]. repeat split; simpl; [|].
  - intros n c Hc. by exists c.
  - intros i b Hb. destruct (decide (self = i)) as [->|Hne].
    + exists (f b). by rewrite list_lookup_alter_eq, Hb.
    + exists b. rewrite list_lookup_alter_ne by done. split; [done|apply actor_evolves_refl].
Qed.

Lemma evolves_update_core w n f :
  (forall c, cores w !! n = Some c -> _running c = false -> f c = c) ->
  evolves w (with_cores (alter f n (cores w)) w).
Proof.
  intros Hf. split; [by apply grows_same|]. repeat split; simpl; [|].
  - intros m c Hc. destruct (decide (n = m)) as [->|Hne].
    + exists (f c). rewrite list_lookup_alter_eq, Hc. split; [done|]. by apply Hf.
    + exists c. by rewrite list_lookup_alter_ne.
  - intros i a Ha. exists a. split; [done|apply actor_evolves_refl].
Qed.

Lemma sound_worker_done self r : sound (worker_done self r).
Proof.
  apply sound_update_actor. intros a. repeat split; try done.
Qed.

Lemma sound_remove_actor self actor_id : sound (remove_actor self actor_id).
Proof.
  intros w. destruct self as [n].
  unfold remove_actor, _assert_running, core_log, log_call, lift, the_core, the_actor,
    update_core, update, mbind, raise, ret, dangling.
  destruct (cores w !! n) as [c|] eqn:Hc; [|apply evolves_refl].
  destruct (_running c) eqn:Hr; simpl; [|apply evolves_refl].
  rewrite Hc. destruct (_actors c !! actor_id) as [actor|].
  - destruct (actors w !! actor) as [a|]; [|apply evolves_refl].
    destruct (negb (is_shutdown a)); [apply evolves_refl|].
    apply evolves_update_core. intros c' Hc' Hr'. congruence.
  - rewrite Hc. destruct (core_context c); apply evolves_refl.
Qed.

Lemma sound_serve_finally self pending : sound (serve_finally self pending).
Proof.
  unfold serve_finally. apply sound_bind.
  { apply sound_update_actor. intros a. by repeat split. }
  intros _. apply sound_bind.
  - apply sound_attempt. apply sound_bind; [apply calm_sound, calm_the_actor|].
    intros a. destruct (_core _); [apply sound_remove_actor|apply sound_raise].
  - intros r. apply sound_worker_done.
Qed.

Lemma keeps_of_calm {A} (P : World -> Prop) (c : M A) :
  (forall w w', quiet w w' -> P w -> P w') -> calm c -> keeps P c.
Proof.
  intros HP Hc w Hw. specialize (Hc w). destruct (c w) as [w' [a|e]]; by eapply HP.
Qed.

Lemma keeps_of_sound {A} w0 (c : M A) : sound c -> keeps (evolves w0) c.
Proof.
  intros Hc w Hw. specialize (Hc w).
  destruct (c w) as [w' [a|e]]; by eapply evolves_trans.
Qed.

Lemma sound_of_keeps {A} (c : M A) : (forall w0, keeps (evolves w0) c) -> sound c.
Proof.
  intros Hc w. specialize (Hc w w (evolves_refl w)). by destruct (c w) as [w' [a|e]].
Qed.

Lemma unstarted_quiet self w w' : quiet w w' -> unstarted self w -> unstarted self w'.
Proof.
  intros (_ & _ & _ & _ & Hq) (a & Ha & Hs). destruct (Hq self a Ha) as (a' & Ha' & Hqa).
  exists a'. split; [done|]. destruct Hqa as (_ & _ & _ & _ & _ & _ & Ht).
  unfold started in *. by rewrite Ht.
Qed.

(** Before its worker has run, an actor may change in any field but
    its class, id and context. *)
Lemma unstarted_update self f w0 :
  (forall a, _class (f a) = _class a /\ _actor_id (f a) = _actor_id a
             /\ _context (f a) = _context a /\ _task (f a) = _task a) ->
  keeps (fun w => evolves w0 w /\ unstarted self w) (update_actor self f).
Proof.
  intros Hf w [Hw (a & Ha & Hs)]. simpl. split.
  - eapply evolves_trans; [exact Hw|]. eapply evolves_update_actor_at; [exact Ha|].
    destruct (Hf a) as (? & ? & ? & ?). repeat split; try done; congruence.
  - exists (f a). simpl. rewrite list_lookup_alter_eq, Ha. split; [done|].
    destruct (Hf a) as (_ & _ & _ & Ht). unfold started in *. by rewrite Ht.
Qed.

Lemma sound_wait_for_work self : sound (wait_for_work self).
Proof.
  unfold wait_for_work. apply sound_bind; [apply calm_sound, calm_the_actor|]. intros a.
  apply sound_bind; [apply sound_attempt, calm_sound, calm_log_call|].
  intros [u|e]; [|apply sound_serve_finally].
  apply sound_update_actor. intros b. by repeat split.
Qed.

Lemma unstarted_do_init self w0 l :
  keeps (fun w => evolves w0 w /\ unstarted self w) (do_init self l).
Proof.
  induction l as [|s l IH]; [apply keeps_ret|].
  simpl. apply keeps_bind; [|intros _; exact IH].
  destruct s as [level| |e]; simpl.
  - apply keeps_bind; [apply keeps_the_actor|intros b; apply keeps_log_call].
  - apply unstarted_update. intros b. by repeat split.
  - apply unstarted_update. intros b. by repeat split.
Qed.

Lemma serve_start_evolves self w0 :
  triple (fun w => evolves w0 w /\ unstarted self w) (serve_start self)
    (fun _ => evolves w0) (fun _ => evolves w0).
Proof.
  unfold serve_start.
  apply triple_seq; [apply keeps_the_actor|tauto|]. intros a.
  apply triple_seq; [|tauto|].
  { apply unstarted_update. intros b. by repeat split. }
  intros _. apply triple_seq; [apply keeps_read|tauto|]. intros h.
  apply triple_seq; [|tauto|].
  { apply keeps_attempt, keeps_of_calm; [|apply calm_call].
    intros w w' Hq [Hw Hs]. split; [|by eapply unstarted_quiet].
    eapply evolves_trans; [exact Hw|by apply quiet_evolves]. }
  intros r. apply triple_seq; [apply keeps_attempt, unstarted_do_init|tauto|].
  intros [u|e'].
  - destruct r as [v|e].
    + eapply triple_weaken; [apply (keeps_of_sound w0), sound_wait_for_work|..];
        simpl; tauto.
    + eapply triple_weaken; [apply (keeps_of_sound w0), sound_serve_finally|..];
        simpl; tauto.
  - eapply triple_weaken; [apply (keeps_of_sound w0), sound_serve_finally|..]; simpl; tauto.
Qed.

Lemma sound_dispatch self a envelope tracker : sound (dispatch self a envelope tracker).
Proof.
  unfold dispatch. apply sound_bind; [apply calm_sound, calm_log_call|]. intros _.
  destruct (Router.match_ _ _) as [handler|].
  - apply sound_bind; [apply calm_sound, calm_read|]. intros h.
    apply sound_bind.
    + apply sound_attempt, calm_sound. apply calm_bind; [apply calm_log_call|].
      intros _. apply calm_bind; [apply calm_call|].
      intros v. apply calm_resolve.
    + intros [v|e]; [apply sound_ret|].
      destruct (is_Exception _); [|apply sound_raise].
      apply calm_sound, calm_bind; [apply calm_log_call|intros _; apply calm_resolve].
  - apply calm_sound, calm_bind; [apply calm_log_call|intros _; apply calm_resolve].
Qed.

Lemma sound_stop_exit self a : sound (stop_exit self a).
Proof.
  unfold stop_exit. apply sound_bind; [apply sound_attempt, calm_sound, calm_log_call|].
  intros l. apply sound_serve_finally.
Qed.

Lemma sound_serve_step self late_stop : sound (serve_step self late_stop).
Proof.
  unfold serve_step. apply sound_bind; [apply calm_sound, calm_the_actor|]. intros a.
  destruct (_queue a) as [|[envelope tracker] rest].
  - destruct (is_set _); [apply sound_stop_exit|apply sound_ret].
  - apply sound_bind.
    { apply calm_sound, calm_update_actor. intros b. by repeat split. }
    intros _. destruct (_ && _); [apply sound_stop_exit|].
    apply sound_bind; [apply sound_attempt, sound_dispatch|].
    intros [v|e]; [apply sound_wait_for_work|apply sound_serve_finally].
Qed.

Lemma sound_run_task self late_stop : sound (run_task self late_stop).
Proof.
  apply sound_of_keeps. intros w0. unfold run_task.
  eapply triple_bind.
  { apply (triple_the_actor (evolves w0) self
             (fun a w => evolves w0 w /\ actors w !! self = Some a) (fun _ => evolves w0));
      auto. }
  intros a. destruct (_task a) eqn:Ht.
  - apply triple_ret. tauto.
  - eapply triple_weaken; [apply (serve_start_evolves self w0)|..]; simpl; auto.
    intros w [Hw Ha]. split; [done|]. exists a. split; [done|].
    unfold started. by rewrite Ht.
  - eapply triple_weaken; [apply (keeps_of_sound w0), sound_serve_step|..]; simpl; tauto.
  - apply triple_ret. tauto.
Qed.

Lemma sound_Service_start self : sound (Service_start self).
Proof.
  apply sound_of_keeps. intros w0. unfold Service_start.
  eapply triple_bind.
  { apply (triple_the_actor (evolves w0) self
             (fun a w => evolves w0 w /\ actors w !! self = Some a) (fun _ => evolves w0));
      auto. }
  intros a. destruct (_task a) eqn:Ht; try (apply triple_raise; tauto).
  intros w [Hw Ha]. simpl. eapply evolves_trans; [exact Hw|].
  eapply evolves_update_actor_at; [exact Ha|].
  repeat split; try done. all: unfold started in *; by rewrite Ht in *.
Qed.

Lemma quiet_new_actor a w : evolves w (new_actor a w).1 /\ cores (new_actor a w).1 = cores w.
Proof.
  split; [|done]. split; [by apply grows_same|]. repeat split; simpl.
  - intros n c Hc. by exists c.
  - intros i b Hb. exists b. split; [|apply actor_evolves_refl].
    by apply lookup_app_l_Some.
Qed.

(** [_assert_running] returns only on a running core. *)
Lemma assert_running_triple (P : World -> Prop) self msg :
  triple P (_assert_running self msg) (fun _ w => P w /\ running self w) (fun _ => P).
Proof.
  intros w Hw. destruct self as [n]. unfold _assert_running, mbind, the_core.
  destruct (cores w !! n) as [c|] eqn:Hc; [|done].
  destruct (_running c) eqn:Hr; simpl; [|done]. split; [done|]. by exists c.
Qed.

Lemma running_quiet self w w' : quiet w w' -> running self w -> running self w'.
Proof. intros (_ & Hc & _) Hr. destruct self as [n]. simpl in *. by rewrite Hc. Qed.

Lemma evolves_update_core_running self f w :
  running self w -> evolves w (update_core self f w).1.
Proof.
  destruct self as [n]. intros (c & Hc & Hr). simpl.
  apply evolves_update_core. intros c' Hc' Hr'. congruence.
Qed.

Lemma sound_create_actor self callee actor_id cls log_bindings :
  sound (create_actor self callee actor_id cls log_bindings).
Proof.
  apply sound_of_keeps. intros w0. unfold create_actor.
  eapply triple_bind; [apply assert_running_triple|]. intros u. cbv beta.
  fold (evolved_running w0 self).
  assert (forall w w', quiet w w' -> evolved_running w0 self w -> evolved_running w0 self w')
    as HP.
  { intros w w' Hq [Hw Hr]. split; [|by eapply running_quiet].
    eapply evolves_trans; [exact Hw|by apply quiet_evolves]. }
  assert (forall (e : exc) w, evolved_running w0 self w -> evolves w0 w) as HE
    by (intros e w Hw; apply Hw).
  apply triple_seq; [by apply keeps_of_calm, calm_core_log|done|]. intros _.
  apply triple_seq; [by apply keeps_of_calm, calm_assert_running|done|]. intros _.
  apply triple_seq; [apply keeps_the_core|done|]. intros c.
  destruct (_actors c !! _) as [actor|];
    [apply triple_raise; intros w Hw; apply Hw|].
  apply triple_seq; [apply keeps_lift|done|]. intros context.
  apply triple_seq; [|done|].
  { intros w [Hw Hr]. destruct (quiet_new_actor
      (Actor_init cls context (_generate_actor_id (identity callee) actor_id)) w)
      as [He Hc].
    simpl. split; [by eapply evolves_trans|].
    destruct self as [n]. simpl in *. done. }
  intros actor. eapply triple_bind.
  { intros w [Hw Hr].
    pose proof (evolves_update_core_running self
      (fun c => mkCore (<[_generate_actor_id (identity callee) actor_id := actor]> (_actors c))
                  (_running c) (core_context c)) w Hr) as He.
    destruct self as [n]. simpl in *.
    instantiate (1 := fun _ => evolves w0). simpl.
    eapply evolves_trans; [exact Hw|exact He]. }
  intros u'. cbv beta.
  eapply triple_bind; [apply (keeps_of_sound w0), sound_Service_start|].
  intros u''. by apply triple_ret.
Qed.

Lemma sound_shutdown self : sound (shutdown self).
Proof.
  unfold shutdown. apply sound_bind; [apply calm_sound, calm_core_log|]. intros _.
  apply sound_bind.
  { intros w. destruct self as [n]. apply evolves_update_core.
    intros [acts r ctx] _ Hr. simpl in *. by subst r. }
  intros _. apply sound_bind; [apply calm_sound, calm_the_core|]. intros c.
  destruct (core_context c) as [context|]; [|apply sound_raise].
  apply sound_bind; [apply calm_sound, calm_get_proxies|]. intros proxies.
  apply calm_sound, calm_tell_all.
Qed.

(** Every event but a store into a list object lets the store evolve;
    every event leaves the cores and the actors settled. *)
Lemma step_evolves w e :
  match e with EvStore _ _ => True | _ => evolves w (step w e) end.
Proof.
  destruct e as [core callee actor_id cls log_bindings|actor envelope|actor m
                |proxy context m reply_to|actor|fut|actor late_stop|core actor_id|core
                |l items].
  - apply (sound_create_actor core callee actor_id cls log_bindings).
  - apply (calm_sound _ (calm_post actor envelope)).
  - apply (calm_sound _ (calm_tell_me actor m)).
  - apply (calm_sound _ (calm_tell proxy context m reply_to)).
  - apply (calm_sound _ (calm_Service_stop actor)).
  - simpl. split; [by apply grows_same|]. repeat split; simpl.
    + intros n c Hc. by exists c.
    + intros i a Ha. exists a. split; [done|apply actor_evolves_refl].
  - apply (sound_run_task actor late_stop).
  - apply (sound_remove_actor core actor_id).
  - apply (sound_shutdown core).
  - exact I.
Qed.

Lemma step_settled w e : settled w (step w e).
Proof.
  pose proof (step_evolves w e) as H. destruct e; try apply H.
  simpl. repeat split.
  - intros n c Hc. by exists c.
  - intros i a Ha. exists a. split; [done|apply actor_evolves_refl].
Qed.

Lemma run_settled schedule : forall w, settled w (run w schedule).
Proof.
  induction schedule as [|e schedule IH]; intros w; [apply settled_refl|].
  simpl. eapply settled_trans; [apply step_settled|apply IH].
Qed.

End RuntimeFacts.

(** ** An actor that serves has a logger *)

Module ServingFacts.
Import Py Messages Context Behaviour ActorClass Asyncio Runtime Spec Logic RuntimeFacts.
















Lemma calm_dispatch self a envelope tracker : calm (dispatch self a envelope tracker).
Proof.
  unfold dispatch. apply calm_bind; [apply calm_log_call|]. intros _.
  destruct (Router.match_ _ _) as [handler|].
  - apply calm_bind; [apply calm_read|]. intros h.
    apply calm_bind.
    + apply calm_attempt. apply calm_bind; [apply calm_log_call|].
      intros _. apply calm_bind; [apply calm_call|].
      intros v. apply calm_resolve.
    + intros [v|e]; [apply calm_ret|].
      destruct (is_Exception _); [|apply calm_raise].
      apply calm_bind; [apply calm_log_call|intros _; apply calm_resolve].
  - apply calm_bind; [apply calm_log_call|intros _; apply calm_resolve].
Qed.











End ServingFacts.

(** ** Trackers and their futures *)

Module TrackerFacts.
Import Py Messages Context Behaviour ActorClass Asyncio Runtime Spec Logic RuntimeFacts.

Lemma alter_absent {A} (f : A -> A) i (l : list A) : l !! i = None -> alter f i l = l.
Proof.
  revert i. induction l as [|x l IH]; intros [|i] Hi; try done.
  change (alter f (S i) (x :: l)) with (x :: alter f i l). by rewrite IH.
Qed.






Lemma untouched_new : untouched Future_new.
Proof. by left. Qed.

Lemma untouched_ok f : untouched f -> fut_ok f.
Proof. intros [->| ->]; [by left|by right; right]. Qed.


(** The store changed, the futures and the mailboxes did not. *)
Lemma tracked_same w0 held w w' :
  futures w' = futures w -> queued (actors w') = queued (actors w) ->
  tracked w0 held w -> tracked w0 held w'.
Proof.
  intros Hf Hq (H1 & H2 & H3 & H4). unfold tracked, lasting. by rewrite Hf, Hq.
Qed.










(** *** Every method keeps the invariant *)















Lemma tracked_of_calm_cores {A} w0 held (c : M A) :
  (forall w, futures (c w).1 = futures w /\ actors (c w).1 = actors w) ->
  keeps (tracked w0 held) c.
Proof.
  intros Hc w Hw. destruct (Hc w) as [Hf Ha]. destruct (c w) as [w' [a|e]]; simpl in *.
  all: eapply tracked_same; [| |exact Hw]; by rewrite ?Hf, ?Ha.
Qed.























(** *** What the loop does with the envelope it takes *)





Lemma bind_log_call {A} context level (k : unit -> M A) w :
  is_Some (_log context) -> mbind (log_call context level) k w = k tt w.
Proof. intros [l Hl]. unfold mbind, log_call, lift, logger_call. by rewrite Hl. Qed.


(** The end of a worker touches actors and cores only. *)
Section frame.
Variable P : World -> Prop.
Hypothesis P_actors : forall w acts, P w -> P (with_actors acts w).
Hypothesis P_cores : forall w cs, P w -> P (with_cores cs w).

Lemma frame_update_actor self f : keeps P (update_actor self f).
Proof. intros w Hw. by apply P_actors. Qed.

Lemma frame_update_core self f : keeps P (update_core self f).
Proof. destruct self as [n]. intros w Hw. by apply P_cores. Qed.

Lemma frame_remove_actor self actor_id : keeps P (remove_actor self actor_id).
Proof.
  unfold remove_actor, _assert_running, core_log.
  apply keeps_bind.
  { apply keeps_bind; [apply keeps_the_core|]. intros c.
    destruct (negb _); [apply keeps_raise|apply keeps_ret]. }
  intros _. apply keeps_bind; [apply keeps_the_core|]. intros c.
  destruct (_ !! _).
  - apply keeps_bind; [apply keeps_the_actor|]. intros a.
    destruct (negb _); [apply keeps_raise|apply frame_update_core].
  - apply keeps_bind; [apply keeps_the_core|]. intros c'.
    destruct (core_context c'); [apply keeps_log_call|apply keeps_raise].
Qed.

Lemma frame_serve_finally self pending : keeps P (serve_finally self pending).
Proof.
  unfold serve_finally, worker_done.
  apply keeps_bind; [apply frame_update_actor|]. intros _.
  apply keeps_bind; [|intros r; apply frame_update_actor].
  apply keeps_attempt, keeps_bind; [apply keeps_the_actor|]. intros a.
  destruct (_core _); [apply frame_remove_actor|apply keeps_raise].
Qed.


Lemma frame_stop_exit self a : keeps P (stop_exit self a).
Proof.
  unfold stop_exit. apply keeps_bind; [apply keeps_attempt, keeps_log_call|].
  intros l. apply frame_serve_finally.
Qed.

End frame.






End TrackerFacts.

(** ** The mailbox of an actor whose worker has ended *)

Module RetiredFacts.
Import Py Messages Context Behaviour ActorClass Asyncio Runtime Spec Logic RuntimeFacts.

Section retired.
Variable i : nat.
Variable r : pyresult unit.
Variable q : list (Envelope.t * EnvelopeTracker).




































End retired.
End RetiredFacts.

(** ** Asking through a proxy *)

Module ProxyFacts.
Import Py Messages Context Behaviour ActorClass Asyncio Runtime Spec Logic RuntimeFacts.
Import TrackerFacts.


(** [ask] up to its [await]: with a logger in the context it is
    [tell]; without one the first [context.debug] raises. *)
Lemma ask_is_tell proxy context m w :
  match _log context with
  | Some _ => ask proxy context m w = tell proxy context m None w
  | None =>
      ask proxy context m w
      = (w, Raise (mkExc AttributeError "'NoneType' object has no attribute 'debug'"))
  end.
Proof.
  unfold ask. destruct (_log context) as [l|] eqn:Hl.
  - rewrite bind_log_call by (by rewrite Hl). unfold mbind at 1.
    destruct (tell proxy context m None w) as [w' [tracker|e]]; [|done].
    by rewrite bind_log_call by (by rewrite Hl).
  - unfold mbind, log_call, lift, logger_call. by rewrite Hl.
Qed.

(** C6, as the claim states it, fails for a caller whose context was
    made without a logger: [ask] raises [AttributeError] at its first
    [context.debug] and tells nothing, where [tell] with the same
    context puts the envelope into the mailbox. *)
Lemma ask_without_logger :
  let proxy := mkProxy 0 "/echo" ∅ in
  let w := run (boot 100)
             [EvCreateActor (core_at 0) root_context "echo" EchoActor ∅; EvRun 0 false] in
  let context := __init__ "Context" (Some (core_at 0)) None "/caller" None ∅ in
  let m := mkMessage DataMessage_cls [VStr "test"] in
  ask proxy context m w
  = (w, Raise (mkExc AttributeError "'NoneType' object has no attribute 'debug'"))
  /\ (pending_of <$> actors w !! 0) = Some []
  /\ (exists tracker, (tell proxy context m None w).2 = Return tracker)
  /\ (pending_of <$> actors (tell proxy context m None w).1 !! 0) = Some [0].
Proof.
  cbn zeta.
  split;
    [exact (ask_is_tell (mkProxy 0 "/echo" ∅)
              (__init__ "Context" (Some (core_at 0)) None "/caller" None ∅)
              (mkMessage DataMessage_cls [VStr "test"]) _)|].
  split; [vm_compute; reflexivity|]. split; [eexists; vm_compute; reflexivity|].
  vm_compute. reflexivity.
Qed.



End ProxyFacts.

(** ** Every tracker is resolved at most once *)

Module ResolutionFacts.
Import Py Messages Context Behaviour ActorClass Asyncio Runtime Spec Logic RuntimeFacts.
Import TrackerFacts RetiredFacts.





End ResolutionFacts.

(** ** The envelope is copied when it is posted *)

Module PostFacts.
Import Py Messages Context Behaviour ActorClass Asyncio Runtime Spec Logic RuntimeFacts.
Import CopyFacts.

(** What a [tell] that returns has done. *)
Lemma tell_returns proxy context m reply_to w w1 tracker :
  tell proxy context m reply_to w = (w1, Return tracker) ->
  exists a args memo,
    actors w !! proxy_actor proxy = Some a
    /\ deepcopy (recursion_limit w) (to_value m) (∅, heap_of w)
       = Return (VMsg (msg_cls m) args, (memo, heap_of w1))
    /\ Envelope.message (tracker_envelope tracker) = mkMessage (msg_cls m) args
    /\ _fut tracker = length (futures w)
    /\ futures w1 = futures w ++ [Future_new]
    /\ actors w1
       = alter (fun a => with_queue (_queue a ++ [(tracker_envelope tracker, tracker)]) a)
           (proxy_actor proxy) (actors w).
Proof.
  unfold tell, post, mbind, uuid4, the_actor, deepcopy_envelope, create_future,
    update_actor, update, ret. simpl.
  destruct (actors w !! proxy_actor proxy) as [a|] eqn:Ha; [|done].
  destruct (deepcopy _ _ _) as [[v [memo h']]|e] eqn:Hcopy; [|done].
  destruct (deepcopy_message _ _ _ _ _ _ Hcopy) as (args & ext & -> & _).
  simpl. intros [= <- <-]. simpl. by exists a, args, memo.
Qed.

Lemma same_region_refl lo hi h : same_region lo hi h h.
Proof. by intros l Hl. Qed.

Lemma same_region_trans lo hi h1 h2 h3 :
  same_region lo hi h1 h2 -> same_region lo hi h2 h3 -> same_region lo hi h1 h3.
Proof. intros H12 H23 l Hl. by rewrite (H23 l Hl), (H12 l Hl). Qed.

(** No step of the runtime, and no store that spares the region,
    changes an object of the region. *)
Lemma region_kept_step lo hi w e :
  hi <= length (heap_of w) -> spares lo hi e ->
  hi <= length (heap_of (step w e)) /\ same_region lo hi (heap_of w) (heap_of (step w e)).
Proof.
  intros Hhi Hspares.
  assert (grows w (step w e) ->
          hi <= length (heap_of (step w e))
          /\ same_region lo hi (heap_of w) (heap_of (step w e))) as Hgrows.
  { intros [ext ->]. rewrite length_app. split; [lia|].
    intros l Hl. apply lookup_app_l. lia. }
  pose proof (step_evolves w e) as He.
  destruct e; try (apply Hgrows, He).
  simpl in *. rewrite length_insert. split; [done|].
  intros l' Hl'. apply list_lookup_insert_ne. intros ->. by apply Hspares.
Qed.

Lemma region_kept_run lo hi schedule : forall w,
  hi <= length (heap_of w) -> Forall (spares lo hi) schedule ->
  same_region lo hi (heap_of w) (heap_of (run w schedule)).
Proof.
  induction schedule as [|e schedule IH]; intros w Hhi Hs; [apply same_region_refl|].
  apply Forall_cons in Hs as [He Hs]. simpl.
  destruct (region_kept_step lo hi w e Hhi He) as [Hhi' Hsame].
  eapply same_region_trans; [exact Hsame|]. by apply IH.
Qed.

(** C5: [tell] puts a deep copy into the mailbox.  The copy is made
    of objects allocated by the call, so whatever the sender stores
    afterwards into the objects it has, the receiver observes the same
    message, and a handler that reads the store through its message
    runs the same statements and returns the same value. *)
Theorem tell_copies_message proxy context m reply_to w w1 tracker :
  tell proxy context m reply_to w = (w1, Return tracker) ->
  let copy := Envelope.message (tracker_envelope tracker) in
  let lo := length (heap_of w) in
  let hi := length (heap_of w1) in
  within lo hi (to_value copy)
  /\ (exists a, actors w1 !! proxy_actor proxy = Some a
                /\ last (_queue a) = Some (tracker_envelope tracker, tracker))
  /\ (forall schedule, Forall (spares lo hi) schedule ->
        (forall n, observe n (heap_of (run w1 schedule)) (to_value copy)
                   = observe n (heap_of w1) (to_value copy))
        /\ (forall body self context', reads_only_message body ->
              body self (heap_of (run w1 schedule)) context' copy
              = body self (heap_of w1) context' copy)).
Proof.
  intros Htell. cbn zeta.
  destruct (tell_returns _ _ _ _ _ _ _ Htell)
    as (a & args & memo & Ha & Hcopy & Hmsg & _ & _ & Hactors).
  destruct (deepcopy_message _ _ _ _ _ _ Hcopy) as (args' & ext & Hv & Hh & Hext & Hwithin).
  rewrite Hmsg. change (to_value (mkMessage (msg_cls m) args)) with (VMsg (msg_cls m) args).
  assert (forall schedule, Forall (spares (length (heap_of w)) (length (heap_of w1))) schedule ->
          forall n, observe n (heap_of (run w1 schedule)) (VMsg (msg_cls m) args)
                    = observe n (heap_of w1) (VMsg (msg_cls m) args)) as Hobserve.
  { intros schedule Hs n. apply observe_same_region with
      (lo := length (heap_of w)) (hi := length (heap_of w1)).
    - by apply region_kept_run.
    - intros l items Hl Hitems. rewrite Hh in Hitems.
      rewrite lookup_app_r in Hitems by lia.
      by apply (Forall_lookup_1 _ _ _ _ Hext Hitems).
    - done. }
  split; [done|]. split.
  - exists (with_queue (_queue a ++ [(tracker_envelope tracker, tracker)]) a).
    rewrite Hactors, list_lookup_alter_eq, Ha. simpl. split; [done|]. apply last_snoc.
  - intros schedule Hs. split; [by apply Hobserve|].
    intros body self context' Hbody. apply Hbody. by apply Hobserve.
Qed.

Lemma count_handler_reads_only_message :
  reads_only_message (Router.h_body count_handler).
Proof.
  intros self context [cls args] h h' Hobs. specialize (Hobs 2). simpl in Hobs.
  injection Hobs as Hargs. simpl. do 3 f_equal.
  destruct args as [|v args]; [done|]. simpl in Hargs. injection Hargs as Hv _.
  destruct v; try done. simpl in *.
  destruct (h !! l) as [items|], (h' !! l) as [items'|]; try done.
  injection Hv as Hmap. apply (f_equal length) in Hmap.
  by rewrite !length_map in Hmap.
Qed.

(** The sender tells a message that carries its list of two items,
    then appends a third: the receiver's copy has two, and the handler
    that counts them answers the same. *)
Lemma tell_copies_message_witness :
  let proxy := mkProxy 0 "/count" ∅ in
  let w := with_heap [[VInt 1; VInt 2]]
             (run (boot 100)
                [EvCreateActor (core_at 0) root_context "count" CountActor ∅;
                 EvRun 0 false]) in
  let m := mkMessage DataMessage_cls [VRef 0] in
  let appended := [EvStore 0 [VInt 1; VInt 2; VInt 3]] in
  exists w1 tracker,
    tell proxy root_context m None w = (w1, Return tracker)
    /\ Envelope.message (tracker_envelope tracker) = mkMessage DataMessage_cls [VRef 1]
    /\ observe 3 (heap_of (run w1 appended)) (to_value m)
       = Fields DataMessage_cls [Items 0 [Atom (VInt 1); Atom (VInt 2); Atom (VInt 3)]]
    /\ observe 3 (heap_of (run w1 appended))
         (to_value (Envelope.message (tracker_envelope tracker)))
       = Fields DataMessage_cls [Items 1 [Atom (VInt 1); Atom (VInt 2)]]
    /\ Router.h_body count_handler (mkSelf "/count" ∅ ∅) (heap_of (run w1 appended))
         root_context (Envelope.message (tracker_envelope tracker))
       = ([], VInt 2).
Proof.
  cbn zeta.
  set (proxy := mkProxy 0 "/count" ∅).
  set (w := with_heap [[VInt 1; VInt 2]]
              (run (boot 100)
                 [EvCreateActor (core_at 0) root_context "count" CountActor ∅;
                  EvRun 0 false])).
  set (m := mkMessage DataMessage_cls [VRef 0]).
  destruct (tell proxy root_context m None w) as [w1 r] eqn:Htell.
  assert (exists tracker,
            r = Return tracker
            /\ Envelope.message (tracker_envelope tracker) = mkMessage DataMessage_cls [VRef 1]
            /\ length (heap_of w) = 1 /\ length (heap_of w1) = 2
            /\ observe 3 (heap_of w1) (VMsg DataMessage_cls [VRef 1])
               = Fields DataMessage_cls [Items 1 [Atom (VInt 1); Atom (VInt 2)]]
            /\ observe 3 (heap_of (run w1 [EvStore 0 [VInt 1; VInt 2; VInt 3]])) (to_value m)
               = Fields DataMessage_cls
                   [Items 0 [Atom (VInt 1); Atom (VInt 2); Atom (VInt 3)]]
            /\ Router.h_body count_handler (mkSelf "/count" ∅ ∅) (heap_of w1)
                 root_context (mkMessage DataMessage_cls [VRef 1])
               = ([], VInt 2))
    as (tracker & -> & Hmsg & Hlo & Hhi & Hview & Hsender & Hcount).
  { assert (w1 = (tell proxy root_context m None w).1) as -> by (by rewrite Htell).
    assert (r = (tell proxy root_context m None w).2) as -> by (by rewrite Htell).
    eexists. split; [vm_compute; reflexivity|]. repeat split; vm_compute; reflexivity. }
  destruct (tell_copies_message proxy root_context m None w w1 tracker Htell)
    as (_ & _ & Hkept).
  destruct (Hkept [EvStore 0 [VInt 1; VInt 2; VInt 3]]) as [Hobserve Hbody].
  { constructor; [|constructor]. unfold spares. rewrite Hlo. lia. }
  exists w1, tracker. split; [done|]. split; [done|]. split; [done|]. split.
  - rewrite Hobserve, Hmsg. exact Hview.
  - rewrite (Hbody _ _ _ count_handler_reads_only_message), Hmsg. exact Hcount.
Defined.

End PostFacts.

(** ** The registry of a core *)

Module CoreFacts.
Import Py Messages Context Behaviour ActorClass Asyncio Runtime Spec Logic RuntimeFacts.

(** [remove_actor] on a core that is not running. *)
Lemma remove_actor_not_running w n c actor_id :
  cores w !! n = Some c -> _running c = false ->
  remove_actor (core_at n) actor_id w = (w, Raise (mkExc RuntimeError "Core is not running")).
Proof.
  intros Hc Hr. unfold remove_actor, _assert_running, the_core, mbind.
  rewrite Hc. simpl. by rewrite Hr.
Qed.

Lemma remove_actor_running w n c actor_id :
  cores w !! n = Some c -> _running c = true ->
  remove_actor (core_at n) actor_id w =
  match _actors c !! actor_id with
  | None =>
      (w, match core_context c ≫= _log with
          | Some _ => Return tt
          | None =>
              Raise (mkExc AttributeError "'NoneType' object has no attribute 'warning'")
          end)
  | Some actor =>
      match actors w !! actor with
      | None => dangling w
      | Some a =>
          if negb (is_shutdown a)
          then (w, Raise (mkExc ValueError "Actor {actor_id} is not shut down"))
          else (with_cores
                  (alter (fun c => mkCore (delete actor_id (_actors c)) (_running c)
                                     (core_context c)) n (cores w)) w,
                Return tt)
      end
  end.
Proof.
  intros Hc Hr. unfold remove_actor, _assert_running, core_log, the_core, the_actor, mbind.
  rewrite Hc. simpl. rewrite Hr. simpl. rewrite Hc.
  destruct (_actors c !! actor_id) as [actor|].
  - destruct (actors w !! actor) as [a|]; [|done]. by destruct (negb (is_shutdown a)).
  - rewrite Hc. destruct (core_context c) as [context|]; [|done].
    unfold log_call, lift, logger_call. simpl. by destruct (_log context).
Qed.

Lemma remove_actor_actors core actor_id w :
  actors (remove_actor core actor_id w).1 = actors w.
Proof.
  destruct core as [n]. destruct (cores w !! n) as [c|] eqn:Hc.
  - destruct (_running c) eqn:Hr.
    + rewrite (remove_actor_running w n c actor_id Hc Hr).
      unfold dangling, raise. repeat case_match; done.
    + by rewrite (remove_actor_not_running w n c actor_id Hc Hr).
  - unfold remove_actor, _assert_running, the_core, mbind. by rewrite Hc.
Qed.




(** The [finally] of [serve] against a core that is not running: the
    shutdown event is set, the removal raises, the entry stays. *)
Lemma serve_finally_not_running w self a n c pending :
  actors w !! self = Some a -> _core (_context a) = Some (core_at n) ->
  cores w !! n = Some c -> _running c = false ->
  let w' := (serve_finally self pending w).1 in
  cores w' = cores w
  /\ exists a', actors w' !! self = Some a' /\ is_shutdown a' = true
       /\ _task a' = Done (Raise (mkExc RuntimeError "Core is not running")).
Proof.
  intros Ha Hcore Hc Hr. cbn zeta.
  unfold serve_finally, mbind, attempt, update_actor, update, the_actor. simpl.
  rewrite list_lookup_alter_eq, Ha. simpl. rewrite Hcore.
  rewrite (remove_actor_not_running _ n c) by done. simpl.
  split; [done|]. eexists. rewrite list_lookup_alter_eq, list_lookup_alter_eq, Ha. simpl.
  split; [reflexivity|]. split; reflexivity.
Qed.

(** [Core.shutdown] stops the core and keeps its registry. *)
Lemma shutdown_stops w n c :
  cores w !! n = Some c ->
  exists c', cores (shutdown (core_at n) w).1 !! n = Some c'
             /\ _actors c' = _actors c
             /\ (is_Some (core_context c ≫= _log) -> _running c' = false).
Proof.
  intros Hc.
  set (rest := let! c := the_core (core_at n) in
               match core_context c with
               | None => raise (mkExc AttributeError
                                  "'NoneType' object has no attribute 'identity'")
               | Some context =>
                   let! proxies := get_proxies (core_at n) context
                                     (map fst (map_to_list (_actors c))) in
                   tell_all context proxies
               end).
  assert (calm rest) as Hrest.
  { apply calm_bind; [apply calm_the_core|]. intros c0.
    destruct (core_context c0); [|apply calm_raise].
    apply calm_bind; [apply calm_get_proxies|]. intros ps. apply calm_tell_all. }
  change (shutdown (core_at n)) with
    (core_log (core_at n) "info" ;;;
     update_core (core_at n) (fun c => mkCore (_actors c) false (core_context c)) ;;;
     rest).
  unfold core_log, mbind at 1 2, the_core at 1. rewrite Hc.
  destruct (core_context c) as [context|] eqn:Hctx;
    [|exists c; simpl; split; [done|]; split; [done|]; by intros [? ?]].
  unfold log_call, lift, logger_call. simpl.
  destruct (_log context) as [l|] eqn:Hl;
    [|exists c; simpl; split; [done|]; split; [done|]; by intros [? ?]].
  unfold mbind at 1, update_core, update.
  set (w1 := with_cores (alter _ n (cores w)) w).
  destruct (Hrest w1) as (_ & Hcs & _). rewrite Hcs.
  unfold w1. simpl. rewrite list_lookup_alter_eq, Hc. simpl.
  eexists. split; [reflexivity|]. split; [done|]. done.
Qed.

(** C9: [remove_actor] checks that the core runs before anything
    else.  On a core that is not running -- as [Core.shutdown] leaves
    it -- every call raises [RuntimeError] and changes nothing; the
    core then stays as it is under every schedule; and an actor of
    that core whose serve loop ends has its shutdown event set while
    its entry stays in the registry, the failed removal being what its
    task ends with. *)
Theorem registry_frozen_after_shutdown w n c :
  cores w !! n = Some c -> _running c = false ->
  (forall actor_id,
     remove_actor (core_at n) actor_id w
     = (w, Raise (mkExc RuntimeError "Core is not running")))
  /\ (forall schedule, cores (run w schedule) !! n = Some c)
  /\ (forall self a pending,
        actors w !! self = Some a -> _core (_context a) = Some (core_at n) ->
        let w' := (serve_finally self pending w).1 in
        cores w' !! n = Some c
        /\ exists a', actors w' !! self = Some a' /\ is_shutdown a' = true
             /\ _task a' = Done (Raise (mkExc RuntimeError "Core is not running"))).
Proof.
  intros Hc Hr. split; [|split].
  - intros actor_id. by apply (remove_actor_not_running w n c).
  - intros schedule. destruct (run_settled schedule w) as (_ & Hcores & _).
    destruct (Hcores n c Hc) as (c' & Hc' & Hsame). by rewrite Hc', (Hsame Hr).
  - intros self a pending Ha Hcore.
    destruct (serve_finally_not_running w self a n c pending Ha Hcore Hc Hr) as [Hcs Ha'].
    cbn zeta. by rewrite Hcs.
Qed.

(** The actor of [stopped_core]: registered, and still so after its
    loop has ended. *)
Lemma registry_frozen_after_shutdown_witness :
  let w := run stopped_core [EvRun 0 false; EvRun 0 false; EvRun 0 false] in
  remove_actor (core_at 0) "/dummy" stopped_core
    = (stopped_core, Raise (mkExc RuntimeError "Core is not running"))
  /\ ((cores w !! 0) ≫= (fun c => _actors c !! "/dummy")) = Some 0
  /\ (is_shutdown <$> actors w !! 0) = Some true.
Proof.
  cbn zeta.
  assert (exists c, cores stopped_core !! 0 = Some c /\ _running c = false
                    /\ _actors c !! "/dummy" = Some 0) as (c & Hc & Hr & Hd).
  { eexists. split; [vm_compute; reflexivity|]. split; vm_compute; reflexivity. }
  destruct (registry_frozen_after_shutdown stopped_core 0 c Hc Hr) as (Hrm & Hfrozen & _).
  split; [apply Hrm|]. split.
  - rewrite Hfrozen. exact Hd.
  - vm_compute. reflexivity.
Defined.

End CoreFacts.

(** ** Initialisation of an actor *)

Module InitFacts.
Import Py Messages Context Behaviour ActorClass Asyncio Runtime Spec Logic RuntimeFacts.













End InitFacts.

(** ** More about routers and class definitions *)

Module RouterLaws.
Import Py Messages Behaviour ActorClass Spec DictFacts RouterFacts.

(** The signature check compares the parameter names as sets. *)
Lemma keys_eq_spec (a b : list string) :
  Router.keys_eq a b = true <-> (forall x, x ∈ a <-> x ∈ b).
Proof.
  unfold Router.keys_eq. rewrite andb_true_iff, !forallb_forall. split.
  - intros [Hab Hba] x. split; intros Hx.
    + apply list_elem_of_In, Hab in Hx. by apply bool_decide_eq_true in Hx.
    + apply list_elem_of_In, Hba in Hx. by apply bool_decide_eq_true in Hx.
  - intros H. split; intros x Hx%list_elem_of_In; apply bool_decide_eq_true; by apply H.
Qed.

Lemma add_returns r cls f :
  cls_is_message cls = true ->
  Router.keys_eq (Router.h_parameters f) Router.MESSAGE_HANDLER_SIGNATURE = true ->
  Router.h_coroutine f = true ->
  Dict.get (cls_name cls) (Router._handled_messages_names r) = None ->
  Router.add r cls f
  = Return (Router.mkRouter
              (Dict.set cls f (Router._handlers r))
              (Dict.set (cls_name cls) cls (Router._handled_messages_names r))).
Proof.
  intros Hm Hs Hc Hn. unfold Router.add. rewrite Hm, Hs, Hc. simpl.
  apply contains_false in Hn. by rewrite Hn.
Qed.

Lemma add_raises_RuntimeError r cls f e :
  Router.add r cls f = Raise e -> exc_class e = RuntimeError.
Proof. unfold Router.add. repeat case_match; try done; by intros [= <-]. Qed.

(** X1: [Router.add] then [match] and [get_message_cls]: the new entry
    is found under its class and under its name, and every other
    class and name resolves as before. *)
Theorem router_add_round_trip r cls f r' :
  Router.add r cls f = Return r' ->
  (forall m, msg_cls m = cls -> Router.match_ r' m = Some f)
  /\ Router.get_message_cls r' (cls_name cls) = Return cls
  /\ (forall m, msg_cls m <> cls -> Router.match_ r' m = Router.match_ r m)
  /\ (forall name, name <> cls_name cls ->
        Router.get_message_cls r' name = Router.get_message_cls r name).
Proof.
  intros Hadd. pose proof (add_lookup _ _ _ _ cls Hadd) as Hcls.
  destruct (add_inv _ _ _ _ Hadd) as [_ ->]. split; [|split; [|split]].
  - intros m <-. unfold Router.match_. simpl. apply get_set_eq.
  - unfold Router.get_message_cls. simpl. by rewrite get_set_eq.
  - intros m Hne. unfold Router.match_. simpl. by apply get_set_ne.
  - intros name Hne. unfold Router.get_message_cls. simpl. by rewrite get_set_ne.
Qed.

Lemma router_add_round_trip_witness :
  exists r',
    Router.add Actor_router DummyMessage_cls dummy_message_handler = Return r'
    /\ Router.match_ r' (mkMessage DummyMessage_cls []) = Some dummy_message_handler
    /\ Router.get_message_cls r' "DummyMessage" = Return DummyMessage_cls
    /\ Router.match_ r' ShutdownMessage = Some handle_shutdown.
Proof.
  destruct (Router.add Actor_router DummyMessage_cls dummy_message_handler) as [r'|e] eqn:Hadd;
    [|by vm_compute in Hadd].
  destruct (router_add_round_trip _ _ _ _ Hadd) as (Hmatch & Hname & Hother & _).
  exists r'. split; [done|]. split; [by apply Hmatch|]. split; [exact Hname|].
  by rewrite Hother.
Defined.

(** X2: [Router.add] succeeds exactly when the class derives from
    [Message], the function's parameters are [self], [context] and
    [message] in any order, the function is a coroutine function and no
    class of that name is handled yet; every failure is a
    [RuntimeError]. *)
Theorem router_add_checks r cls f :
  ((exists r', Router.add r cls f = Return r') <->
   cls_is_message cls = true
   /\ (forall x, x ∈ Router.h_parameters f <-> x ∈ ["self"; "context"; "message"])
   /\ Router.h_coroutine f = true
   /\ Router.get_message_cls r (cls_name cls)
      = Raise (mkExc KeyError ("no handler for message: `" +:+ cls_name cls +:+ "`")))
  /\ (forall e, Router.add r cls f = Raise e -> exc_class e = RuntimeError).
Proof.
  split; [|apply add_raises_RuntimeError]. split.
  - intros [r' Hadd]. unfold Router.add in Hadd.
    destruct (cls_is_message cls); [|done]. simpl in Hadd.
    destruct (Router.keys_eq _ _) eqn:Hs; [|done]. simpl in Hadd.
    destruct (Router.h_coroutine f); [|done]. simpl in Hadd.
    destruct (Dict.contains _ _) eqn:Hc; [done|].
    apply contains_false in Hc. pose proof (proj1 (keys_eq_spec _ _) Hs) as Hs'.
    unfold Router.get_message_cls. by rewrite Hc.
  - intros (Hm & Hs & Hc & Hn). eexists. apply add_returns; try done.
    + by apply (proj2 (keys_eq_spec _ _)).
    + unfold Router.get_message_cls in Hn. by destruct (Dict.get _ _).
Qed.

(** A handler written with its parameters in another order passes
    the check; one that is not a coroutine function does not. *)
Lemma router_add_checks_witness :
  let reordered :=
    Router.mkHandler "f" ["message"; "self"; "context"] true (Some DummyMessage_cls)
      (fun _ _ _ _ => ([], VNone)) in
  let plain :=
    Router.mkHandler "g" ["self"; "context"; "message"] false (Some DummyMessage_cls)
      (fun _ _ _ _ => ([], VNone)) in
  (exists r', Router.add Actor_router DummyMessage_cls reordered = Return r')
  /\ (exists e, Router.add Actor_router DummyMessage_cls plain = Raise e
               /\ exc_class e = RuntimeError).
Proof.
  cbn zeta. split.
  - apply (router_add_checks Actor_router DummyMessage_cls). split; [done|].
    split; [|split; [done|reflexivity]].
    intros x. simpl. rewrite !elem_of_cons, !elem_of_nil. tauto.
  - set (plain := Router.mkHandler "g" ["self"; "context"; "message"] false
                    (Some DummyMessage_cls) (fun _ _ _ _ => ([], VNone))).
    exists (mkExc RuntimeError "function must be async"). split; [reflexivity|].
    exact (proj2 (router_add_checks Actor_router DummyMessage_cls plain) _ eq_refl).
Defined.

Lemma inherited_handler_found T bases base rb h :
  base ∈ bases -> class_router base = Some rb ->
  Dict.get T (Router._handlers rb) = Some h ->
  is_Some (inherited_handler T bases).
Proof.
  intros Hin Hrb Hh. induction bases as [|b bases IH]; [by apply elem_of_nil in Hin|].
  simpl. apply elem_of_cons in Hin as [<-|Hin].
  - rewrite Hrb, Hh. by eexists.
  - destruct (class_router b) as [r|]; [|by apply IH].
    destruct (Dict.get T (Router._handlers r)); [by eexists|by apply IH].
Qed.

(** X3: Subclassing never loses a message type: when the class statement
    succeeds, what some base handles the new class handles too, with
    a handler of its own or an inherited one. *)
Theorem subclass_keeps_handlers name bases dct router base rb (m : Message) :
  ActorMetaclass_new name bases dct = Return router ->
  base ∈ bases -> class_router base = Some rb ->
  is_Some (Router.match_ rb m) -> is_Some (Router.match_ router m).
Proof.
  unfold ActorMetaclass_new. intros (r1 & Hdecl & Hbases)%bind_Return Hin Hrb [h Hh].
  destruct (add_declared_lookup _ _ _ (msg_cls m) names_cover_new Hdecl) as [Hr1 H1].
  destruct (add_bases_lookup _ _ _ (msg_cls m) Hr1 Hbases) as [_ H2].
  unfold Router.match_ in *. rewrite H2.
  destruct (Dict.get (msg_cls m) (Router._handlers r1)); [by eexists|].
  by eapply inherited_handler_found.
Qed.

(** Every test actor answers a [ShutdownMessage]. *)
Lemma subclass_keeps_handlers_witness :
  is_Some ((class_router DummyActor) ≫= (fun r => Router.match_ r ShutdownMessage)).
Proof.
  assert (exists r, class_router DummyActor = Some r
                    /\ ActorMetaclass_new "DummyActor" [Actor]
                         [("dummy_message_handler", AFunc dummy_message_handler);
                          ("erring_message_handler", AFunc erring_message_handler)]
                       = Return r) as (r & Hr & Hnew).
  { eexists. split; reflexivity. }
  rewrite Hr. simpl.
  apply (subclass_keeps_handlers _ _ _ r Actor Actor_router ShutdownMessage Hnew).
  - apply elem_of_cons. by left.
  - reflexivity.
  - by eexists.
Defined.

(** *** Two handlers for one name in a class body *)

Lemma add_names_kept r cls f r' n :
  Router.add r cls f = Return r' ->
  is_Some (Dict.get n (Router._handled_messages_names r)) ->
  is_Some (Dict.get n (Router._handled_messages_names r')).
Proof.
  intros [_ ->]%add_inv Hn. simpl. destruct (decide (n = cls_name cls)) as [->|Hne].
  - rewrite get_set_eq. by eexists.
  - by rewrite get_set_ne.
Qed.

Lemma add_declared_names_kept methods : forall r r' n,
  add_declared methods r = Return r' ->
  is_Some (Dict.get n (Router._handled_messages_names r)) ->
  is_Some (Dict.get n (Router._handled_messages_names r')).
Proof.
  induction methods as [|[f|] rest IH]; intros r r' n; simpl.
  - by intros [= <-].
  - destruct (Router._handle f) as [cls|]; [|apply IH].
    intros (r1 & Hadd & Hrest)%bind_Return Hn.
    apply (IH _ _ _ Hrest). by eapply add_names_kept.
  - apply IH.
Qed.

Lemma add_declared_app l1 l2 r :
  add_declared (l1 ++ l2) r = bind (add_declared l1 r) (add_declared l2).
Proof.
  revert r. induction l1 as [|[f|] l1 IH]; intros r; simpl; [done| |apply IH].
  destruct (Router._handle f) as [cls|]; [|apply IH].
  destruct (Router.add r cls f) as [r1|e]; simpl; [apply IH|done].
Qed.

Lemma add_declared_raises methods : forall r e,
  add_declared methods r = Raise e -> exc_class e = RuntimeError.
Proof.
  induction methods as [|[f|] rest IH]; intros r e; simpl; [done| |apply IH].
  destruct (Router._handle f) as [cls|]; [|apply IH].
  destruct (Router.add r cls f) as [r1|e'] eqn:Hadd; simpl; [apply IH|].
  intros [= <-]. by eapply add_raises_RuntimeError.
Qed.

(** X4: A class body that registers two handlers for message classes of
    one name -- the same class twice, or two classes that share their
    [__name__] -- makes the class statement fail with [RuntimeError]. *)
Theorem class_body_name_clash name bases dct before f between g after cls cls' :
  Dict.values dct = before ++ AFunc f :: between ++ AFunc g :: after ->
  Router._handle f = Some cls -> Router._handle g = Some cls' ->
  cls_name cls' = cls_name cls ->
  exists e, ActorMetaclass_new name bases dct = Raise e /\ exc_class e = RuntimeError.
Proof.
  intros Hdct Hf Hg Hname.
  assert (exists e, add_declared (Dict.values dct) Router.new = Raise e
                    /\ exc_class e = RuntimeError) as (e & He & Hclass).
  { rewrite Hdct.
    destruct (add_declared (before ++ AFunc f :: between ++ AFunc g :: after) Router.new)
      as [r|e] eqn:Hall; [exfalso|exists e; split; [done|by eapply add_declared_raises]].
    rewrite add_declared_app in Hall. apply bind_Return in Hall as (r1 & _ & Hall).
    simpl in Hall. rewrite Hf in Hall. apply bind_Return in Hall as (r2 & Hadd & Hall).
    rewrite add_declared_app in Hall. apply bind_Return in Hall as (r3 & Hbetween & Hall).
    simpl in Hall. rewrite Hg in Hall. apply bind_Return in Hall as (r4 & Hadd' & _).
    apply add_inv in Hadd' as [Hfresh _]. apply contains_false in Hfresh.
    assert (is_Some (Dict.get (cls_name cls) (Router._handled_messages_names r2))) as Hn.
    { apply add_inv in Hadd as [_ ->]. simpl. rewrite get_set_eq. by eexists. }
    apply (add_declared_names_kept _ _ _ _ Hbetween) in Hn as [c Hc].
    rewrite Hname in Hfresh. congruence. }
  exists e. unfold ActorMetaclass_new. by rewrite He.
Qed.

(** [test_same_message_name]: two message classes named
    [DummyMessage]. *)
Lemma class_body_name_clash_witness :
  let other := mkMsgCls 20 "DummyMessage" true in
  let g := Router.mkHandler "A.g" ["self"; "context"; "message"] true (Some other)
             (fun _ _ _ _ => ([], VNone)) in
  exists e,
    ActorMetaclass_new "A" [Actor]
      [("f", AFunc dummy_message_handler); ("x", AOther); ("g", AFunc g)] = Raise e
    /\ exc_class e = RuntimeError.
Proof.
  cbn zeta.
  set (g := Router.mkHandler "A.g" ["self"; "context"; "message"] true
              (Some (mkMsgCls 20 "DummyMessage" true)) (fun _ _ _ _ => ([], VNone))).
  apply (class_body_name_clash "A" [Actor]
           [("f", AFunc dummy_message_handler); ("x", AOther); ("g", AFunc g)]
           [] dummy_message_handler [AOther] g []
           DummyMessage_cls (mkMsgCls 20 "DummyMessage" true)); reflexivity.
Defined.

End RouterLaws.

(** ** The generic timer when an await fails, and with a negative count *)

Module TimerLaws.
Import Py Messages Timer Spec TimerFacts.





(** X6: A negative [repetitions] is not unbounded: only [0] is replaced
    by [float('inf')].  The loop is never entered; the timer tells
    once if [now] is set, not at all otherwise, and returns. *)
Theorem generic_timer_negative cfg (extra : nat) :
  (repetitions cfg < 0)%Z ->
  let acts := delayed cfg ++ (if now cfg then [Tell (message cfg)] else []) in
  _generic_timer cfg (undisturbed (length acts + extra))
  = (acts, Finished (Return TimerDoneMessage)).
Proof.
  intros Hneg. cbn zeta.
  assert (after_delay cfg =
          if now cfg then Suspended (AtNow (Finite (repetitions cfg))) (Tell (message cfg))
          else Finished (Return TimerDoneMessage)) as Hafter.
  { unfold after_delay, loop.
    replace (repetitions cfg =? 0)%Z with false by (symmetry; apply Z.eqb_neq; lia).
    destruct (now cfg); [done|]. simpl.
    by replace (0 <? repetitions cfg)%Z with false by (symmetry; apply Z.ltb_ge; lia). }
  assert (forall n, run_from cfg (after_delay cfg)
                      (undisturbed (length (if now cfg then [Tell (message cfg)] else [])
                                    + n))
                    = ((if now cfg then [Tell (message cfg)] else []),
                       Finished (Return TimerDoneMessage))) as Hrun.
  { intros n. rewrite Hafter. destruct (now cfg); [|apply run_from_finished].
    cbn [length Nat.add]. rewrite undisturbed_S. cbn [run_from resume decrement loop].
    unfold loop. simpl.
    replace (0 <? repetitions cfg - 1)%Z with false by (symmetry; apply Z.ltb_ge; lia).
    by rewrite run_from_finished. }
  unfold _generic_timer, start, delayed.
  destruct (negb (Qeq_bool (delay cfg) 0)).
  - rewrite length_app. cbn [length app Nat.add]. rewrite undisturbed_S.
    cbn [run_from resume]. by rewrite Hrun.
  - apply Hrun.
Qed.

Lemma generic_timer_negative_witness :
  _generic_timer (mkTimerConfiguration TimerDoneMessage 1 0 false (-3)) (undisturbed 4)
  = ([], Finished (Return TimerDoneMessage))
  /\ _generic_timer (mkTimerConfiguration TimerDoneMessage 1 2 true (-3)) (undisturbed 4)
     = ([Sleep 2; Tell TimerDoneMessage], Finished (Return TimerDoneMessage)).
Proof.
  split.
  - apply (generic_timer_negative (mkTimerConfiguration TimerDoneMessage 1 0 false (-3)) 4).
    simpl. lia.
  - apply (generic_timer_negative (mkTimerConfiguration TimerDoneMessage 1 2 true (-3)) 2).
    simpl. lia.
Defined.

End TimerLaws.

(** ** Creating, finding and removing actors *)

Module CoreLaws.
Import Py Messages Context Behaviour ActorClass Asyncio Runtime Spec Logic RuntimeFacts.







Lemma get_proxy_lookup w n c callee actor_id :
  cores w !! n = Some c ->
  let id := _generate_actor_id (identity callee) actor_id in
  get_proxy (core_at n) callee actor_id w
  = match _actors c !! id with
    | Some actor => (w, Return (mkProxy actor id ∅))
    | None => (w, Raise (mkExc RuntimeError ("actor: `" +:+ id +:+ "` doesnt exist")))
    end.
Proof.
  intros Hc id. unfold get_proxy, mbind, the_core. rewrite Hc. fold id.
  by destruct (_actors c !! id).
Qed.

Lemma generate_actor_id_truthy base actor_id :
  PyStr.truthy (_generate_actor_id base actor_id) = true.
Proof.
  unfold _generate_actor_id, Pathlib.str.
  by destruct (Pathlib._format_parsed_parts _ _).
Qed.

Lemma created_identity callee id kwargs :
  PyStr.truthy id = true -> kw_identity kwargs = Some id ->
  identity (__call__ callee kwargs) = id.
Proof.
  intros Hid Hkw. unfold __call__, __init__, identity, get_or. simpl. rewrite Hkw.
  change (truthy id) with (PyStr.truthy id). by rewrite Hid.
Qed.


Lemma derive_context_identity callee id log_bindings context :
  PyStr.truthy id = true ->
  derive_context callee id log_bindings = Return context -> identity context = id.
Proof.
  intros Hid. unfold derive_context. destruct (lb_identity log_bindings); [done|].
  destruct (lb_log log_bindings) as [[l|[|] type_name]|]; try done.
  all: intros [= <-]; by apply created_identity.
Qed.





End CoreLaws.

(** ** Posting, the mailbox and the built-in handlers *)

Module ActorLaws.
Import Py Messages Context Behaviour ActorClass Asyncio Runtime Spec Logic RuntimeFacts.
Import CopyFacts TrackerFacts Terms.

(** [put_nowait((envelope, tracker))] on the mailbox of [self]. *)
Lemma post_returns self envelope w w1 tracker :
  post self envelope w = (w1, Return tracker) ->
  exists a args memo h',
    actors w !! self = Some a
    /\ deepcopy (recursion_limit w) (to_value (Envelope.message envelope)) (∅, heap_of w)
       = Return (VMsg (msg_cls (Envelope.message envelope)) args, (memo, h'))
    /\ tracker
       = mkTracker
           (Envelope.mk (Envelope.id envelope) (Envelope.sender envelope)
              (Envelope.receiver envelope)
              (mkMessage (msg_cls (Envelope.message envelope)) args)
              (Envelope.reply_to envelope))
           (length (futures w))
    /\ w1 = with_actors
              (alter (fun a => with_queue (_queue a ++ [(tracker_envelope tracker, tracker)]) a)
                 self (actors w))
              (with_futures (futures w ++ [Future_new]) (with_heap h' w)).
Proof.
  unfold post, mbind, the_actor, deepcopy_envelope, create_future, update_actor, update, ret.
  destruct (actors w !! self) as [a|] eqn:Ha; [|done].
  destruct (deepcopy _ _ _) as [[v [memo h']]|e] eqn:Hcopy; [|done].
  destruct (deepcopy_message _ _ _ _ _ _ Hcopy) as (args & ext & -> & _).
  simpl. intros [= <- <-]. by exists a, args, memo, h'.
Qed.

(** A [post] that raises has changed nothing. *)
Lemma post_raises self envelope w w1 e :
  post self envelope w = (w1, Raise e) -> w1 = w.
Proof.
  unfold post, mbind, the_actor, deepcopy_envelope, create_future, update_actor, update, ret.
  destruct (actors w !! self) as [a|] eqn:Ha; [|by intros [= <-]].
  destruct (deepcopy _ _ _) as [[v [memo h']]|e'] eqn:Hcopy; [|by intros [= <-]].
  destruct (deepcopy_message _ _ _ _ _ _ Hcopy) as (args & ext & -> & _). done.
Qed.

(** X9: [ActorProxy.tell] stamps the envelope: the sender is the
    identity of the caller's context, the receiver the id of the
    proxy, [reply_to] and the message class are as given; the context
    a handler is called with for that envelope has the receiving
    actor's identity, and its [sender] is the caller's identity. *)
Theorem tell_stamps_envelope proxy context m reply_to w w1 tracker :
  tell proxy context m reply_to w = (w1, Return tracker) ->
  let envelope := tracker_envelope tracker in
  Envelope.sender envelope = identity context
  /\ Envelope.receiver envelope = proxy_actor_id proxy
  /\ Envelope.reply_to envelope = reply_to
  /\ msg_cls (Envelope.message envelope) = msg_cls m
  /\ (forall own : Context,
        let handling := __call__ own (mkKwargs None None None (Some envelope) ∅) in
        Context.sender handling = Return (identity context)
        /\ identity handling = identity own
        /\ _envelope handling = Some envelope).
Proof.
  unfold tell, mbind at 1, uuid4. intros Hpost.
  apply post_returns in Hpost as (a & args & memo & h' & _ & _ & -> & _).
  cbn zeta. simpl. repeat split.
Qed.

Lemma tell_stamps_envelope_witness :
  let proxy := mkProxy 0 "/echo" ∅ in
  let w := run (boot 100) [EvCreateActor (core_at 0) root_context "echo" EchoActor ∅] in
  let caller := __call__ root_context (mkKwargs None None (Some "/caller") None ∅) in
  exists w1 tracker,
    tell proxy caller (mkMessage DataMessage_cls [VStr "x"]) (Some "/other") w
    = (w1, Return tracker)
    /\ Envelope.sender (tracker_envelope tracker) = "/caller"
    /\ Envelope.receiver (tracker_envelope tracker) = "/echo"
    /\ Envelope.reply_to (tracker_envelope tracker) = Some "/other".
Proof.
  cbn zeta.
  set (proxy := mkProxy 0 "/echo" ∅).
  set (w := run (boot 100) [EvCreateActor (core_at 0) root_context "echo" EchoActor ∅]).
  set (caller := __call__ root_context (mkKwargs None None (Some "/caller") None ∅)).
  destruct (tell proxy caller (mkMessage DataMessage_cls [VStr "x"]) (Some "/other") w)
    as [w1 [tracker|e]] eqn:Htell; [|by vm_compute in Htell].
  destruct (tell_stamps_envelope _ _ _ _ _ _ _ Htell) as (Hs & Hr & Hy & _).
  exists w1, tracker. split; [done|]. split; [exact Hs|]. split; [exact Hr|exact Hy].
Defined.

(** *** The mailbox is a queue *)

Section mailbox.
Variable i : nat.
Variable q : list (Envelope.t * EnvelopeTracker).

Lemma mailbox_same w w' : actors w' = actors w -> mailbox_begins i q w -> mailbox_begins i q w'.
Proof. intros Ha (a & ? & ?). exists a. by rewrite Ha. Qed.

Lemma mailbox_update_actor self f :
  (forall a, _queue a `prefix_of` _queue (f a)) ->
  keeps (mailbox_begins i q) (update_actor self f).
Proof.
  intros Hf w (a & Ha & Hq). simpl. destruct (decide (i = self)) as [<-|Hne].
  - exists (f a). simpl. rewrite list_lookup_alter_eq, Ha. split; [done|]. by etransitivity.
  - exists a. simpl. by rewrite list_lookup_alter_ne.
Qed.

Lemma mailbox_of_actors {A} (c : M A) :
  (forall w, actors (c w).1 = actors w) -> keeps (mailbox_begins i q) c.
Proof.
  intros Hc w Hw. specialize (Hc w). destruct (c w) as [w' [a|e]]; simpl in *.
  all: by apply (mailbox_same w).
Qed.

Lemma mailbox_resolve fut x : keeps (mailbox_begins i q) (resolve fut x).
Proof.
  apply mailbox_of_actors. intros w. unfold resolve.
  destruct (futures w !! fut) as [f|]; [|done]. by destruct (Future_resolve f x).
Qed.

Lemma mailbox_post self envelope : keeps (mailbox_begins i q) (post self envelope).
Proof.
  intros w Hw. destruct (post self envelope w) as [w1 [tracker|e]] eqn:Hpost.
  - apply post_returns in Hpost as (a & args & memo & h' & _ & _ & _ & ->).
    apply (keeps_fst _ (update_actor self
             (fun a => with_queue (_queue a ++ [(tracker_envelope tracker, tracker)]) a))
             (with_futures (futures w ++ [Future_new]) (with_heap h' w))).
    + apply mailbox_update_actor. intros b. by apply prefix_app_r.
    + by apply (mailbox_same w).
  - by apply post_raises in Hpost as ->.
Qed.

Lemma mailbox_tell_me self m : keeps (mailbox_begins i q) (tell_me self m).
Proof.
  unfold tell_me. apply keeps_bind; [apply keeps_the_actor|]. intros a.
  apply keeps_bind; [by apply mailbox_of_actors|]. intros uid. apply mailbox_post.
Qed.

Lemma mailbox_exec_stmt self s : keeps (mailbox_begins i q) (exec_stmt self s).
Proof.
  destruct s; simpl.
  - apply mailbox_update_actor. by intros a.
  - apply keeps_bind; [apply mailbox_tell_me|]. intros _. apply keeps_ret.
  - apply keeps_log_call.
  - apply mailbox_update_actor. by intros a.
  - apply mailbox_update_actor. by intros a.
  - apply keeps_bind; [apply keeps_the_actor|]. intros a.
    destruct (_ !! _); [|apply keeps_raise]. apply mailbox_update_actor. by intros ?.
  - apply keeps_raise.
Qed.

Lemma mailbox_call self p : keeps (mailbox_begins i q) (call self p).
Proof.
  unfold call. apply keeps_bind; [|intros _; apply keeps_ret].
  induction (fst p) as [|s body IH]; simpl; [apply keeps_ret|].
  apply keeps_bind; [apply mailbox_exec_stmt|intros _; exact IH].
Qed.

Lemma mailbox_dispatch self a envelope tracker :
  keeps (mailbox_begins i q) (dispatch self a envelope tracker).
Proof.
  unfold dispatch. apply keeps_bind; [apply keeps_log_call|]. intros _.
  destruct (Router.match_ _ _) as [handler|].
  2:{ apply keeps_bind; [apply keeps_log_call|intros _; apply mailbox_resolve]. }
  apply keeps_bind; [apply keeps_read|]. intros h.
  apply keeps_bind.
  - apply keeps_attempt, keeps_bind; [apply keeps_log_call|]. intros _.
    apply keeps_bind; [apply mailbox_call|]. intros v. apply mailbox_resolve.
  - intros [u|e]; [apply keeps_ret|].
    destruct (is_Exception _); [|apply keeps_raise].
    apply keeps_bind; [apply keeps_log_call|intros _; apply mailbox_resolve].
Qed.

Lemma mailbox_serve_finally self pending :
  keeps (mailbox_begins i q) (serve_finally self pending).
Proof.
  unfold serve_finally.
  apply keeps_bind; [apply mailbox_update_actor; by intros ?|]. intros _.
  apply keeps_bind; [|intros x; apply mailbox_update_actor; by intros ?].
  apply keeps_attempt, mailbox_of_actors. intros w.
  unfold mbind, the_actor. destruct (actors w !! self) as [a|]; [|done].
  destruct (_core _); [|done]. apply CoreFacts.remove_actor_actors.
Qed.

Lemma mailbox_wait_for_work self : keeps (mailbox_begins i q) (wait_for_work self).
Proof.
  unfold wait_for_work. apply keeps_bind; [apply keeps_the_actor|]. intros a.
  apply keeps_bind; [apply keeps_attempt, keeps_log_call|].
  intros [u|e]; [apply mailbox_update_actor; by intros ?|apply mailbox_serve_finally].
Qed.

End mailbox.

(** X10: The mailbox is served first in, first out: [tell] puts the
    envelope behind everything that waits, and a step of the loop
    takes the envelope at the head and leaves the others in their
    order, in front of whatever was told to the actor meanwhile. *)
Theorem mailbox_fifo w :
  (forall proxy context m reply_to w1 tracker,
     tell proxy context m reply_to w = (w1, Return tracker) ->
     exists a, actors w !! proxy_actor proxy = Some a
       /\ (_queue <$> actors w1 !! proxy_actor proxy)
          = Some (_queue a ++ [(tracker_envelope tracker, tracker)]))
  /\ (forall self a envelope tracker rest late_stop,
        actors w !! self = Some a -> _task a = Serving ->
        _queue a = (envelope, tracker) :: rest ->
        is_set (_stop_event a) && negb late_stop = false ->
        exists a' more, actors (step w (EvRun self late_stop)) !! self = Some a'
                        /\ _queue a' = rest ++ more).
Proof.
  split.
  - intros proxy context m reply_to w1 tracker Htell.
    destruct (PostFacts.tell_returns _ _ _ _ _ _ _ Htell)
      as (a & args & memo & Ha & _ & _ & _ & _ & ->).
    exists a. split; [done|]. by rewrite list_lookup_alter_eq, Ha.
  - intros self a envelope tracker rest late_stop Ha Ht Hqa Hstop.
    assert (mailbox_begins self rest (step w (EvRun self late_stop))) as (a' & Ha' & more & Hq).
    { simpl. unfold run_task, mbind at 1, the_actor at 1. rewrite Ha, Ht.
      unfold serve_step, mbind at 1, the_actor at 1. rewrite Ha, Hqa.
      unfold mbind at 1, update_actor at 1, update. rewrite Hstop.
      apply (keeps_fst (mailbox_begins self rest)
               (mbind (attempt (dispatch self a envelope tracker))
                  (fun r => match r with
                            | Return _ => wait_for_work self
                            | Raise e => serve_finally self (Raise e)
                            end))).
      - apply keeps_bind; [apply keeps_attempt, mailbox_dispatch|].
        intros [u|e]; [apply mailbox_wait_for_work|apply mailbox_serve_finally].
      - exists (with_queue rest a). simpl. by rewrite list_lookup_alter_eq, Ha. }
    by exists a', more.
Qed.

Lemma mailbox_fifo_witness :
  let proxy := mkProxy 0 "/dummy" ∅ in
  let w := run (boot 100)
             [EvCreateActor (core_at 0) root_context "dummy" DummyActor ∅;
              EvRun 0 false;
              EvTell proxy root_context (mkMessage DummyMessage_cls []) None;
              EvTell proxy root_context (mkMessage ErringMessage_cls []) None] in
  (pending_of <$> actors w !! 0) = Some [0; 1]
  /\ (pending_of <$> actors (step w (EvTell proxy root_context ShutdownMessage None)) !! 0)
     = Some [0; 1; 2]
  /\ exists a' more,
       actors (step w (EvRun 0 false)) !! 0 = Some a' /\ pending_of a' = [1] ++ more.
Proof.
  cbn zeta.
  set (proxy := mkProxy 0 "/dummy" ∅).
  set (w := run (boot 100)
              [EvCreateActor (core_at 0) root_context "dummy" DummyActor ∅;
               EvRun 0 false;
               EvTell proxy root_context (mkMessage DummyMessage_cls []) None;
               EvTell proxy root_context (mkMessage ErringMessage_cls []) None]).
  split; [vm_compute; reflexivity|]. split; [vm_compute; reflexivity|].
  destruct (mailbox_fifo w) as [_ Hstep].
  assert (exists a envelope tracker rest,
            actors w !! 0 = Some a /\ _task a = Serving
            /\ _queue a = (envelope, tracker) :: rest
            /\ is_set (_stop_event a) && negb false = false
            /\ pending_of (with_queue rest a) = [1])
    as (a & envelope & tracker & rest & Ha & Ht & Hqa & Hstop & Hrest).
  { do 4 eexists. split; [vm_compute; reflexivity|].
    split; [reflexivity|]. split; [reflexivity|]. split; reflexivity. }
  destruct (Hstep 0 a envelope tracker rest false Ha Ht Hqa Hstop) as (a' & more & Ha' & Hq').
  exists a', ((fun x => _fut x.2) <$> more). split; [exact Ha'|].
  unfold pending_of in *. simpl in Hrest. by rewrite Hq', fmap_app, Hrest.
Defined.

(** *** [Actor.handle_actlet_done] *)




(** *** [Actor.handle_shutdown] *)


Lemma serve_finally_unfold w self a pending :
  actors w !! self = Some a ->
  serve_finally self pending w
  = let w1 := with_actors
                (alter (fun a => with_shutdown_event (Event_set (_shutdown_event a)) a)
                   self (actors w)) w in
    let removal :=
      match _core (_context a) with
      | Some core => remove_actor core (_actor_id a) w1
      | None =>
          (w1, Raise (mkExc AttributeError
                        "'NoneType' object has no attribute 'remove_actor'"))
      end in
    worker_done self
      (match removal.2 with Raise e => Raise e | Return _ => pending end) removal.1.
Proof.
  intros Ha. unfold serve_finally, mbind at 1, update_actor at 1, update.
  cbn zeta. set (w1 := with_actors _ w).
  assert (actors w1 !! self
          = Some (with_shutdown_event (Event_set (_shutdown_event a)) a)) as Ha1
    by (unfold w1; simpl; by rewrite list_lookup_alter_eq, Ha).
  unfold mbind at 1, attempt. unfold mbind at 1, the_actor at 1. rewrite Ha1.
  cbn [_context _actor_id with_shutdown_event].
  destruct (_core (_context a)) as [core|]; [|done].
  by destruct (remove_actor core (_actor_id a) w1) as [w2 [u|e]].
Qed.









End ActorLaws.

(** ** The life of an actor object *)

Module LifecycleFacts.
Import Py Messages Context Behaviour ActorClass Asyncio Runtime Spec Logic RuntimeFacts.
Import Terms ActorLaws.

Lemma advances_refl w : advances w w.
Proof.
  split; [done|]. intros i a' Ha'. by rewrite Ha'.
Qed.

Lemma advances_trans w1 w2 w3 : advances w1 w2 -> advances w2 w3 -> advances w1 w3.
Proof.
  intros [Hl12 H12] [Hl23 H23]. split; [lia|]. intros i a3 Ha3.
  specialize (H23 i a3 Ha3). destruct (actors w2 !! i) as [a2|] eqn:Ha2.
  - specialize (H12 i a2 Ha2). destruct (actors w1 !! i) as [a1|].
    + by etransitivity.
    + destruct H12 as (cls & context & actor_id & Hrtc).
      exists cls, context, actor_id. by etransitivity.
  - destruct (actors w1 !! i) as [a1|] eqn:Ha1; [|done].
    apply lookup_lt_Some in Ha1. apply lookup_ge_None in Ha2. lia.
Qed.

Lemma advances_same w w' : actors w' = actors w -> advances w w'.
Proof. intros Ha. split; [by rewrite Ha|]. intros i a' Ha'. rewrite Ha in Ha'. by rewrite Ha'. Qed.

Lemma advances_alter w self f :
  (forall a, rtc touches a (f a)) ->
  advances w (with_actors (alter f self (actors w)) w).
Proof.
  intros Hf. split; [simpl; by rewrite length_alter|]. intros i a'. simpl.
  destruct (decide (i = self)) as [->|Hne].
  - rewrite list_lookup_alter_eq. destruct (actors w !! self) as [a|]; [|done].
    simpl. intros [= <-]. apply Hf.
  - rewrite list_lookup_alter_ne by done. by intros ->.
Qed.

Lemma orderly_ret {A} (a : A) : orderly (ret a).
Proof. intros w. apply advances_refl. Qed.

Lemma orderly_raise {A} e : orderly (@raise A e).
Proof. intros w. apply advances_refl. Qed.

Lemma orderly_bind {A B} (c : M A) (k : A -> M B) :
  orderly c -> (forall a, orderly (k a)) -> orderly (mbind c k).
Proof.
  intros Hc Hk w. unfold mbind. specialize (Hc w).
  destruct (c w) as [w' [a|e]]; [|exact Hc].
  eapply advances_trans; [exact Hc|apply Hk].
Qed.

Lemma orderly_attempt {A} (c : M A) : orderly c -> orderly (attempt c).
Proof. intros Hc w. unfold attempt. specialize (Hc w). by destruct (c w). Qed.

Lemma orderly_of_actors {A} (c : M A) :
  (forall w, actors (c w).1 = actors w) -> orderly c.
Proof. intros Hc w. by apply advances_same. Qed.

Lemma orderly_the_actor self : orderly (the_actor self).
Proof. apply orderly_of_actors. intros w. unfold the_actor. by destruct (_ !! _). Qed.

Lemma orderly_the_core self : orderly (the_core self).
Proof.
  apply orderly_of_actors. intros w. destruct self as [n]. unfold the_core.
  by destruct (_ !! _).
Qed.

Lemma orderly_update_actor self f :
  (forall a, touches a (f a)) -> orderly (update_actor self f).
Proof. intros Hf w. apply advances_alter. intros a. apply rtc_once, Hf. Qed.

Lemma orderly_update_core self f : orderly (update_core self f).
Proof. destruct self as [n]. by apply orderly_of_actors. Qed.

Lemma orderly_resolve fut x : orderly (resolve fut x).
Proof.
  apply orderly_of_actors. intros w. unfold resolve.
  destruct (futures w !! fut) as [f|]; [|done]. by destruct (Future_resolve f x).
Qed.

Lemma orderly_post self envelope : orderly (post self envelope).
Proof.
  intros w. destruct (post self envelope w) as [w1 [tracker|e]] eqn:Hpost.
  - apply post_returns in Hpost as (a & args & memo & h' & _ & _ & _ & ->).
    eapply advances_trans;
      [|apply (advances_alter (with_futures (futures w ++ [Future_new]) (with_heap h' w)))].
    + by apply advances_same.
    + intros b. apply rtc_once, touch_queue.
  - apply post_raises in Hpost as ->. apply advances_refl.
Qed.

Lemma orderly_tell_me self m : orderly (tell_me self m).
Proof.
  unfold tell_me. apply orderly_bind; [apply orderly_the_actor|]. intros a.
  apply orderly_bind; [by apply orderly_of_actors|]. intros uid. apply orderly_post.
Qed.

Lemma orderly_tell proxy context m reply_to : orderly (tell proxy context m reply_to).
Proof.
  unfold tell. apply orderly_bind; [by apply orderly_of_actors|]. intros uid.
  apply orderly_post.
Qed.

Lemma orderly_Service_stop self : orderly (Service_stop self).
Proof. apply orderly_update_actor. intros a. apply touch_stop. Qed.

Lemma orderly_exec_stmt self s : orderly (exec_stmt self s).
Proof.
  destruct s; simpl.
  - apply orderly_update_actor. intros a. apply touch_attrs.
  - apply orderly_bind; [apply orderly_tell_me|]. intros _. apply orderly_ret.
  - by apply orderly_of_actors.
  - apply orderly_Service_stop.
  - apply orderly_update_actor. intros a. apply touch_actlets.
  - apply orderly_bind; [apply orderly_the_actor|]. intros a.
    destruct (_ !! _); [|apply orderly_raise].
    apply orderly_update_actor. intros b. apply touch_actlets.
  - apply orderly_raise.
Qed.

Lemma orderly_call self p : orderly (call self p).
Proof.
  unfold call. apply orderly_bind; [|intros _; apply orderly_ret].
  induction (fst p) as [|s body IH]; simpl; [apply orderly_ret|].
  apply orderly_bind; [apply orderly_exec_stmt|intros _; exact IH].
Qed.

Lemma orderly_tell_all context proxies : orderly (tell_all context proxies).
Proof.
  induction proxies as [|p proxies IH]; simpl; [apply orderly_ret|].
  apply orderly_bind; [apply orderly_tell|intros _; exact IH].
Qed.

Lemma orderly_get_proxies self context ids : orderly (get_proxies self context ids).
Proof.
  induction ids as [|x ids IH]; simpl; [apply orderly_ret|].
  apply orderly_bind.
  - unfold get_proxy. apply orderly_bind; [apply orderly_the_core|]. intros c.
    destruct (_ !! _); [apply orderly_ret|apply orderly_raise].
  - intros p. apply orderly_bind; [exact IH|intros ps; apply orderly_ret].
Qed.

Lemma orderly_log_call context level : orderly (log_call context level).
Proof. by apply orderly_of_actors. Qed.

Lemma orderly_core_log self level : orderly (core_log self level).
Proof.
  unfold core_log. apply orderly_bind; [apply orderly_the_core|]. intros c.
  destruct (core_context c); [apply orderly_log_call|apply orderly_raise].
Qed.

Lemma orderly_assert_running self msg : orderly (_assert_running self msg).
Proof.
  unfold _assert_running. apply orderly_bind; [apply orderly_the_core|]. intros c.
  destruct (negb _); [apply orderly_raise|apply orderly_ret].
Qed.

Lemma orderly_remove_actor self actor_id : orderly (remove_actor self actor_id).
Proof. apply orderly_of_actors. intros w. apply CoreFacts.remove_actor_actors. Qed.

(** The two updates of the [finally] are one touch: nothing comes
    between them that looks at the actor. *)
Lemma orderly_serve_finally self pending : orderly (serve_finally self pending).
Proof.
  intros w. destruct (actors w !! self) as [a|] eqn:Ha.
  - rewrite (serve_finally_unfold w self a pending Ha). cbn zeta.
    set (w1 := with_actors _ w).
    set (removal := match _core (_context a) with Some _ => _ | None => _ end).
    assert (actors removal.1 = actors w1) as Hsame.
    { unfold removal. destruct (_core (_context a)) as [core|]; [|done].
      apply CoreFacts.remove_actor_actors. }
    unfold worker_done, update_actor, update. simpl. rewrite Hsame. unfold w1. simpl.
    rewrite list_alter_alter_eq.
    split; [simpl; by rewrite length_alter|]. intros i a'. simpl.
    destruct (decide (i = self)) as [->|Hne].
    + rewrite list_lookup_alter_eq, Ha. simpl. intros [= <-]. apply rtc_once, touch_end.
    + rewrite list_lookup_alter_ne by done. by intros ->.
  - apply advances_same.
    unfold serve_finally, mbind, update_actor, update, attempt, the_actor, worker_done.
    simpl. rewrite !(TrackerFacts.alter_absent _ self (actors w) Ha), Ha. simpl.
    by rewrite (TrackerFacts.alter_absent _ self (actors w) Ha).
Qed.

Lemma orderly_wait_for_work self : orderly (wait_for_work self).
Proof.
  unfold wait_for_work. apply orderly_bind; [apply orderly_the_actor|]. intros a.
  apply orderly_bind; [apply orderly_attempt, orderly_log_call|].
  intros [u|e]; [|apply orderly_serve_finally].
  apply orderly_update_actor. intros b. apply touch_serving.
Qed.

Lemma orderly_do_init self l : orderly (do_init self l).
Proof.
  induction l as [|s l IH]; [apply orderly_ret|].
  simpl. apply orderly_bind; [|intros _; exact IH].
  destruct s as [level| |e]; simpl.
  - apply orderly_bind; [apply orderly_the_actor|intros b; apply orderly_log_call].
  - apply orderly_update_actor. intros b. apply touch_initialized.
  - apply orderly_update_actor. intros b. apply touch_failed.
Qed.

Lemma orderly_serve_start self : orderly (serve_start self).
Proof.
  unfold serve_start. apply orderly_bind; [apply orderly_the_actor|]. intros a.
  apply orderly_bind; [apply orderly_update_actor; intros b; apply touch_ready|]. intros _.
  apply orderly_bind; [by apply orderly_of_actors|]. intros h.
  apply orderly_bind; [apply orderly_attempt, orderly_call|]. intros x.
  apply orderly_bind; [apply orderly_attempt, orderly_do_init|].
  intros [u|e']; [|apply orderly_serve_finally].
  destruct x as [v|e]; [apply orderly_wait_for_work|apply orderly_serve_finally].
Qed.

Lemma orderly_dispatch self a envelope tracker : orderly (dispatch self a envelope tracker).
Proof.
  unfold dispatch. apply orderly_bind; [apply orderly_log_call|]. intros _.
  destruct (Router.match_ _ _) as [handler|].
  2:{ apply orderly_bind; [apply orderly_log_call|intros _; apply orderly_resolve]. }
  apply orderly_bind; [by apply orderly_of_actors|]. intros h.
  apply orderly_bind.
  - apply orderly_attempt, orderly_bind; [apply orderly_log_call|]. intros _.
    apply orderly_bind; [apply orderly_call|]. intros v.
    apply orderly_resolve.
  - intros [u|e]; [apply orderly_ret|].
    destruct (is_Exception _); [|apply orderly_raise].
    apply orderly_bind; [apply orderly_log_call|intros _; apply orderly_resolve].
Qed.

Lemma orderly_stop_exit self a : orderly (stop_exit self a).
Proof.
  unfold stop_exit. apply orderly_bind; [apply orderly_attempt, orderly_log_call|].
  intros l. apply orderly_serve_finally.
Qed.

Lemma orderly_serve_step self late_stop : orderly (serve_step self late_stop).
Proof.
  unfold serve_step. apply orderly_bind; [apply orderly_the_actor|]. intros a.
  destruct (_queue a) as [|[envelope tracker] rest].
  - destruct (is_set _); [apply orderly_stop_exit|apply orderly_ret].
  - apply orderly_bind; [apply orderly_update_actor; intros b; apply touch_queue|].
    intros _. destruct (_ && _); [apply orderly_stop_exit|].
    apply orderly_bind; [apply orderly_attempt, orderly_dispatch|].
    intros [v|e]; [apply orderly_wait_for_work|apply orderly_serve_finally].
Qed.

Lemma orderly_run_task self late_stop : orderly (run_task self late_stop).
Proof.
  unfold run_task. apply orderly_bind; [apply orderly_the_actor|]. intros a.
  destruct (_task a);
    [apply orderly_ret|apply orderly_serve_start|apply orderly_serve_step|apply orderly_ret].
Qed.

Lemma orderly_Service_start self : orderly (Service_start self).
Proof.
  unfold Service_start. apply orderly_bind; [apply orderly_the_actor|]. intros a.
  destruct (_task a); try apply orderly_raise.
  apply orderly_update_actor. intros b. apply touch_start.
Qed.

Lemma orderly_new_actor cls context actor_id :
  orderly (new_actor (Actor_init cls context actor_id)).
Proof.
  intros w. split; [simpl; rewrite length_app; lia|]. intros i a'. simpl.
  destruct (actors w !! i) as [a|] eqn:Ha.
  - rewrite (lookup_app_l_Some _ _ _ _ Ha). by intros [= <-].
  - rewrite lookup_app_r by (by apply lookup_ge_None).
    intros Hi. apply list_lookup_singleton_Some in Hi as [_ <-]. by eexists _, _, _.
Qed.

Lemma orderly_create_actor self callee actor_id cls log_bindings :
  orderly (create_actor self callee actor_id cls log_bindings).
Proof.
  unfold create_actor.
  apply orderly_bind; [apply orderly_assert_running|]. intros _.
  apply orderly_bind; [apply orderly_core_log|]. intros _.
  apply orderly_bind; [apply orderly_assert_running|]. intros _.
  apply orderly_bind; [apply orderly_the_core|]. intros c.
  destruct (_ !! _); [apply orderly_raise|].
  apply orderly_bind; [by apply orderly_of_actors|]. intros context'.
  apply orderly_bind; [apply orderly_new_actor|]. intros actor.
  apply orderly_bind; [apply orderly_update_core|]. intros _.
  apply orderly_bind; [apply orderly_Service_start|]. intros _. apply orderly_ret.
Qed.

Lemma orderly_shutdown self : orderly (shutdown self).
Proof.
  unfold shutdown.
  apply orderly_bind; [apply orderly_core_log|]. intros _.
  apply orderly_bind; [apply orderly_update_core|]. intros _.
  apply orderly_bind; [apply orderly_the_core|]. intros c.
  destruct (core_context c); [|apply orderly_raise].
  apply orderly_bind; [apply orderly_get_proxies|]. intros proxies.
  apply orderly_tell_all.
Qed.

Lemma step_advances w e : advances w (step w e).
Proof.
  destruct e as [core callee actor_id cls log_bindings|actor envelope|actor m
                |proxy context m reply_to|actor|fut|actor late_stop|core actor_id|core
                |l items].
  - apply (orderly_create_actor core callee actor_id cls log_bindings).
  - apply (orderly_post actor envelope).
  - apply (orderly_tell_me actor m).
  - apply (orderly_tell proxy context m reply_to).
  - apply (orderly_Service_stop actor).
  - by apply advances_same.
  - apply (orderly_run_task actor late_stop).
  - apply (orderly_remove_actor core actor_id).
  - apply (orderly_shutdown core).
  - by apply advances_same.
Qed.

Lemma run_advances schedule : forall w, advances w (run w schedule).
Proof.
  induction schedule as [|e schedule IH]; intros w; [apply advances_refl|].
  simpl. eapply advances_trans; [apply step_advances|apply IH].
Qed.

(** *** What the touches keep *)

Lemma touches_events_kept a a' : touches a a' -> events_kept a a'.
Proof.
  intros H. destruct H; by repeat split.
Qed.

Lemma rtc_touches_events_kept a a' : rtc touches a a' -> events_kept a a'.
Proof.
  induction 1 as [a|a b c Hab _ IH]; [by repeat split|].
  apply touches_events_kept in Hab.
  destruct Hab as (H1 & H2 & H3 & H4 & H5), IH as (I1 & I2 & I3 & I4 & I5).
  repeat split; auto.
Qed.

Lemma touches_ended_marked a a' : touches a a' -> ended_marked a -> ended_marked a'.
Proof.
  intros H Ha. destruct H; try (intros r' Hr'; by apply (Ha r')); try done.
  - intros r' Hr'. destruct (Ha r' Hr') as (? & ? & ?). by repeat split.
  - intros r' Hr'. destruct (Ha r' Hr') as (? & ? & ?). by repeat split.
Qed.

Lemma rtc_touches_ended_marked a a' : rtc touches a a' -> ended_marked a -> ended_marked a'.
Proof. induction 1 as [a|a b c Hab _ IH]; [done|]. intros Ha. by apply IH, (touches_ended_marked a). Qed.

Lemma ended_marked_init cls context actor_id :
  ended_marked (Actor_init cls context actor_id).
Proof. intros r Hr. by vm_compute in Hr. Qed.

(** X13: No event of an actor is ever cleared: under every schedule of
    runtime operations the actor object is still there, and each of
    its initialize, shutdown, stop, ready and done events that was set
    is still set. *)
Theorem events_stay_set w schedule i a :
  actors w !! i = Some a ->
  exists a', actors (run w schedule) !! i = Some a' /\ events_kept a a'.
Proof.
  intros Ha. destruct (run_advances schedule w) as [Hlen Hadv].
  destruct (actors (run w schedule) !! i) as [a'|] eqn:Ha'.
  2: { apply lookup_lt_Some in Ha. apply lookup_ge_None in Ha'. lia. }
  specialize (Hadv i a' Ha'). rewrite Ha in Hadv.
  exists a'. split; [done|]. by apply rtc_touches_events_kept.
Qed.

Lemma events_stay_set_witness :
  let w := run (boot 100)
             [EvCreateActor (core_at 0) root_context "dummy" DummyActor ∅; EvRun 0 false] in
  let schedule :=
    [EvTell (mkProxy 0 "/dummy" ∅) root_context ShutdownMessage None; EvStop 0;
     EvRun 0 false; EvRun 0 false] in
  exists a a',
    actors w !! 0 = Some a /\ is_set (_initialize_event a) = true
    /\ actors (run w schedule) !! 0 = Some a' /\ events_kept a a'.
Proof.
  cbn zeta.
  set (w := run (boot 100)
              [EvCreateActor (core_at 0) root_context "dummy" DummyActor ∅; EvRun 0 false]).
  assert (exists a, actors w !! 0 = Some a /\ is_set (_initialize_event a) = true)
    as (a & Ha & Hi).
  { eexists. split; [vm_compute; reflexivity|]. vm_compute. reflexivity. }
  destruct (events_stay_set w
              [EvTell (mkProxy 0 "/dummy" ∅) root_context ShutdownMessage None; EvStop 0;
               EvRun 0 false; EvRun 0 false] 0 a Ha) as (a' & Ha' & Hk).
  exists a, a'. split; [exact Ha|]. split; [exact Hi|]. split; [exact Ha'|exact Hk].
Defined.

(** X14: Wherever the worker of an actor has ended, the actor reports
    [is_shutdown] and the stop and ready events of its service are
    set: this holds of every actor after every schedule, when it holds
    before. *)
Theorem ended_task_is_marked w schedule :
  Forall ended_marked (actors w) ->
  Forall ended_marked (actors (run w schedule)).
Proof.
  intros Hw. apply Forall_lookup_2. intros i a' Ha'.
  destruct (run_advances schedule w) as [_ Hadv]. specialize (Hadv i a' Ha').
  destruct (actors w !! i) as [a|] eqn:Ha.
  - apply (rtc_touches_ended_marked a); [done|]. by apply (Forall_lookup_1 _ _ _ _ Hw Ha).
  - destruct Hadv as (cls & context & actor_id & Hadv).
    apply (rtc_touches_ended_marked _ _ Hadv), ended_marked_init.
Qed.

Lemma ended_task_is_marked_witness :
  let schedule :=
    [EvCreateActor (core_at 0) root_context "dummy" DummyActor ∅; EvRun 0 false;
     EvStop 0; EvRun 0 false] in
  Forall ended_marked (actors (boot 100))
  /\ Forall ended_marked (actors (run (boot 100) schedule)).
Proof.
  cbn zeta.
  assert (Forall ended_marked (actors (boot 100))) as H0 by constructor.
  split; [exact H0|]. exact (ended_task_is_marked (boot 100) _ H0).
Defined.

End LifecycleFacts.

(** ** Actor ids are canonical *)

Module IdLaws.
Import Py PyStr Pathlib Context Runtime Spec Terms PathFacts.

Lemma split_pieces s : Forall (fun x => contains_sep x = false) (split s).
Proof.
  induction s as [|c s IH]; simpl; [by repeat constructor|].
  destruct (Ascii.eqb c sep) eqn:Hc; [by constructor|].
  destruct (split s) as [|x xs]; [constructor; [simpl; by rewrite Hc|constructor]|].
  inversion IH as [|? ? Hx Hxs]; subst. constructor; [|done]. simpl. by rewrite Hc.
Qed.

Lemma part_names_segments rel : Forall (fun x => is_segment x = true) (part_names rel).
Proof.
  unfold part_names. destruct (contains_sep rel) eqn:Hs.
  - apply Forall_forall. intros x [Hk Hx]%list_elem_of_filter.
    apply list_elem_of_In, in_rev, list_elem_of_In in Hx.
    pose proof (proj1 (Forall_forall _ _) (split_pieces rel) x Hx) as Hn. simpl in Hn.
    unfold is_segment. rewrite Hn. by destruct (keep_name x).
  - destruct (keep_name rel) eqn:Hk; [|constructor].
    repeat constructor. unfold is_segment. by rewrite Hk, Hs.
Qed.

Lemma splitroot_root part :
  (splitroot part).1 = "" \/ (splitroot part).1 = "/" \/ (splitroot part).1 = "//".
Proof.
  unfold splitroot. destruct part as [|c s]; [by left|].
  destruct (Ascii.eqb c sep); [|by left].
  destruct (Nat.eqb _ 2); auto.
Qed.

Lemma splitroot_absolute part :
  startswith_sep part = true -> PyStr.truthy (splitroot part).1 = true.
Proof.
  unfold splitroot, startswith_sep. destruct part as [|c s]; [done|]. intros ->.
  by destruct (Nat.eqb _ 2).
Qed.

Lemma splitroot_relative part :
  startswith_sep part = false -> splitroot part = ("", part).
Proof.
  unfold splitroot, startswith_sep. destruct part as [|c s]; [done|]. by intros ->.
Qed.

(** What [parse_parts] makes of a single argument. *)
Lemma parse_parts_single x :
  parse_parts [x]
  = ((splitroot x).1,
     (if PyStr.truthy (splitroot x).1 then [(splitroot x).1] else [])
       ++ rev (part_names (splitroot x).2)).
Proof.
  unfold parse_parts. simpl rev at 1. destruct x as [|c s]; [done|].
  unfold parse_loop. rewrite truthy_cons. simpl negb. cbv iota.
  destruct (splitroot (String c s)) as [root rel]. simpl fst. simpl snd.
  destruct (PyStr.truthy root) eqn:Hr.
  - rewrite Hr. by rewrite rev_unit.
  - destruct root; [|done]. simpl. by rewrite app_nil_r.
Qed.

(** An absolute path as [str] prints it, parsed again. *)
Lemma parse_parts_printed root segs :
  root = "/" \/ root = "//" ->
  Forall (fun x => is_segment x = true) segs ->
  parse_parts [root +:+ join segs] = (root, root :: segs).
Proof.
  intros Hroot Hsegs. rewrite parse_parts_single.
  assert (splitroot (root +:+ join segs) = (root, join segs)) as ->.
  { destruct segs as [|x rest].
    - destruct Hroot as [-> | ->]; reflexivity.
    - destruct (join_head (x :: rest)) as (c & s & Hj & Hc); [done..|].
      rewrite Hj. destruct Hroot as [-> | ->]; unfold splitroot; simpl; rewrite Hc; simpl.
      + by replace (S (String.length s) - String.length s) with 1 by lia.
      + by replace (S (S (String.length s)) - String.length s) with 2 by lia. }
  simpl fst. simpl snd.
  assert (PyStr.truthy root = true) as -> by (by destruct Hroot as [-> | ->]).
  destruct segs as [|x rest]; [done|].
  rewrite part_names_join by done. by rewrite rev_involutive.
Qed.

Lemma truthy_root root : root = "/" \/ root = "//" -> PyStr.truthy root = true.
Proof. by intros [-> | ->]. Qed.

Lemma splitroot_absolute_root part :
  startswith_sep part = true -> (splitroot part).1 = "/" \/ (splitroot part).1 = "//".
Proof.
  intros H. pose proof (splitroot_absolute part H) as Ht.
  destruct (splitroot_root part) as [Hr|Hr]; [|done]. by rewrite Hr in Ht.
Qed.

Lemma str_printed root segs :
  root = "/" \/ root = "//" -> str (mkPath root (root :: segs)) = root +:+ join segs.
Proof.
  intros Hroot. unfold str, _format_parsed_parts. simpl.
  rewrite (truthy_root root Hroot). by destruct Hroot as [-> | ->].
Qed.

(** What [_generate_actor_id] returns when the base or the name is
    absolute: a root and segments that pathlib keeps as they are. *)
Lemma generate_actor_id_printed base actor_id :
  startswith_sep base || startswith_sep actor_id = true ->
  exists root segs,
    (root = "/" \/ root = "//") /\ Forall (fun x => is_segment x = true) segs
    /\ _generate_actor_id base actor_id = root +:+ join segs.
Proof.
  intros Habs. unfold _generate_actor_id, Path, truediv. rewrite !parse_parts_single.
  unfold join_parsed_parts. simpl _root. simpl _parts.
  destruct (startswith_sep actor_id) eqn:Hid.
  - pose proof (splitroot_absolute_root actor_id Hid) as Hroot.
    rewrite (truthy_root _ Hroot).
    exists (splitroot actor_id).1, (rev (part_names (splitroot actor_id).2)).
    split; [done|]. split; [apply Forall_rev, part_names_segments|].
    by apply str_printed.
  - rewrite orb_false_r in Habs. pose proof (splitroot_absolute_root base Habs) as Hroot.
    rewrite (splitroot_relative actor_id Hid). simpl.
    rewrite (truthy_root _ Hroot).
    exists (splitroot base).1, (rev (part_names (splitroot base).2) ++ rev (part_names actor_id)).
    split; [done|]. split; [apply Forall_app; split; apply Forall_rev, part_names_segments|].
    by apply (str_printed _ _ Hroot).
Qed.

Lemma generate_actor_id_fixed base actor_id B :
  startswith_sep base || startswith_sep actor_id = true ->
  startswith_sep (_generate_actor_id base actor_id) = true
  /\ _generate_actor_id B (_generate_actor_id base actor_id)
     = _generate_actor_id base actor_id.
Proof.
  intros Habs. destruct (generate_actor_id_printed base actor_id Habs)
    as (root & segs & Hroot & Hsegs & ->).
  split; [by destruct Hroot as [-> | ->]|].
  unfold _generate_actor_id at 1. unfold Path, truediv.
  rewrite (parse_parts_printed root segs Hroot Hsegs).
  destruct (parse_parts [B]) as [rootB partsB]. unfold join_parsed_parts.
  rewrite (truthy_root root Hroot). by apply str_printed.
Qed.

(** A relative name joined to a relative base stays relative. *)
Lemma generate_actor_id_relative base actor_id :
  startswith_sep base = false -> startswith_sep actor_id = false ->
  startswith_sep (_generate_actor_id base actor_id) = false.
Proof.
  intros Hb Hn. unfold _generate_actor_id, Path, truediv. rewrite !parse_parts_single.
  rewrite (splitroot_relative base Hb), (splitroot_relative actor_id Hn). simpl.
  unfold str, _format_parsed_parts. simpl.
  set (segs := rev (part_names base) ++ rev (part_names actor_id)).
  assert (Forall (fun x => is_segment x = true) segs) as Hsegs
    by (apply Forall_app; split; apply Forall_rev, part_names_segments).
  destruct segs as [|x rest] eqn:Hs; [done|].
  destruct (join_head (x :: rest)) as (c & t & Hj & Hc); [done..|].
  rewrite Hj. simpl. exact Hc.
Qed.

(** So an id that was generated and is absolute is canonical. *)
Lemma generated_absolute_fixed base name B :
  startswith_sep (_generate_actor_id base name) = true ->
  _generate_actor_id B (_generate_actor_id base name) = _generate_actor_id base name.
Proof.
  intros Habs. apply generate_actor_id_fixed.
  destruct (startswith_sep base) eqn:Hb; [done|].
  destruct (startswith_sep name) eqn:Hn; [done|].
  by rewrite (generate_actor_id_relative base name Hb Hn) in Habs.
Qed.

(** X15: An actor id made by [_generate_actor_id] from an absolute base, or
    from an absolute name, is canonical: it begins with the separator,
    joining it to any base whatever gives it back, and so
    [Core.get_proxy] finds an actor registered under it from every
    callee context. *)
Theorem generated_id_is_canonical base actor_id :
  startswith_sep base || startswith_sep actor_id = true ->
  let id := _generate_actor_id base actor_id in
  startswith_sep id = true
  /\ (forall B, _generate_actor_id B id = id)
  /\ forall w n c i callee,
       cores w !! n = Some c -> _actors c !! id = Some i ->
       get_proxy (core_at n) callee id w = (w, Return (mkProxy i id ∅)).
Proof.
  intros Habs id. split; [apply (generate_actor_id_fixed base actor_id "" Habs)|].
  split; [intros B; apply (generate_actor_id_fixed base actor_id B Habs)|].
  intros w n c i callee Hc Hi.
  rewrite (CoreLaws.get_proxy_lookup w n c callee id Hc). cbn zeta.
  assert (_generate_actor_id (identity callee) id = id) as ->
    by apply (generate_actor_id_fixed base actor_id (identity callee) Habs).
  by rewrite Hi.
Qed.

Lemma generated_id_is_canonical_witness :
  let w := run (boot 100) [EvCreateActor (core_at 0) root_context "a/./b//" DummyActor ∅] in
  let id := _generate_actor_id "/" "a/./b//" in
  let callee := __call__ root_context (mkKwargs None None (Some "/x/y") None ∅) in
  id = "/a/b"
  /\ _generate_actor_id "/x/y" id = id
  /\ get_proxy (core_at 0) callee id w = (w, Return (mkProxy 0 id ∅)).
Proof.
  cbn zeta.
  destruct (generated_id_is_canonical "/" "a/./b//" eq_refl) as (_ & Hfix & Hget).
  split; [reflexivity|]. split; [apply Hfix|].
  eapply Hget; vm_compute; reflexivity.
Defined.

End IdLaws.

(** ** The registry of a core *)

Module RegistryLaws.
Import Py Messages Context Behaviour ActorClass Asyncio Runtime Spec Logic RuntimeFacts Terms.

Lemma registered_same w w' :
  cores w' = cores w -> length (actors w) <= length (actors w')
  -> (forall i a, actors w !! i = Some a ->
        exists a', actors w' !! i = Some a' /\ _actor_id a' = _actor_id a
                   /\ _context a' = _context a)
  -> registered_ok w -> registered_ok w'.
Proof.
  intros Hcores _ Hactors Hw n c id i Hc Hi. rewrite Hcores in Hc.
  destruct (Hw n c id i Hc Hi) as (a & Ha & Hid & Hctx & Hgen).
  destruct (Hactors i a Ha) as (a' & Ha' & Hid' & Hctx').
  exists a'. split; [done|]. by rewrite Hid', Hctx'.
Qed.

Lemma registered_quiet w w' : quiet w w' -> registered_ok w -> registered_ok w'.
Proof.
  intros (_ & Hcores & _ & Hlen & Hactors). apply registered_same; [done|lia|].
  intros i a Ha. destruct (Hactors i a Ha) as (a' & Ha' & _ & Hid & Hctx & _). by exists a'.
Qed.

Lemma registered_calm {A} (c : M A) : calm c -> keeps registered_ok c.
Proof. apply keeps_of_calm. apply registered_quiet. Qed.

Lemma registered_update_actor self f :
  (forall a, _actor_id (f a) = _actor_id a /\ _context (f a) = _context a) ->
  keeps registered_ok (update_actor self f).
Proof.
  intros Hf w. apply registered_same; simpl; [done|by rewrite length_alter|].
  intros i a Ha. destruct (decide (self = i)) as [->|Hne].
  - exists (f a). rewrite list_lookup_alter_eq, Ha. split; [done|apply Hf].
  - exists a. by rewrite list_lookup_alter_ne.
Qed.

(** A registry that loses entries, or is left alone. *)
Lemma registered_update_core self f :
  (forall c, _actors (f c) ⊆ _actors c) -> keeps registered_ok (update_core self f).
Proof.
  intros Hf w Hw. destruct self as [m]. intros n c id i Hc Hi. simpl in Hc.
  destruct (decide (m = n)) as [->|Hne].
  - rewrite list_lookup_alter_eq in Hc. destruct (cores w !! n) as [c0|] eqn:Hc0; [|done].
    injection Hc as <-. apply (Hw n c0 id i Hc0).
    by apply (lookup_weaken _ _ _ _ Hi (Hf c0)).
  - rewrite list_lookup_alter_ne in Hc by done. by apply (Hw n c id i).
Qed.

Lemma registered_remove_actor self actor_id :
  keeps registered_ok (remove_actor self actor_id).
Proof.
  unfold remove_actor. apply keeps_bind; [apply registered_calm, calm_assert_running|].
  intros _. apply keeps_bind; [apply keeps_the_core|]. intros c.
  destruct (_ !! _); [|apply registered_calm, calm_core_log].
  apply keeps_bind; [apply keeps_the_actor|]. intros a.
  destruct (negb _); [apply keeps_raise|]. apply registered_update_core.
  intros c'. simpl. apply delete_subseteq.
Qed.

Lemma registered_serve_finally self pending :
  keeps registered_ok (serve_finally self pending).
Proof.
  unfold serve_finally. apply keeps_bind; [by apply registered_update_actor|]. intros _.
  apply keeps_bind.
  - apply keeps_attempt, keeps_bind; [apply keeps_the_actor|]. intros a.
    destruct (_core _); [apply registered_remove_actor|apply keeps_raise].
  - intros r. by apply registered_update_actor.
Qed.

Lemma registered_wait_for_work self : keeps registered_ok (wait_for_work self).
Proof.
  unfold wait_for_work. apply keeps_bind; [apply keeps_the_actor|]. intros a.
  apply keeps_bind; [apply keeps_attempt, keeps_log_call|].
  intros [u|e]; [by apply registered_update_actor|apply registered_serve_finally].
Qed.

Lemma registered_do_init self l : keeps registered_ok (do_init self l).
Proof.
  induction l as [|s l IH]; [apply keeps_ret|].
  simpl. apply keeps_bind; [|intros _; exact IH].
  destruct s as [level| |e]; simpl.
  - apply keeps_bind; [apply keeps_the_actor|intros b; apply keeps_log_call].
  - by apply registered_update_actor.
  - by apply registered_update_actor.
Qed.

Lemma registered_serve_start self : keeps registered_ok (serve_start self).
Proof.
  unfold serve_start. apply keeps_bind; [apply keeps_the_actor|]. intros a.
  apply keeps_bind; [by apply registered_update_actor|]. intros _.
  apply keeps_bind; [apply keeps_read|]. intros h.
  apply keeps_bind; [apply keeps_attempt, registered_calm, calm_call|]. intros x.
  apply keeps_bind; [apply keeps_attempt, registered_do_init|].
  intros [u|e']; [|apply registered_serve_finally].
  destruct x as [v|e]; [apply registered_wait_for_work|apply registered_serve_finally].
Qed.

Lemma registered_dispatch self a envelope tracker :
  keeps registered_ok (dispatch self a envelope tracker).
Proof. apply registered_calm, ServingFacts.calm_dispatch. Qed.

Lemma registered_stop_exit self a : keeps registered_ok (stop_exit self a).
Proof.
  unfold stop_exit. apply keeps_bind; [apply keeps_attempt, keeps_log_call|].
  intros l. apply registered_serve_finally.
Qed.

Lemma registered_serve_step self late_stop : keeps registered_ok (serve_step self late_stop).
Proof.
  unfold serve_step. apply keeps_bind; [apply keeps_the_actor|]. intros a.
  destruct (_queue a) as [|[envelope tracker] rest].
  - destruct (is_set _); [apply registered_stop_exit|apply keeps_ret].
  - apply keeps_bind; [by apply registered_update_actor|].
    intros _. destruct (_ && _); [apply registered_stop_exit|].
    apply keeps_bind; [apply keeps_attempt, registered_dispatch|].
    intros [v|e]; [apply registered_wait_for_work|apply registered_serve_finally].
Qed.

Lemma registered_run_task self late_stop : keeps registered_ok (run_task self late_stop).
Proof.
  unfold run_task. apply keeps_bind; [apply keeps_the_actor|]. intros a.
  destruct (_task a);
    [apply keeps_ret|apply registered_serve_start|apply registered_serve_step|apply keeps_ret].
Qed.

Lemma registered_Service_start self : keeps registered_ok (Service_start self).
Proof.
  unfold Service_start. apply keeps_bind; [apply keeps_the_actor|]. intros a.
  destruct (_task a); try apply keeps_raise. by apply registered_update_actor.
Qed.

Lemma registered_create_actor self callee actor_id cls log_bindings :
  keeps registered_ok (create_actor self callee actor_id cls log_bindings).
Proof.
  unfold create_actor.
  apply keeps_bind; [apply registered_calm, calm_assert_running|]. intros _.
  apply keeps_bind; [apply registered_calm, calm_core_log|]. intros _.
  apply keeps_bind; [apply registered_calm, calm_assert_running|]. intros _.
  apply keeps_bind; [apply keeps_the_core|]. intros c.
  set (id := _generate_actor_id (identity callee) actor_id).
  destruct (_ !! _); [apply keeps_raise|].
  intros w Hw. unfold mbind at 1, lift at 1.
  destruct (derive_context callee id log_bindings) as [context|e] eqn:Hderive; [|done].
  unfold mbind at 1, new_actor. unfold mbind at 1, update_core, update.
  destruct self as [m].
  set (w2 := with_cores _ (with_actors _ w)).
  assert (registered_ok w2) as Hw2.
  { intros n c' id' i Hc' Hi'. unfold w2 in Hc'. simpl in Hc'. unfold w2. simpl.
    assert (forall c0, cores w !! n = Some c0 -> _actors c0 !! id' = Some i ->
              exists a, (actors w ++ [Actor_init cls context id]) !! i = Some a
                        /\ _actor_id a = id' /\ identity (_context a) = id'
                        /\ exists base name, id' = _generate_actor_id base name) as Hold.
    { intros c0 Hc0 Hi0. destruct (Hw n c0 id' i Hc0 Hi0) as (a & Ha & Hrest).
      exists a. split; [by apply lookup_app_l_Some|done]. }
    destruct (decide (m = n)) as [->|Hne].
    - rewrite list_lookup_alter_eq in Hc'.
      destruct (cores w !! n) as [c0|] eqn:Hc0; [|done]. injection Hc' as <-.
      simpl in Hi'. destruct (decide (id = id')) as [<-|Hid].
      + rewrite lookup_insert_eq in Hi'. injection Hi' as <-.
        exists (Actor_init cls context id).
        split; [by rewrite lookup_app_r, Nat.sub_diag by lia|]. split; [done|].
        split;
          [exact (CoreLaws.derive_context_identity _ _ _ _
                    (CoreLaws.generate_actor_id_truthy _ _) Hderive)|].
        by exists (identity callee), actor_id.
      + rewrite lookup_insert_ne in Hi' by done. by apply (Hold c0).
    - rewrite list_lookup_alter_ne in Hc' by done. by apply (Hold c'). }
  pose proof (keeps_bind registered_ok (Service_start (length (actors w)))
                (fun _ => ret (mkProxy (length (actors w)) id ∅))
                (registered_Service_start _) (fun _ => keeps_ret _ _) w2 Hw2) as Hk.
  exact Hk.
Qed.

Lemma registered_shutdown self : keeps registered_ok (shutdown self).
Proof.
  unfold shutdown.
  apply keeps_bind; [apply registered_calm, calm_core_log|]. intros _.
  apply keeps_bind; [by apply registered_update_core|]. intros _.
  apply keeps_bind; [apply keeps_the_core|]. intros c.
  destruct (core_context c); [|apply keeps_raise].
  apply keeps_bind; [apply registered_calm, calm_get_proxies|]. intros proxies.
  apply registered_calm, calm_tell_all.
Qed.

Lemma registered_step w e : registered_ok w -> registered_ok (step w e).
Proof.
  intros Hw.
  destruct e as [core callee actor_id cls log_bindings|actor envelope|actor m
                |proxy context m reply_to|actor|fut|actor late_stop|core actor_id|core
                |l items].
  - by apply (keeps_fst _ (create_actor core callee actor_id cls log_bindings) w
                (registered_create_actor _ _ _ _ _)).
  - by apply (keeps_fst _ (post actor envelope) w (registered_calm _ (calm_post _ _))).
  - by apply (keeps_fst _ (tell_me actor m) w (registered_calm _ (calm_tell_me _ _))).
  - by apply (keeps_fst _ (tell proxy context m reply_to) w
                (registered_calm _ (calm_tell _ _ _ _))).
  - by apply (keeps_fst _ (Service_stop actor) w (registered_calm _ (calm_Service_stop _))).
  - revert Hw. apply registered_same; [done..|]. intros i a Ha. by exists a.
  - by apply (keeps_fst _ (run_task actor late_stop) w (registered_run_task _ _)).
  - by apply (keeps_fst _ (remove_actor core actor_id) w (registered_remove_actor _ _)).
  - by apply (keeps_fst _ (shutdown core) w (registered_shutdown _)).
  - revert Hw. apply registered_same; [done..|]. intros i a Ha. by exists a.
Qed.

Lemma registered_run schedule : forall w, registered_ok w -> registered_ok (run w schedule).
Proof.
  induction schedule as [|e schedule IH]; intros w Hw; [done|].
  simpl. apply IH. by apply registered_step.
Qed.

Lemma registered_boot limit : registered_ok (boot limit).
Proof. intros n c id i Hc Hi. destruct n as [|n]; [|done]. by injection Hc as <-. Qed.

(** X16: The registry of a core is sound under every schedule: each id in
    it names an actor object that exists, whose [actor_id] and whose
    context identity are that id; and no two ids of a registry name
    the same object. *)
Theorem registry_names_actors w schedule :
  registered_ok w ->
  registered_ok (run w schedule)
  /\ forall n c id id' i,
       cores (run w schedule) !! n = Some c ->
       _actors c !! id = Some i -> _actors c !! id' = Some i -> id = id'.
Proof.
  intros Hw. pose proof (registered_run schedule w Hw) as Hrun. split; [done|].
  intros n c id id' i Hc Hi Hi'.
  destruct (Hrun n c id i Hc Hi) as (a & Ha & Hid & _).
  destruct (Hrun n c id' i Hc Hi') as (a' & Ha' & Hid' & _). congruence.
Qed.

Lemma registry_names_actors_witness :
  let schedule :=
    [EvCreateActor (core_at 0) root_context "dummy" DummyActor ∅;
     EvCreateActor (core_at 0) root_context "echo" EchoActor ∅; EvRun 0 false] in
  registered_ok (boot 100) /\ registered_ok (run (boot 100) schedule).
Proof.
  cbn zeta. split; [apply registered_boot|].
  apply (registry_names_actors (boot 100) _ (registered_boot 100)).
Defined.

End RegistryLaws.

(** ** Shutting the core down *)

Module ShutdownLaws.
Import Py Messages Context Behaviour ActorClass Asyncio Runtime Spec Logic RuntimeFacts Terms.






End ShutdownLaws.

(** ** Actlets and timers of an actor *)

Module ActletLaws.
Import Py PyStr Messages Context Behaviour ActorClass Asyncio Runtime Spec Logic RuntimeFacts.
Import Terms Actlets.

Lemma deepcopy_message_world m w w1 r :
  deepcopy_message m w = (w1, r) -> exists h, w1 = with_heap h w.
Proof.
  unfold deepcopy_message. intros H.
  assert (w = with_heap (heap_of w) w) as Hw by (by destruct w).
  destruct (deepcopy _ _ _) as [[v [memo h]]|e].
  - destruct v; injection H as <- _; eauto.
  - injection H as <- _. eauto.
Qed.

Lemma is_actlet_exists_spec a name :
  is_actlet_exists a name = false <-> _actlets a !! _generate_actlet_name a name = None.
Proof.
  unfold is_actlet_exists. rewrite bool_decide_eq_false, <- eq_None_not_Some. done.
Qed.

(** An actor registered under its own, absolute id is found from
    every context of its core. *)
Lemma own_proxy w n c self a context :
  registered_ok w -> cores w !! n = Some c -> _core context = Some (core_at n) ->
  actors w !! self = Some a -> _actors c !! _actor_id a = Some self ->
  startswith_sep (_actor_id a) = true ->
  Context_get_proxy context (_actor_id a) w = (w, Return (mkProxy self (_actor_id a) ∅)).
Proof.
  intros Hw Hc Hcore Ha Hreg Habs. unfold Context_get_proxy. rewrite Hcore.
  rewrite (CoreLaws.get_proxy_lookup w n c context (_actor_id a) Hc). cbn zeta.
  destruct (Hw n c _ self Hc Hreg) as (a' & Ha' & _ & _ & base & name & Hgen).
  assert (_generate_actor_id (identity context) (_actor_id a) = _actor_id a) as ->.
  { rewrite Hgen in Habs |- *. by apply IdLaws.generated_absolute_fixed. }
  by rewrite Hreg.
Qed.

(** What a [create_actlet] that passes its checks does. *)
Lemma create_actlet_returns w n c self a context name function configuration w1 copied :
  registered_ok w -> cores w !! n = Some c -> _core context = Some (core_at n) ->
  actors w !! self = Some a -> _actors c !! _actor_id a = Some self ->
  startswith_sep (_actor_id a) = true ->
  is_actlet_exists a name = false ->
  ep_bound function = false ->
  Router.keys_eq (ep_parameters function) ENTRY_POINT_SIGNATURE = true ->
  ep_coroutine function = true ->
  deepcopy_message configuration w = (w1, Return copied) ->
  let key := _generate_actlet_name a name in
  create_actlet self context name function configuration w
  = (with_actors
       (alter (fun a => with_actlets (<[key := mkActlet false]> (_actlets a)) a) self
          (actors w)) w1,
     Return (mkActletObject key (__call__ context (mkKwargs None None (Some key) None ∅))
               function (mkProxy self (_actor_id a) ∅) copied)).
Proof.
  intros Hw Hc Hcore Ha Hreg Habs Hfree Hbound Hsig Hco Hcopy key.
  unfold create_actlet, mbind at 1, the_actor at 1. rewrite Ha, Hfree, Hbound.
  fold key. unfold mbind at 1.
  rewrite (own_proxy w n c self a context Hw Hc Hcore Ha Hreg Habs).
  unfold mbind at 1. rewrite Hcopy.
  unfold Actlet_init. rewrite Hsig, Hco. simpl negb. cbv iota.
  destruct (deepcopy_message_world _ _ _ _ Hcopy) as [h ->].
  reflexivity.
Qed.

Lemma actlet_name_truthy a name : PyStr.truthy (_generate_actlet_name a name) = true.
Proof. unfold _generate_actlet_name. by destruct (identity (_context a)). Qed.

Lemma create_actlet_exists w self a context name function configuration :
  actors w !! self = Some a -> is_actlet_exists a name = true ->
  create_actlet self context name function configuration w
  = (w, Raise (mkExc RuntimeError ("actlet: " +:+ name +:+ " already exists"))).
Proof.
  intros Ha Hex. unfold create_actlet, mbind at 1, the_actor at 1. by rewrite Ha, Hex.
Qed.

(** X18: [create_actlet] registers the actlet under
    [<identity>/actlet/<name>].  For an actor registered under its
    own absolute id, a name that is free and a function that is an
    unbound coroutine function of [(context, proxy, configuration)],
    the call returns an actlet of that full name whose context has the
    name as identity, whose proxy is one to the actor itself and whose
    configuration is the deep copy; the name then exists, the mailbox,
    the futures and the cores are as before, and creating it again
    raises [RuntimeError] and changes nothing. *)
Theorem create_actlet_registers w n c self a context name function configuration w1 copied :
  registered_ok w -> cores w !! n = Some c -> _core context = Some (core_at n) ->
  actors w !! self = Some a -> _actors c !! _actor_id a = Some self ->
  startswith_sep (_actor_id a) = true ->
  is_actlet_exists a name = false ->
  ep_bound function = false ->
  Router.keys_eq (ep_parameters function) ENTRY_POINT_SIGNATURE = true ->
  ep_coroutine function = true ->
  deepcopy_message configuration w = (w1, Return copied) ->
  let key := identity (_context a) +:+ "/actlet/" +:+ name in
  exists w' actlet a',
    create_actlet self context name function configuration w = (w', Return actlet)
    /\ actlet_name actlet = key /\ identity (actlet_context actlet) = key
    /\ actlet_proxy actlet = mkProxy self (_actor_id a) ∅
    /\ actlet_configuration actlet = copied
    /\ actors w' !! self = Some a'
    /\ _actlets a' = <[key := mkActlet false]> (_actlets a)
    /\ is_actlet_exists a' name = true
    /\ _queue a' = _queue a /\ futures w' = futures w /\ cores w' = cores w
    /\ forall context' function' configuration',
         create_actlet self context' name function' configuration' w'
         = (w', Raise (mkExc RuntimeError ("actlet: " +:+ name +:+ " already exists"))).
Proof.
  intros Hw Hc Hcore Ha Hreg Habs Hfree Hbound Hsig Hco Hcopy key.
  pose proof (create_actlet_returns w n c self a context name function configuration
                w1 copied Hw Hc Hcore Ha Hreg Habs Hfree Hbound Hsig Hco Hcopy) as Hcreate.
  cbn zeta in Hcreate. change (_generate_actlet_name a name) with key in Hcreate.
  destruct (deepcopy_message_world _ _ _ _ Hcopy) as [h ->].
  set (a' := with_actlets (<[key := mkActlet false]> (_actlets a)) a).
  set (w' := with_actors _ _) in Hcreate.
  assert (actors w' !! self = Some a') as Ha'
    by (unfold w'; simpl; by rewrite list_lookup_alter_eq, Ha).
  assert (is_actlet_exists a' name = true) as Hex.
  { unfold is_actlet_exists. apply bool_decide_eq_true.
    change (_generate_actlet_name a' name) with key. unfold a'. simpl.
    rewrite lookup_insert_eq. by eexists. }
  eexists w', _, a'. split; [exact Hcreate|]. split; [done|].
  split; [apply CoreLaws.created_identity; [apply (actlet_name_truthy a name)|reflexivity]|].
  do 8 (split; [done|]).
  intros context' function' configuration'.
  by apply (create_actlet_exists w' self a').
Qed.

Lemma create_actlet_registers_witness :
  let w := run (boot 100) [EvCreateActor (core_at 0) root_context "dummy" DummyActor ∅] in
  let function := mkEntryPoint "job" false ["context"; "proxy"; "configuration"] true in
  exists w' actlet,
    create_actlet 0 root_context "job" function (mkMessage DataMessage_cls [VStr "x"]) w
    = (w', Return actlet)
    /\ actlet_name actlet = "/dummy/actlet/job"
    /\ actlet_proxy actlet = mkProxy 0 "/dummy" ∅.
Proof.
  cbn zeta.
  set (w := run (boot 100) [EvCreateActor (core_at 0) root_context "dummy" DummyActor ∅]).
  set (function := mkEntryPoint "job" false ["context"; "proxy"; "configuration"] true).
  assert (registered_ok w) as Hw
    by apply RegistryLaws.registered_run, RegistryLaws.registered_boot.
  assert (exists c a, cores w !! 0 = Some c /\ actors w !! 0 = Some a
                      /\ _actors c !! _actor_id a = Some 0
                      /\ _actor_id a = "/dummy" /\ identity (_context a) = "/dummy"
                      /\ is_actlet_exists a "job" = false)
    as (c & a & Hc & Ha & Hreg & Hid & Hctx & Hfree).
  { eexists _, _. split; [vm_compute; reflexivity|]. split; [vm_compute; reflexivity|].
    split; [reflexivity|]. split; [reflexivity|]. split; reflexivity. }
  destruct (deepcopy_message (mkMessage DataMessage_cls [VStr "x"]) w)
    as [w1 [copied|e]] eqn:Hcopy; [|by vm_compute in Hcopy].
  destruct (create_actlet_registers w 0 c 0 a root_context "job" function
              (mkMessage DataMessage_cls [VStr "x"]) w1 copied Hw Hc eq_refl Ha Hreg)
    as (w' & actlet & a' & Hcreate & Hname & _ & Hproxy & _); try done.
  { by rewrite Hid. }
  exists w', actlet. split; [done|]. rewrite Hname, Hproxy, Hctx, Hid. done.
Defined.

Ltac raised_unchanged :=
  split; [intros ? _; simpl; done|]; split; [done|]; split; [done|];
  intros _; simpl; by eexists.

(** The steps of [create_actlet], one after the other. *)
Lemma create_actlet_steps w self a context name function configuration :
  actors w !! self = Some a ->
  create_actlet self context name function configuration w
  = if is_actlet_exists a name then
      (w, Raise (mkExc RuntimeError ("actlet: " +:+ name +:+ " already exists")))
    else if ep_bound function then
      (w, Raise (mkExc RuntimeError "actlet function must not be bound"))
    else
      let key := _generate_actlet_name a name in
      match Context_get_proxy context (_actor_id a) w with
      | (w0, Raise e) => (w0, Raise e)
      | (w0, Return proxy) =>
          match deepcopy_message configuration w0 with
          | (w1, Raise e) => (w1, Raise e)
          | (w1, Return copied) =>
              match Actlet_init (__call__ context (mkKwargs None None (Some key) None ∅))
                      function proxy copied (Some key) with
              | Raise e => (w1, Raise e)
              | Return actlet =>
                  (with_actors
                     (alter (fun a => with_actlets (<[key := mkActlet false]> (_actlets a)) a)
                        self (actors w1)) w1,
                   Return actlet)
              end
          end
      end.
Proof.
  intros Ha. unfold create_actlet, mbind at 1, the_actor at 1. rewrite Ha.
  cbv beta iota zeta.
  destruct (is_actlet_exists a name); [done|]. destruct (ep_bound function); [done|].
  unfold mbind at 1.
  destruct (Context_get_proxy context (_actor_id a) w) as [w0 [proxy|e0]]; [|done].
  unfold mbind at 1.
  destruct (deepcopy_message configuration w0) as [w1 [copied|e1]]; [|done].
  by destruct (Actlet_init _ _ _ _ _).
Qed.

(** X19: A [create_actlet] that raises has stored nothing: the actors,
    the futures and the cores are as they were.  It raises when the
    name is taken, when the function is bound, and when the function
    has not the three parameters [(context, proxy, configuration)] or
    is no coroutine function. *)
Theorem create_actlet_rejects w self a context name function configuration :
  actors w !! self = Some a ->
  let outcome := create_actlet self context name function configuration w in
  (forall e, outcome.2 = Raise e ->
     actors outcome.1 = actors w /\ futures outcome.1 = futures w
     /\ cores outcome.1 = cores w)
  /\ (is_actlet_exists a name = true ->
      outcome = (w, Raise (mkExc RuntimeError ("actlet: " +:+ name +:+ " already exists"))))
  /\ (is_actlet_exists a name = false -> ep_bound function = true ->
      outcome = (w, Raise (mkExc RuntimeError "actlet function must not be bound")))
  /\ (Router.keys_eq (ep_parameters function) ENTRY_POINT_SIGNATURE = false
      \/ ep_coroutine function = false ->
      exists e, outcome.2 = Raise e).
Proof.
  intros Ha outcome. unfold outcome. clear outcome.
  rewrite (create_actlet_steps w self a context name function configuration Ha).
  destruct (is_actlet_exists a name) eqn:Hex; [raised_unchanged|].
  destruct (ep_bound function) eqn:Hbound; [raised_unchanged|].
  cbv zeta. set (key := _generate_actlet_name a name).
  assert ((Context_get_proxy context (_actor_id a) w).1 = w) as Hproxy.
  { unfold Context_get_proxy. destruct (_core context) as [[n]|]; [|done].
    unfold get_proxy, mbind, the_core. destruct (cores w !! n) as [c|]; [|done].
    by destruct (_actors c !! _). }
  destruct (Context_get_proxy context (_actor_id a) w) as [w0 [proxy|e0]] eqn:Hget;
    simpl in Hproxy; subst w0; [|raised_unchanged].
  destruct (deepcopy_message configuration w) as [w1 [copied|e1]] eqn:Hcopy;
    destruct (deepcopy_message_world _ _ _ _ Hcopy) as [h ->]; [|raised_unchanged].
  unfold Actlet_init.
  destruct (Router.keys_eq _ _) eqn:Hsig; simpl negb; cbv iota; [|raised_unchanged].
  destruct (ep_coroutine function) eqn:Hco; simpl negb; cbv iota; [|raised_unchanged].
  split; [done|]. split; [done|]. split; [done|]. by intros [?|?].
Qed.

Lemma create_actlet_rejects_witness :
  let w := run (boot 100) [EvCreateActor (core_at 0) root_context "dummy" DummyActor ∅] in
  let method := mkEntryPoint "job" true ["context"; "proxy"; "configuration"] true in
  create_actlet 0 root_context "job" method (mkMessage DataMessage_cls [VStr "x"]) w
  = (w, Raise (mkExc RuntimeError "actlet function must not be bound")).
Proof.
  cbn zeta.
  set (w := run (boot 100) [EvCreateActor (core_at 0) root_context "dummy" DummyActor ∅]).
  assert (exists a, actors w !! 0 = Some a /\ is_actlet_exists a "job" = false)
    as (a & Ha & Hfree) by (eexists; split; [vm_compute; reflexivity|reflexivity]).
  by apply (create_actlet_rejects w 0 a root_context "job" _ _ Ha).
Defined.

(** An update of one actor that gives back the object it was. *)
Lemma alter_restores w self a f :
  actors w !! self = Some a -> f a = a -> alter f self (actors w) = actors w.
Proof.
  intros Ha Hf. apply list_eq. intros i. destruct (decide (self = i)) as [->|Hne].
  - by rewrite list_lookup_alter_eq, Ha; simpl; rewrite Hf.
  - by rewrite list_lookup_alter_ne.
Qed.

Lemma cancel_actlet_unknown w self a context name :
  actors w !! self = Some a -> is_actlet_exists a name = false ->
  cancel_actlet self context name w
  = (w, Raise (mkExc KeyError (_generate_actlet_name a name))).
Proof.
  intros Ha Hfree%is_actlet_exists_spec.
  unfold cancel_actlet, mbind at 1, the_actor at 1. by rewrite Ha, Hfree.
Qed.

(** [create_actlet], then [cancel_actlet]. *)
Lemma create_then_cancel w n c self a context name function configuration w1 copied :
  registered_ok w -> cores w !! n = Some c -> _core context = Some (core_at n) ->
  actors w !! self = Some a -> _actors c !! _actor_id a = Some self ->
  startswith_sep (_actor_id a) = true ->
  is_actlet_exists a name = false ->
  ep_bound function = false ->
  Router.keys_eq (ep_parameters function) ENTRY_POINT_SIGNATURE = true ->
  ep_coroutine function = true ->
  deepcopy_message configuration w = (w1, Return copied) ->
  exists w' actlet w'',
    create_actlet self context name function configuration w = (w', Return actlet)
    /\ cancel_actlet self context name w' = (w'', Return tt)
    /\ actors w'' = actors w.
Proof.
  intros Hw Hc Hcore Ha Hreg Habs Hfree Hbound Hsig Hco Hcopy.
  set (key := identity (_context a) +:+ "/actlet/" +:+ name).
  pose proof (create_actlet_returns w n c self a context name function configuration
                w1 copied Hw Hc Hcore Ha Hreg Habs Hfree Hbound Hsig Hco Hcopy) as Hcreate.
  cbn zeta in Hcreate. change (_generate_actlet_name a name) with key in Hcreate.
  destruct (deepcopy_message_world _ _ _ _ Hcopy) as [h ->].
  set (a' := with_actlets (<[key := mkActlet false]> (_actlets a)) a).
  set (w' := with_actors _ _) in Hcreate.
  assert (actors w' !! self = Some a') as Ha'
    by (unfold w'; simpl; by rewrite list_lookup_alter_eq, Ha).
  pose proof (proj1 (is_actlet_exists_spec a name) Hfree) as Hnone.
  change (_generate_actlet_name a name) with key in Hnone.
  set (marked := fun b : Actor =>
                  with_actlets (<[key := mkActlet true]> (_actlets b)) b).
  set (deleted := fun b : Actor => with_actlets (delete key (_actlets b)) b).
  set (w'' := with_actors (alter deleted self (alter marked self (actors w'))) w').
  assert (cancel_actlet self context name w' = (w'', Return tt)) as Hcancel.
  { unfold cancel_actlet, mbind at 1, the_actor at 1. rewrite Ha'.
    change (_generate_actlet_name a' name) with key.
    assert (_actlets a' !! key = Some (mkActlet false)) as ->
      by (unfold a'; simpl; by rewrite lookup_insert_eq).
    reflexivity. }
  assert (deleted (marked a') = a) as Hsame.
  { unfold deleted, marked, a'. destruct a. simpl in *. unfold with_actlets. simpl.
    f_equal. rewrite insert_insert_eq, delete_insert_eq. by apply delete_id. }
  assert (actors w'' = actors w) as Hback.
  { apply list_eq. intros i. unfold w'', w'. simpl.
    destruct (decide (self = i)) as [<-|Hne].
    - rewrite !list_lookup_alter_eq, Ha. simpl. f_equal. exact Hsame.
    - by rewrite !list_lookup_alter_ne. }
  eexists w', _, w''. split; [exact Hcreate|]. split; [exact Hcancel|].
  exact Hback.
Qed.

(** X20: [cancel_actlet] undoes [create_actlet]: after the two calls the
    actors are exactly as before the first, and the name is free
    again; cancelling a name that does not exist raises [KeyError]
    with the full name and changes nothing. *)
Theorem cancel_actlet_round_trip w n c self a context name function configuration w1 copied :
  registered_ok w -> cores w !! n = Some c -> _core context = Some (core_at n) ->
  actors w !! self = Some a -> _actors c !! _actor_id a = Some self ->
  startswith_sep (_actor_id a) = true ->
  is_actlet_exists a name = false ->
  ep_bound function = false ->
  Router.keys_eq (ep_parameters function) ENTRY_POINT_SIGNATURE = true ->
  ep_coroutine function = true ->
  deepcopy_message configuration w = (w1, Return copied) ->
  let key := identity (_context a) +:+ "/actlet/" +:+ name in
  exists w' actlet w'',
    create_actlet self context name function configuration w = (w', Return actlet)
    /\ cancel_actlet self context name w' = (w'', Return tt)
    /\ actors w'' = actors w
    /\ cancel_actlet self context name w'' = (w'', Raise (mkExc KeyError key))
    /\ cancel_actlet self context name w = (w, Raise (mkExc KeyError key)).
Proof.
  intros Hw Hc Hcore Ha Hreg Habs Hfree Hbound Hsig Hco Hcopy key.
  destruct (create_then_cancel w n c self a context name function configuration w1 copied
              Hw Hc Hcore Ha Hreg Habs Hfree Hbound Hsig Hco Hcopy)
    as (w' & actlet & w'' & Hcreate & Hcancel & Hback).
  exists w', actlet, w''. split; [exact Hcreate|]. split; [exact Hcancel|].
  split; [exact Hback|].
  split; [|by apply (cancel_actlet_unknown w self a)].
  apply (cancel_actlet_unknown w'' self a); [|exact Hfree]. by rewrite Hback.
Qed.

Lemma cancel_actlet_round_trip_witness :
  let w := run (boot 100) [EvCreateActor (core_at 0) root_context "dummy" DummyActor ∅] in
  let function := mkEntryPoint "job" false ["context"; "proxy"; "configuration"] true in
  exists w' actlet w'',
    create_actlet 0 root_context "job" function (mkMessage DataMessage_cls [VStr "x"]) w
    = (w', Return actlet)
    /\ cancel_actlet 0 root_context "job" w' = (w'', Return tt)
    /\ actors w'' = actors w
    /\ cancel_actlet 0 root_context "job" w
       = (w, Raise (mkExc KeyError "/dummy/actlet/job")).
Proof.
  cbn zeta.
  set (w := run (boot 100) [EvCreateActor (core_at 0) root_context "dummy" DummyActor ∅]).
  set (function := mkEntryPoint "job" false ["context"; "proxy"; "configuration"] true).
  assert (registered_ok w) as Hw
    by apply RegistryLaws.registered_run, RegistryLaws.registered_boot.
  assert (exists c a, cores w !! 0 = Some c /\ actors w !! 0 = Some a
                      /\ _actors c !! _actor_id a = Some 0
                      /\ _actor_id a = "/dummy" /\ identity (_context a) = "/dummy"
                      /\ is_actlet_exists a "job" = false)
    as (c & a & Hc & Ha & Hreg & Hid & Hctx & Hfree).
  { eexists _, _. split; [vm_compute; reflexivity|]. split; [vm_compute; reflexivity|].
    split; [reflexivity|]. split; [reflexivity|]. split; reflexivity. }
  destruct (deepcopy_message (mkMessage DataMessage_cls [VStr "x"]) w)
    as [w1 [copied|e]] eqn:Hcopy; [|by vm_compute in Hcopy].
  destruct (cancel_actlet_round_trip w 0 c 0 a root_context "job" function
              (mkMessage DataMessage_cls [VStr "x"]) w1 copied Hw Hc eq_refl Ha Hreg)
    as (w' & actlet & w'' & Hcreate & Hcancel & Hback & _ & Hunknown); try done.
  { by rewrite Hid. }
  exists w', actlet, w''. split; [done|]. split; [done|]. split; [done|].
  rewrite Hunknown, Hctx. done.
Defined.





(** X22: Timers are actlets named [timer/<name>].  For an actor registered
    under its own absolute id and a timer name that is free,
    [create_timer] passes every check of [create_actlet] and of
    [Actlet.__init__]: it returns an actlet that runs
    [Actor._generic_timer], stored under
    [<identity>/actlet/timer/<name>]; the timer then exists, and so
    does the actlet [timer/<name>], which can no longer be created;
    and [cancel_timer] leaves the actors as they were before. *)
Theorem create_timer_registers
    w n c self a context name message interval delay now repetitions w1 copied :
  registered_ok w -> cores w !! n = Some c -> _core context = Some (core_at n) ->
  actors w !! self = Some a -> _actors c !! _actor_id a = Some self ->
  startswith_sep (_actor_id a) = true ->
  is_timer_exists a name = false ->
  deepcopy_message (TimerConfiguration_message message interval delay now repetitions) w
  = (w1, Return copied) ->
  let key := identity (_context a) +:+ "/actlet/timer/" +:+ name in
  exists w' actlet a' w'',
    create_timer self context name message interval delay now repetitions w
    = (w', Return actlet)
    /\ actlet_name actlet = key
    /\ actlet_entry_point actlet = _generic_timer_function
    /\ actlet_configuration actlet = copied
    /\ actors w' !! self = Some a'
    /\ is_timer_exists a' name = true
    /\ is_actlet_exists a' ("timer/" +:+ name) = true
    /\ (forall context' function' configuration',
          create_actlet self context' ("timer/" +:+ name) function' configuration' w'
          = (w', Raise (mkExc RuntimeError
                          ("actlet: " +:+ "timer/" +:+ name +:+ " already exists"))))
    /\ cancel_timer self context name w' = (w'', Return tt)
    /\ actors w'' = actors w.
Proof.
  intros Hw Hc Hcore Ha Hreg Habs Hfree Hcopy key.
  destruct (create_then_cancel w n c self a context (_generate_timer_name name)
              _generic_timer_function _ w1 copied Hw Hc Hcore Ha Hreg Habs Hfree
              eq_refl eq_refl eq_refl Hcopy)
    as (w' & actlet & w'' & Hcreate & Hcancel & Hback).
  pose proof (create_actlet_returns w n c self a context (_generate_timer_name name)
                _generic_timer_function _ w1 copied Hw Hc Hcore Ha Hreg Habs Hfree
                eq_refl eq_refl eq_refl Hcopy) as Hreturns.
  cbn zeta in Hreturns. rewrite Hcreate in Hreturns. injection Hreturns as Hw' Hactlet.
  set (stored := _generate_actlet_name a (_generate_timer_name name)) in *.
  assert (stored = key) as Hkey.
  { unfold stored, key, _generate_actlet_name, _generate_timer_name. reflexivity. }
  set (a' := with_actlets (<[stored := mkActlet false]> (_actlets a)) a).
  assert (actors w' !! self = Some a') as Ha'
    by (rewrite Hw'; simpl; by rewrite list_lookup_alter_eq, Ha).
  assert (is_actlet_exists a' (_generate_timer_name name) = true) as Hex.
  { unfold is_actlet_exists. apply bool_decide_eq_true.
    change (_generate_actlet_name a' (_generate_timer_name name)) with stored.
    unfold a'. simpl. rewrite lookup_insert_eq. by eexists. }
  exists w', actlet, a', w''. split; [exact Hcreate|].
  split; [by rewrite Hactlet, <- Hkey|]. split; [by rewrite Hactlet|].
  split; [by rewrite Hactlet|]. split; [done|]. split; [exact Hex|]. split; [exact Hex|].
  split; [|by split].
  intros context' function' configuration'.
  by apply (create_actlet_exists w' self a').
Qed.

Lemma create_timer_registers_witness :
  let w := run (boot 100) [EvCreateActor (core_at 0) root_context "dummy" DummyActor ∅] in
  exists w' actlet w'',
    create_timer 0 root_context "tick" (mkMessage DummyMessage_cls [])
      (VInt 5) (VInt 0) (VBool false) (VInt 3) w
    = (w', Return actlet)
    /\ actlet_name actlet = "/dummy/actlet/timer/tick"
    /\ cancel_timer 0 root_context "tick" w' = (w'', Return tt)
    /\ actors w'' = actors w.
Proof.
  cbn zeta.
  set (w := run (boot 100) [EvCreateActor (core_at 0) root_context "dummy" DummyActor ∅]).
  assert (registered_ok w) as Hw
    by apply RegistryLaws.registered_run, RegistryLaws.registered_boot.
  assert (exists c a, cores w !! 0 = Some c /\ actors w !! 0 = Some a
                      /\ _actors c !! _actor_id a = Some 0
                      /\ _actor_id a = "/dummy" /\ identity (_context a) = "/dummy"
                      /\ is_timer_exists a "tick" = false)
    as (c & a & Hc & Ha & Hreg & Hid & Hctx & Hfree).
  { eexists _, _. split; [vm_compute; reflexivity|]. split; [vm_compute; reflexivity|].
    split; [reflexivity|]. split; [reflexivity|]. split; reflexivity. }
  destruct (deepcopy_message
              (TimerConfiguration_message (mkMessage DummyMessage_cls [])
                 (VInt 5) (VInt 0) (VBool false) (VInt 3)) w)
    as [w1 [copied|e]] eqn:Hcopy; [|by vm_compute in Hcopy].
  destruct (create_timer_registers w 0 c 0 a root_context "tick"
              (mkMessage DummyMessage_cls []) (VInt 5) (VInt 0) (VBool false) (VInt 3)
              w1 copied Hw Hc eq_refl Ha Hreg)
    as (w' & actlet & a' & w'' & Hcreate & Hname & _ & _ & _ & _ & _ & _ & Hcancel & Hback);
    try done.
  { by rewrite Hid. }
  exists w', actlet, w''. split; [done|]. split; [by rewrite Hname, Hctx|]. done.
Defined.

End ActletLaws.

(** ** Messages sent as method calls *)

Module ProxyAutoLaws.
Import Py PyStr Messages Context Behaviour ActorClass Asyncio Runtime Spec Terms ProxyAuto.

(** *** The name of the message class *)

Lemma lower_underscore c : Ascii.eqb (lower c) underscore = Ascii.eqb c underscore.
Proof. by destruct c as [[] [] [] [] [] [] [] []]. Qed.

Lemma upper_underscore c : Ascii.eqb (upper c) underscore = Ascii.eqb c underscore.
Proof. by destruct c as [[] [] [] [] [] [] [] []]. Qed.

Lemma upper_lower c : upper (lower c) = upper c.
Proof. by destruct c as [[] [] [] [] [] [] [] []]. Qed.

Lemma lower_lower c : lower (lower c) = lower c.
Proof. by destruct c as [[] [] [] [] [] [] [] []]. Qed.

Lemma lower_all_idemp s : lower_all (lower_all s) = lower_all s.
Proof. induction s as [|c s IH]; simpl; [done|]. by rewrite lower_lower, IH. Qed.

Lemma has_underscore_lower_all s : has_underscore (lower_all s) = has_underscore s.
Proof. induction s as [|c s IH]; simpl; [done|]. by rewrite lower_underscore, IH. Qed.

Lemma has_underscore_capitalize s : has_underscore (capitalize s) = has_underscore s.
Proof.
  destruct s as [|c s]; simpl; [done|].
  by rewrite upper_underscore, has_underscore_lower_all.
Qed.

Lemma has_underscore_app a b :
  has_underscore (a +:+ b) = has_underscore a || has_underscore b.
Proof. induction a as [|c a IH]; simpl; [done|]. by rewrite IH, orb_assoc. Qed.

Lemma split_underscore_pieces s :
  Forall (fun x => has_underscore x = false) (split_underscore s).
Proof.
  induction s as [|c s IH]; simpl; [by repeat constructor|].
  destruct (Ascii.eqb c underscore) eqn:Hc; [by constructor|].
  destruct (split_underscore s) as [|x xs]; [constructor; [simpl; by rewrite Hc|constructor]|].
  inversion IH as [|? ? Hx Hxs]; subst. constructor; [|done]. simpl. by rewrite Hc.
Qed.

Lemma split_underscore_lower_all s :
  split_underscore (lower_all s) = map lower_all (split_underscore s).
Proof.
  induction s as [|c s IH]; simpl; [done|]. rewrite lower_underscore, IH.
  destruct (Ascii.eqb c underscore); [done|]. by destruct (split_underscore s).
Qed.

Lemma capitalize_lower_all s : capitalize (lower_all s) = capitalize s.
Proof. destruct s as [|c s]; simpl; [done|]. by rewrite upper_lower, lower_all_idemp. Qed.

Lemma split_underscore_plain x : has_underscore x = false -> split_underscore x = [x].
Proof.
  induction x as [|c x IH]; simpl; [done|].
  intros [Hc Hx]%orb_false_elim. by rewrite Hc, (IH Hx).
Qed.

Lemma split_underscore_app x s :
  has_underscore x = false ->
  split_underscore (x +:+ String underscore s) = x :: split_underscore s.
Proof.
  induction x as [|c x IH]; simpl; [done|].
  intros [Hc Hx]%orb_false_elim. by rewrite Hc, (IH Hx).
Qed.

Lemma split_join_underscore words :
  words <> [] -> Forall (fun x => has_underscore x = false) words ->
  split_underscore (join_underscore words) = words.
Proof.
  induction words as [|x [|y rest] IH]; intros Hne Hall; [done| |].
  - simpl. apply split_underscore_plain. by inversion Hall.
  - change (join_underscore (x :: y :: rest))
      with (x +:+ String underscore (join_underscore (y :: rest))).
    inversion Hall as [|? ? Hx Hrest]; subst.
    rewrite split_underscore_app by done. by rewrite IH.
Qed.

(** X23: The name [__getattr__] looks up never contains an underscore, so
    a message class with an underscore in its name cannot be reached
    as an attribute; the case of the letters of the attribute does not
    matter; and the attribute [w1_.._wn] stands for the class named by
    the capitalised words put together. *)
Theorem getattr_message_name func :
  has_underscore (message_name func) = false
  /\ message_name (lower_all func) = message_name func
  /\ forall words,
       words <> [] -> Forall (fun x => has_underscore x = false) words ->
       message_name (join_underscore words) = join_empty (map capitalize words).
Proof.
  split; [|split].
  - unfold message_name. pose proof (split_underscore_pieces func) as Hp.
    induction Hp as [|x xs Hx _ IH]; [done|].
    simpl. by rewrite has_underscore_app, has_underscore_capitalize, Hx, IH.
  - unfold message_name. rewrite split_underscore_lower_all, map_map.
    f_equal. apply map_ext. intros x. apply capitalize_lower_all.
  - intros words Hne Hall. unfold message_name. by rewrite split_join_underscore.
Qed.

End ProxyAutoLaws.
